(** * Algoritmo de Evolução Geomagnética (AEG) V2.0 — verification of aeg_v2.py

    The development embeds [src/aeg_v2.py] and proves properties of its
    fitness function ([calcular_aptidao]) and of its evolutionary operators
    ([selecao], [cruzamento], [mutacao]) and main loop.

    Numbers.  The program computes on numpy's float64.  It is embedded
    twice.

    - Over the real numbers [R], the exact-arithmetic reading of the code:
      rounding, overflow, [inf] and [nan] are absent, and a division whose
      denominator is zero (where numpy yields [inf]/[nan] and a
      RuntimeWarning) is recorded as the fault [DivisaoPorZero], so that the
      absence of such divisions can be stated and proved.  What is proved on
      it holds of the program up to rounding wherever no intermediate result
      of the float64 computation leaves the range of the format, which is
      the case for chromosomes whose genes are at most [LIMITE_GENES] in
      magnitude; a statement that fails on float64 beyond that domain
      carries it as a hypothesis.  The chromosomes of a run of the script
      stay far inside the domain (section "The drift of the genes over a
      run").

    - Over binary64 (module [F64], Rocq's primitive floats, which are IEEE
      754 binary64 with rounding to nearest even): the fitness function as
      numpy evaluates it, for what happens at the ends of the range, where
      squares overflow to [inf] or underflow to 0 and the result is [nan].

    Arrays.  A numpy array is a [list R]; arrays that the program shares and
    updates in place live in a store and are named by references (second
    part of the file). *)

From Stdlib Require Import Reals Lra Lia ZArith.
From Stdlib Require Uint63 Floats.
From stdpp Require Import base option list.

Open Scope R_scope.

(** * Results of fallible computations *)

Inductive excecao : Type :=
  | ValueError        (* raised by reshape, np.random.choice, randint, max *)
  | IndexError        (* an index outside a sequence *)
  | DivisaoPorZero.   (* a zero denominator (numpy: inf/nan and a warning) *)

Inductive resultado (A : Type) : Type :=
  | Ok (a : A)
  | Erro (e : excecao).
Arguments Ok {A} a.
Arguments Erro {A} e.

#[global] Instance resultado_ret : MRet resultado := fun A a => Ok a.
#[global] Instance resultado_bind : MBind resultado := fun A B f m =>
  match m with
  | Ok a => f a
  | Erro e => Erro e
  end.
#[global] Instance resultado_fmap : FMap resultado := fun A B f m =>
  match m with
  | Ok a => Ok (f a)
  | Erro e => Erro e
  end.

(** Left-to-right monadic fold: the shape of a [for] loop that updates an
    accumulator and may raise. *)
Fixpoint foldM {A B : Type} (f : A -> B -> resultado A) (a : A) (l : list B)
  : resultado A :=
  match l with
  | [] => Ok a
  | b :: l' => a' ← f a b; foldM f a' l'
  end.

(** Comparisons of reals as booleans, for [if] conditions. *)
Definition Rlt_b (x y : R) : bool := if Rlt_dec x y then true else false.
Definition Rle_b (x y : R) : bool := if Rle_dec x y then true else false.

(** [x / y] with the zero denominator made visible. *)
Definition dividir (x y : R) : resultado R :=
  if Req_dec_T y 0 then Erro DivisaoPorZero else Ok (x / y).

(** [x ** y] for a base that is a sum of squares: [0 ** y] is [0] for a
    positive exponent, and a positive base has the usual real power. *)
Definition potencia (x y : R) : R :=
  if Rlt_dec 0 x then Rpower x y else 0.

(** [l[i]] read access. *)
Definition indexar {A : Type} (l : list A) (i : nat) : resultado A :=
  match l !! i with
  | Some x => Ok x
  | None => Erro IndexError
  end.

(** * The numpy functions the program calls *)

Module np.

Definition sum (l : list R) : R := foldr Rplus 0 l.

(** [np.linspace(start, stop, num)] for [num >= 2]:
    [start + i * (stop - start) / (num - 1)] for [i = 0 .. num-1]. *)
Definition linspace (start stop : R) (num : nat) : list R :=
  map (fun i : nat => start + INR i * ((stop - start) / INR (num - 1)))
      (seq 0 num).

Definition zeros_like (l : list R) : list R := map (fun _ => 0) l.

(** Elementwise [a + b] of two arrays of one shape. *)
Definition add (a b : list R) : list R := zip_with Rplus a b.

(** [np.mean]: the sum divided by the number of elements. *)
Definition mean (l : list R) : resultado R :=
  dividir (sum l) (INR (length l)).

(** [np.std]: [sqrt(mean(abs(x - x.mean())**2))] (population deviation). *)
Definition std (l : list R) : resultado R :=
  m ← mean l;
  v ← mean (map (fun x => Rabs (x - m) ^ 2) l);
  Ok (sqrt v).

(** [a.reshape((n, 3))]: ValueError unless the array has [n * 3] elements. *)
Fixpoint linhas3 (l : list R) : list (R * R * R) :=
  match l with
  | a :: b :: c :: l' => (a, b, c) :: linhas3 l'
  | _ => []
  end.

Definition reshape3 (l : list R) (n : nat) : resultado (list (R * R * R)) :=
  if decide (length l = n * 3)%nat then Ok (linhas3 l) else Erro ValueError.

(** [np.argmax]: index of the first occurrence of the maximum; ValueError
    on an empty sequence. *)
Fixpoint argmax_desde (l : list R) (i : nat) (melhor : nat) (vmelhor : R)
  : nat :=
  match l with
  | [] => melhor
  | x :: l' =>
      if Rlt_b vmelhor x then argmax_desde l' (S i) i x
      else argmax_desde l' (S i) melhor vmelhor
  end.

Definition argmax (l : list R) : resultado nat :=
  match l with
  | [] => Erro ValueError
  | x :: l' => Ok (argmax_desde l' 1 0 x)
  end.

End np.

(** * 1. Physical and algorithm parameters *)

Definition MU_0 : R := 4 * PI * 1e-7.

Definition NUM_BOBINAS : nat := 6.
Definition Z_AVALIACAO : list R := np.linspace (-1) 1 100.
Definition RAIO_MINIMO : R := 0.5.
Definition DISTANCIA_MIN_BOBINAS : R := 0.2.

(** The parameters of the evolutionary algorithm are module constants in the
    source; they are gathered in a record so that the operators can be
    studied at other values (rates 0.0 and 1.0, other population sizes). *)
Record parametros : Type := {
  TAMANHO_POPULACAO : nat;
  NUM_GERACOES : nat;
  TAXA_MUTACAO : R;
  TAXA_CRUZAMENTO : R;
  TAMANHO_TORNEIO : nat
}.

Definition parametros_fonte : parametros := {|
  TAMANHO_POPULACAO := 100;
  NUM_GERACOES := 250;
  TAXA_MUTACAO := 0.08;
  TAXA_CRUZAMENTO := 0.8;
  TAMANHO_TORNEIO := 3
|}.

(** The source's parameters with another mutation rate, another crossover
    rate, or another population and tournament size. *)
Definition com_taxa_mutacao (taxa : R) : parametros := {|
  TAMANHO_POPULACAO := 100;
  NUM_GERACOES := 250;
  TAXA_MUTACAO := taxa;
  TAXA_CRUZAMENTO := 0.8;
  TAMANHO_TORNEIO := 3
|}.

Definition com_populacao (tamanho torneio : nat) : parametros := {|
  TAMANHO_POPULACAO := tamanho;
  NUM_GERACOES := 250;
  TAXA_MUTACAO := 0.08;
  TAXA_CRUZAMENTO := 0.8;
  TAMANHO_TORNEIO := torneio
|}.

(** * 2. The fitness function *)

Definition bobina : Type := (R * R * R)%type.   (* raio, z_pos, corrente *)

(** Field of one ring on the Z axis, at one point [z]. *)
Definition calcular_campo_eixo_z (z raio z_bobina corrente : R) : resultado R :=
  dividir (MU_0 * corrente * raio ^ 2)
          (2 * potencia (raio ^ 2 + (z - z_bobina) ^ 2) (3 / 2)).

(** The same call on the array of evaluation points (numpy broadcasting). *)
Definition calcular_campo_eixo_z_vetor (zs : list R) (raio z_bobina corrente : R)
  : resultado (list R) :=
  mapM (fun z => calcular_campo_eixo_z z raio z_bobina corrente) zs.

(** Outcome of the loop over the coils: it runs to its end with the summed
    field, or leaves the function through [return -1e9]. *)
Inductive fluxo : Type :=
  | Continua (campo_total : list R)
  | Retorna (valor : R).

Fixpoint laco_bobinas (bobinas : list bobina) (campo_total : list R)
  : resultado fluxo :=
  match bobinas with
  | [] => Ok (Continua campo_total)
  | (raio, z_pos, corrente) :: resto =>
      if Rlt_b raio RAIO_MINIMO || Rle_b corrente 0 then Ok (Retorna (-1e9))
      else
        campo ← calcular_campo_eixo_z_vetor Z_AVALIACAO raio z_pos corrente;
        laco_bobinas resto (np.add campo_total campo)
  end.

(** The two nested [for] loops of the spacing penalty; [teste_par] is the
    body of the inner one. *)
Definition teste_par (posicoes_z : list R) (i : nat) (penalidade : Z) (j : nat)
  : resultado Z :=
  zi ← indexar posicoes_z i;
  zj ← indexar posicoes_z j;
  if Rlt_b (Rabs (zi - zj)) DISTANCIA_MIN_BOBINAS
  then Ok (penalidade + 5000)%Z
  else Ok penalidade.

Definition laco_penalidade (posicoes_z : list R) : resultado Z :=
  foldM (fun penalidade i =>
           foldM (teste_par posicoes_z i) penalidade
                 (seq (i + 1) (NUM_BOBINAS - (i + 1))))
        0%Z (seq 0 NUM_BOBINAS).

Definition calcular_aptidao (cromossomo : list R) : resultado R :=
  bobinas ← np.reshape3 cromossomo NUM_BOBINAS;
  saida ← laco_bobinas bobinas (np.zeros_like Z_AVALIACAO);
  match saida with
  | Retorna valor => Ok valor
  | Continua campo_total =>
      media_campo ← np.mean campo_total;
      desvio_padrao ← np.std campo_total;
      if Rlt_b media_campo 0.1 then Ok 0.1
      else
        coef_variacao ← dividir desvio_padrao media_campo;
        aptidao_uniformidade ← dividir 1 (coef_variacao + 1e-9);
        penalidade ← laco_penalidade (map (fun b : bobina => snd (fst b)) bobinas);
        Ok ((1.0 * media_campo) * (5.0 * aptidao_uniformidade) - IZR penalidade)
  end.

(** ** The fitness function on binary64

    The same two functions as numpy evaluates them.  No division raises:
    a zero denominator gives [inf] or [nan].  Comparisons with [nan] are
    false, so a [nan] gene passes the test of the loop over the coils. *)

Module F64.
Import PrimFloat.
#[local] Open Scope float_scope.
#[local] Set Warnings "-inexact-float".

(** Conversion of the integers of the program ([len], [range], the
    penalty) to float64; they are far below 2^53, so it is exact. *)
Definition de_nat (n : nat) : float := of_uint63 (Uint63.of_Z (Z.of_nat n)).
Definition de_Z (n : Z) : float := of_uint63 (Uint63.of_Z n).

(** [x ** 2] on an array is one multiplication per element.  The square of
    the scalar radius and the power 3/2 go through the C library's [pow],
    whose value at a finite argument is accurate to about the last bit but
    is not fixed by IEEE 754; [x * x] and [x * sqrt x] stand for them.  For
    a base that is a sum of squares they agree with [pow] where an argument
    is 0, [inf] or [nan] (pow(+0, 1.5) = +0, pow(+inf, 1.5) = +inf,
    pow(nan, 1.5) = nan) and where the exact result is far outside the range
    of the format (1e400 overflows to [inf], 1e-400 underflows to 0), which
    is all that the statements about this module depend on. *)
Definition quadrado (x : float) : float := x * x.
Definition potencia_3_2 (x : float) : float := x * sqrt x.

(** [np.add.reduce] on a contiguous array: the identity 0, to which the
    pairwise sum of the elements is added.  Up to 128 elements the pairwise
    sum keeps 8 running sums over blocks of 8, adds them two by two, then
    adds the elements left over; a longer array is split in two. *)
Fixpoint acumular8 (blocos : nat) (r resto : list float)
  : list float * list float :=
  match blocos with
  | O => (r, resto)
  | S b => acumular8 b (zip_with add r (take 8 resto)) (drop 8 resto)
  end.

Definition pairwise_bloco (l : list float) : float :=
  if decide (length l < 8)%nat then foldl add 0 l
  else
    let '(r, resto) := acumular8 (length l / 8 - 1) (take 8 l) (drop 8 l) in
    match r with
    | [r0; r1; r2; r3; r4; r5; r6; r7] =>
        foldl add (((r0 + r1) + (r2 + r3)) + ((r4 + r5) + (r6 + r7))) resto
    | _ => nan
    end.

Fixpoint pairwise_sum (fuel : nat) (l : list float) : float :=
  match fuel with
  | S fuel' =>
      if decide (length l <= 128)%nat then pairwise_bloco l
      else
        let n2 := (length l / 2 - (length l / 2) mod 8)%nat in
        pairwise_sum fuel' (take n2 l) + pairwise_sum fuel' (drop n2 l)
  | O => pairwise_bloco l
  end.

Definition sum (l : list float) : float := 0 + pairwise_sum (length l) l.

Definition mean (l : list float) : float := sum l / de_nat (length l).

(** [np.std]: the mean, the squares of the differences to it, their mean,
    the square root. *)
Definition std (l : list float) : float :=
  let arrmean := mean l in
  let x := map (fun a => a - arrmean) l in
  sqrt (sum (map (fun a => a * a) x) / de_nat (length l)).

(** [np.linspace(start, stop, num)] for [num >= 2]: [i * step + start] with
    [step = (stop - start) / (num - 1)], the last element set to [stop]. *)
Definition linspace (start stop : float) (num : nat) : list float :=
  let step := (stop - start) / de_nat (num - 1) in
  map (fun i : nat => if decide (i = num - 1)%nat then stop
                      else de_nat i * step + start)
      (seq 0 num).

Fixpoint linhas3 (l : list float) : list (float * float * float) :=
  match l with
  | a :: b :: c :: l' => (a, b, c) :: linhas3 l'
  | _ => []
  end.

Definition reshape3 (l : list float) (n : nat)
  : resultado (list (float * float * float)) :=
  if decide (length l = n * 3)%nat then Ok (linhas3 l) else Erro ValueError.

Definition pi : float := 3.141592653589793.   (* np.pi *)
Definition MU_0 : float := 4 * pi * 1e-7.
Definition Z_AVALIACAO : list float := linspace (-1) 1 100.
Definition RAIO_MINIMO : float := 0.5.
Definition DISTANCIA_MIN_BOBINAS : float := 0.2.

Definition calcular_campo_eixo_z (z raio z_bobina corrente : float) : float :=
  (MU_0 * corrente * quadrado raio)
  / (2 * potencia_3_2 (quadrado raio + quadrado (z - z_bobina))).

Inductive fluxo : Type :=
  | Continua (campo_total : list float)
  | Retorna (valor : float).

Fixpoint laco_bobinas (bobinas : list (float * float * float))
    (campo_total : list float) : fluxo :=
  match bobinas with
  | [] => Continua campo_total
  | (raio, z_pos, corrente) :: resto =>
      if (raio <? RAIO_MINIMO) || (corrente <=? 0) then Retorna (-1e9)
      else
        laco_bobinas resto
          (zip_with add campo_total
             (map (fun z => calcular_campo_eixo_z z raio z_pos corrente)
                  Z_AVALIACAO))
  end.

Definition teste_par (posicoes_z : list float) (i : nat) (penalidade : Z)
    (j : nat) : resultado Z :=
  zi ← indexar posicoes_z i;
  zj ← indexar posicoes_z j;
  if abs (zi - zj) <? DISTANCIA_MIN_BOBINAS
  then Ok (penalidade + 5000)%Z
  else Ok penalidade.

Definition laco_penalidade (posicoes_z : list float) : resultado Z :=
  foldM (fun penalidade i =>
           foldM (teste_par posicoes_z i) penalidade
                 (seq (i + 1) (NUM_BOBINAS - (i + 1))))
        0%Z (seq 0 NUM_BOBINAS).

Definition calcular_aptidao (cromossomo : list float) : resultado float :=
  bobinas ← reshape3 cromossomo NUM_BOBINAS;
  match laco_bobinas bobinas (map (fun _ => 0) Z_AVALIACAO) with
  | Retorna valor => Ok valor
  | Continua campo_total =>
      let media_campo := mean campo_total in
      let desvio_padrao := std campo_total in
      if media_campo <? 0.1 then Ok 0.1
      else
        let coef_variacao := desvio_padrao / media_campo in
        let aptidao_uniformidade := 1 / (coef_variacao + 1e-9) in
        penalidade ← laco_penalidade
                       (map (fun b : float * float * float => snd (fst b))
                            bobinas);
        Ok ((1.0 * media_campo) * (5.0 * aptidao_uniformidade)
            - de_Z penalidade)
  end.

End F64.

(** * The store of arrays and the random source

    Chromosomes are numpy arrays: [mutacao] updates its argument in place
    and [cruzamento] may return its arguments, so arrays are kept in a store
    and passed around by reference.  The ambient generator [np.random] is a
    tape of outcomes, consumed in program order; an outcome outside the
    support of the call that reads it does not describe a run. *)

Definition ref : Type := nat.

Inductive sorteio : Type :=
  | SRand (u : R)             (* np.random.rand() *)
  | SRandInt (k : nat)        (* np.random.randint(low, high) *)
  | SNormal (g : R)           (* the standard normal variate of np.random.normal *)
  | SChoice (l : list nat).   (* np.random.choice(n, k, replace=False) *)

Record mundo : Type := {
  arrays : list (list R);
  fita : list sorteio
}.

(** A program maps a world to [None] (the tape does not describe a run of
    the program) or to a result, normal or exceptional, and the world it
    leaves. *)
Definition prog (A : Type) : Type := mundo -> option (resultado A * mundo).

#[global] Instance prog_ret : MRet prog := fun A a w => Some (Ok a, w).
#[global] Instance prog_bind : MBind prog := fun A B f m w =>
  match m w with
  | Some (Ok a, w') => f a w'
  | Some (Erro e, w') => Some (Erro e, w')
  | None => None
  end.

Definition levantar {A : Type} (e : excecao) : prog A :=
  fun w => Some (Erro e, w).

Definition fora_do_suporte {A : Type} : prog A := fun _ => None.

(** A pure fallible computation inside a program. *)
Definition puro {A : Type} (r : resultado A) : prog A := fun w => Some (r, w).

(** A [for] loop run for its effects. *)
Fixpoint para {A : Type} (l : list A) (corpo : A -> prog unit) : prog unit :=
  match l with
  | [] => mret tt
  | x :: l' => _ ← corpo x; para l' corpo
  end.

(** ** Arrays *)

(** A freshly built array ([np.concatenate], [np.random.rand(n)]). *)
Definition novo (a : list R) : prog ref := fun w =>
  Some (Ok (length (arrays w)),
        {| arrays := arrays w ++ [a]; fita := fita w |}).

(** Reading through a reference; the references of the program always name
    an array of the store, so a dangling one describes no run. *)
Definition ler (r : ref) : prog (list R) := fun w =>
  match arrays w !! r with
  | Some a => Some (Ok a, w)
  | None => None
  end.

(** [a[i]] and [a[i] = v] on the array behind a reference. *)
Definition ler_item (r : ref) (i : nat) : prog R :=
  a ← ler r; puro (indexar a i).

Definition escrever_item (r : ref) (i : nat) (v : R) : prog unit := fun w =>
  match arrays w !! r with
  | Some a =>
      if decide (i < length a)%nat
      then Some (Ok tt, {| arrays := <[r := <[i := v]> a]> (arrays w);
                           fita := fita w |})
      else Some (Erro IndexError, w)
  | None => None
  end.

(** ** The generator *)

Definition sortear : prog sorteio := fun w =>
  match fita w with
  | [] => None
  | s :: resto => Some (Ok s, {| arrays := arrays w; fita := resto |})
  end.

(** [np.random.rand()]: uniform over [[0, 1)]. *)
Definition rand : prog R :=
  s ← sortear;
  match s with
  | SRand u => if Rle_b 0 u && Rlt_b u 1 then mret u else fora_do_suporte
  | _ => fora_do_suporte
  end.

(** [np.random.rand(n)]: an array of [n] such draws. *)
Fixpoint rand_vetor (n : nat) : prog (list R) :=
  match n with
  | O => mret []
  | S n' => u ← rand; us ← rand_vetor n'; mret (u :: us)
  end.

(** [np.random.randint(low, high)]: uniform over the integers of
    [[low, high)], the upper bound excluded; ValueError when [low >= high]. *)
Definition randint (low high : nat) : prog nat :=
  if decide (low < high)%nat then
    s ← sortear;
    match s with
    | SRandInt k =>
        if decide (low <= k < high)%nat then mret k else fora_do_suporte
    | _ => fora_do_suporte
    end
  else levantar ValueError.

(** [np.random.normal(loc, scale)]: numpy draws a standard normal variate
    [g] and returns [loc + scale * g].  The variate comes from the polar
    method on two uniform draws [x1], [x2] that are multiples of [2^-52]:
    it is [x2 * sqrt(-2 * log(r2) / r2)] with [r2 = x1^2 + x2^2] in
    [[2^-104, 1)], so its magnitude is at most [sqrt(208 * log 2)], which is
    below 12.01.  An outcome beyond that bound describes no run. *)
Definition LIMITE_GAUSS : R := 12.01.

Definition normal (loc scale : R) : prog R :=
  s ← sortear;
  match s with
  | SNormal g =>
      if Rle_b (Rabs g) LIMITE_GAUSS then mret (loc + scale * g)
      else fora_do_suporte
  | _ => fora_do_suporte
  end.

(** [np.random.choice(n, k, replace=False)]: [k] distinct indices below [n],
    in the order drawn; ValueError when [k > n]. *)
Definition choice (n k : nat) : prog (list nat) :=
  if decide (k <= n)%nat then
    s ← sortear;
    match s with
    | SChoice l =>
        if decide (length l = k /\ NoDup l /\ Forall (fun i => i < n)%nat l)
        then mret l else fora_do_suporte
    | _ => fora_do_suporte
    end
  else levantar ValueError.

(** ** Python's [max] *)

(** [max(l, key=key)]: the first element whose key is greatest (a later
    element replaces the current one only when its key is strictly greater);
    ValueError on an empty sequence. *)
Definition py_max_key {A : Type} (key : A -> resultado R) (l : list A)
  : resultado A :=
  match l with
  | [] => Erro ValueError
  | x :: l' =>
      kx ← key x;
      fst <$> foldM (fun (m : A * R) y =>
                       ky ← key y;
                       if Rlt_b (snd m) ky then Ok (y, ky) else Ok m)
                    (x, kx) l'
  end.

Definition py_max (l : list R) : resultado R := py_max_key Ok l.

(** * 3. Evolutionary operators *)

(** [a[inicio::3] = f(a[inicio::3])]. *)
Definition atribuir_fatia (inicio : nat) (f : R -> R) (a : list R) : list R :=
  imap (fun i x => if decide (inicio <= i /\ (i - inicio) mod 3 = 0)%nat
                   then f x else x) a.

Fixpoint laco_inicializar (n : nat) (populacao : list ref) : prog (list ref) :=
  match n with
  | O => mret populacao
  | S n' =>
      sorteados ← rand_vetor (NUM_BOBINAS * 3);
      let c0 := atribuir_fatia 0 (fun x => x * (2.0 - RAIO_MINIMO) + RAIO_MINIMO)
                               sorteados in
      let c1 := atribuir_fatia 1 (fun x => x * 4 - 2) c0 in
      let c2 := atribuir_fatia 2 (fun x => x * 9e6 + 1e6) c1 in
      cromossomo ← novo c2;
      laco_inicializar n' (populacao ++ [cromossomo])
  end.

Definition inicializar_populacao (cfg : parametros) : prog (list ref) :=
  laco_inicializar (TAMANHO_POPULACAO cfg) [].

Definition selecao (cfg : parametros) (populacao : list ref) (aptidoes : list R)
  : prog ref :=
  selecionados ← choice (length populacao) (TAMANHO_TORNEIO cfg);
  melhor_idx ← puro (py_max_key (fun i => indexar aptidoes i) selecionados);
  puro (indexar populacao melhor_idx).

Definition cruzamento (cfg : parametros) (pai1 pai2 : ref) : prog (ref * ref) :=
  u ← rand;
  if Rlt_b u (TAXA_CRUZAMENTO cfg) then
    p1 ← ler pai1;
    p2 ← ler pai2;
    ponto ← randint 1 (length p1 - 1);
    filho1 ← novo (take ponto p1 ++ drop ponto p2);
    filho2 ← novo (take ponto p2 ++ drop ponto p1);
    mret (filho1, filho2)
  else mret (pai1, pai2).

(** The body of the loop of [mutacao], for gene [i]. *)
Definition passo_mutacao (cfg : parametros) (cromossomo : ref) (i : nat)
  : prog unit :=
  u ← rand;
  if Rlt_b u (TAXA_MUTACAO cfg) then
    x ← ler_item cromossomo i;
    g ← normal 0 0.2;
    _ ← escrever_item cromossomo i (x + g);
    x' ← ler_item cromossomo i;
    if bool_decide (i mod 3 = 0)%nat && Rlt_b x' RAIO_MINIMO
    then escrever_item cromossomo i RAIO_MINIMO
    else mret tt
  else mret tt.

Definition mutacao (cfg : parametros) (cromossomo : ref) : prog ref :=
  c ← ler cromossomo;
  _ ← para (seq 0 (length c)) (passo_mutacao cfg cromossomo);
  mret cromossomo.

(** * 4. The main loop *)

(** [[calcular_aptidao(ind) for ind in populacao]]. *)
Definition avaliar (populacao : list ref) : prog (list R) :=
  mapM (fun ind => c ← ler ind; puro (calcular_aptidao c)) populacao.

(** The body of the inner loop: two parents, two children, both mutated and
    appended to the new population. *)
Definition reproduzir_par (cfg : parametros) (populacao : list ref)
    (aptidoes : list R) (nova_populacao : list ref) : prog (list ref) :=
  pai1 ← selecao cfg populacao aptidoes;
  pai2 ← selecao cfg populacao aptidoes;
  filhos ← cruzamento cfg pai1 pai2;
  m1 ← mutacao cfg (fst filhos);
  m2 ← mutacao cfg (snd filhos);
  mret (nova_populacao ++ [m1] ++ [m2]).

Fixpoint laco_reproduzir (cfg : parametros) (n : nat) (populacao : list ref)
    (aptidoes : list R) (nova_populacao : list ref) : prog (list ref) :=
  match n with
  | O => mret nova_populacao
  | S n' =>
      nova ← reproduzir_par cfg populacao aptidoes nova_populacao;
      laco_reproduzir cfg n' populacao aptidoes nova
  end.

(** One turn of the loop over the generations; [geracao] is the loop index.
    The progress line evaluates [max(aptidoes)] every 25 generations. *)
Definition passo_geracao (cfg : parametros) (geracao : nat)
    (populacao : list ref) : prog (list ref) :=
  aptidoes ← avaliar populacao;
  nova_populacao ←
    laco_reproduzir cfg (TAMANHO_POPULACAO cfg / 2) populacao aptidoes [];
  _ ← (if decide ((geracao + 1) mod 25 = 0)%nat
       then _ ← puro (py_max aptidoes); mret tt
       else mret tt);
  mret nova_populacao.

Fixpoint laco_geracoes (cfg : parametros) (geracoes : list nat)
    (populacao : list ref) : prog (list ref) :=
  match geracoes with
  | [] => mret populacao
  | geracao :: resto =>
      nova ← passo_geracao cfg geracao populacao;
      laco_geracoes cfg resto nova
  end.

(** [populacao[np.argmax(aptidoes_finais)]]. *)
Definition escolher_melhor (populacao : list ref) (aptidoes_finais : list R)
  : resultado ref :=
  melhor ← np.argmax aptidoes_finais;
  indexar populacao melhor.

(** The whole script up to the choice of the best individual. *)
Definition principal (cfg : parametros) : prog ref :=
  populacao ← inicializar_populacao cfg;
  populacao ← laco_geracoes cfg (seq 0 (NUM_GERACOES cfg)) populacao;
  aptidoes_finais ← avaliar populacao;
  puro (escolher_melhor populacao aptidoes_finais).

(** * Definitions used to state the properties

    Nothing below is part of the program: these are the mathematical
    counterparts of its computations, the predicates of the statements, and
    the chromosomes and tapes of the examples. *)

(** ** Fitness *)

(** The penalty as the specification words it: 5000 for each unordered pair
    of coils closer than the minimum spacing. *)
Definition pares_nao_ordenados (n : nat) : list (nat * nat) :=
  List.filter (fun p => (fst p <? snd p)%nat) (list_prod (seq 0 n) (seq 0 n)).

Definition viola_espacamento (posicoes_z : list R) (p : nat * nat) : bool :=
  Rlt_b (Rabs (nth (fst p) posicoes_z 0 - nth (snd p) posicoes_z 0))
        DISTANCIA_MIN_BOBINAS.

Definition pares_violando (posicoes_z : list R) : nat :=
  length (List.filter (viola_espacamento posicoes_z)
                      (pares_nao_ordenados NUM_BOBINAS)).

(** The on-axis field of a ring as a real number (radius not zero). *)
Definition campo (z raio z_bobina corrente : R) : R :=
  MU_0 * corrente * raio ^ 2
  / (2 * Rpower (raio ^ 2 + (z - z_bobina) ^ 2) (3 / 2)).

(** Genes of coil [k] of a flat chromosome. *)
Definition raio_de (c : list R) (k : nat) : R := nth (3 * k) c 0.
Definition posicao_de (c : list R) (k : nat) : R := nth (3 * k + 1) c 0.
Definition corrente_de (c : list R) (k : nat) : R := nth (3 * k + 2) c 0.

Definition posicoes_de (c : list R) : list R :=
  map (posicao_de c) (seq 0 NUM_BOBINAS).

(** A structurally valid chromosome: [NUM_BOBINAS] coils, each with radius
    at least the minimum and positive current. *)
Definition estruturalmente_valido (c : list R) : Prop :=
  length c = (3 * NUM_BOBINAS)%nat /\
  forall k, (k < NUM_BOBINAS)%nat ->
    RAIO_MINIMO <= raio_de c k /\ 0 < corrente_de c k.

(** The field profile: at each evaluation point, the sum of the
    contributions of all coils. *)
Definition perfil_campo (c : list R) : list R :=
  map (fun z =>
         np.sum (map (fun k => campo z (raio_de c k) (posicao_de c k)
                                     (corrente_de c k))
                     (seq 0 NUM_BOBINAS)))
      Z_AVALIACAO.

(** Arithmetic mean and population standard deviation. *)
Definition media (l : list R) : R := np.sum l / INR (length l).

Definition desvio (l : list R) : R :=
  sqrt (media (map (fun x => (x - media l) ^ 2) l)).

(** A coil passes the test of the loop over the coils. *)
Definition bobina_valida (b : bobina) : Prop :=
  RAIO_MINIMO <= fst (fst b) /\ 0 < snd b.

(** Coil [k] of a flat chromosome, and its field at a point. *)
Definition bobina_de (c : list R) (k : nat) : bobina :=
  (raio_de c k, posicao_de c k, corrente_de c k).

Definition campo_da_bobina (b : bobina) (z : R) : R :=
  campo z (fst (fst b)) (snd (fst b)) (snd b).

(** The value computed after the loop over the coils, as a function of the
    mean and deviation of the profile and of the number of violating pairs. *)
Definition aptidao_de (m d : R) (violacoes : nat) : R :=
  if Rlt_b m 0.1 then 0.1
  else (1.0 * m) * (5.0 * (1 / (d / m + 1e-9)))
       - IZR (5000 * Z.of_nat violacoes).

(** ** Sample chromosomes *)

(** Six weak coils at one position; six strong coils 0.4 apart; the same
    with the current of the third coil set to zero. *)
Definition c_fraco : list R :=
  [1; 0; 1;  1; 0; 1;  1; 0; 1;  1; 0; 1;  1; 0; 1;  1; 0; 1].

Definition c_forte : list R :=
  [1; -1; 1e7;  1; -0.6; 1e7;  1; -0.2; 1e7;
   1; 0.2; 1e7;  1; 0.6; 1e7;  1; 1; 1e7].

Definition c_corrente_nula : list R :=
  [1; -1; 1e7;  1; -0.6; 1e7;  1; -0.2; 0;
   1; 0.2; 1e7;  1; 0.6; 1e7;  1; 1; 1e7].

(** ** Chromosomes of float64 genes

    Structural validity on float64 genes (every radius at least 0.5, every
    current positive), and three valid chromosomes outside the domain:
    [c_forte] with the radius of its first coil set to 1e200, whose square
    is beyond the largest float64; a first coil of radius 1e4 carrying
    1e308, whose field overflows; six coils stacked at one position and
    carrying 1e308. *)
Module Exemplos64.
Import PrimFloat.
#[local] Open Scope float_scope.
#[local] Set Warnings "-inexact-float".

Definition sentinela : float := -1e9.

Definition estruturalmente_valido (c : list float) : bool :=
  bool_decide (length c = 3 * NUM_BOBINAS)%nat &&
  forallb (fun b : float * float * float =>
             (F64.RAIO_MINIMO <=? fst (fst b)) && (0 <? snd b))
          (F64.linhas3 c).

Definition c_raio_enorme : list float :=
  [1e200; -1; 1e7;  1; -0.6; 1e7;  1; -0.2; 1e7;
   1; 0.2; 1e7;  1; 0.6; 1e7;  1; 1; 1e7].

Definition c_corrente_enorme : list float :=
  [1e4; -1; 1e308;  1; -0.6; 1;  1; -0.2; 1;
   1; 0.2; 1;  1; 0.6; 1;  1; 1; 1].

Definition c_empilhado : list float :=
  [0.5; 0; 1e308;  0.5; 0; 1e308;  0.5; 0; 1e308;
   0.5; 0; 1e308;  0.5; 0; 1e308;  0.5; 0; 1e308].

Definition menos_75000 : float := -75000.

(** Inside the domain: [c_forte], and six coils of the least radius stacked
    at one position and carrying 1e100, the strongest field of the domain. *)
Definition c_forte : list float :=
  [1; -1; 1e7;  1; -0.6; 1e7;  1; -0.2; 1e7;
   1; 0.2; 1e7;  1; 0.6; 1e7;  1; 1; 1e7].

Definition c_canto : list float :=
  [0.5; 0; 1e100;  0.5; 0; 1e100;  0.5; 0; 1e100;
   0.5; 0; 1e100;  0.5; 0; 1e100;  0.5; 0; 1e100].

Definition finito_acima_do_piso (r : resultado float) : bool :=
  match r with
  | Ok v => is_finite v && (menos_75000 <? v) && (v <? 1e105)
  | Erro _ => false
  end.

(** The test of the loop over the coils, and a chromosome that fails it at
    its second coil (current 0) after a first coil of radius 1e200. *)
Definition bobina_recusada (b : float * float * float) : bool :=
  (fst (fst b) <? F64.RAIO_MINIMO) || (snd b <=? 0).

(** The squared radius of a coil overflows. *)
Definition transborda (b : float * float * float) : Prop :=
  F64.quadrado (fst (fst b)) = infinity.

Definition c_recusado : list float :=
  [1e200; -1; 1e7;  1; -0.6; 0;  1; -0.2; 1e7;
   1; 0.2; 1e7;  1; 0.6; 1e7;  1; 1; 1e7].

End Exemplos64.

(** The domain on which the exact-arithmetic reading is used for the value
    of a fitness: every gene at most 1e100 in magnitude.  There the squares
    are at most 1e200, the powers 3/2 at most 3e300, the fields of valid
    coils at most 1.3e94 and their squares at most 1e190: the float64
    computation meets neither [inf] nor [nan]. *)
Definition LIMITE_GENES : R := 1e100.

Definition genes_limitados (c : list R) : Prop :=
  Forall (fun x => Rabs x <= LIMITE_GENES) c.

(** ** Operators *)

(** The support of [np.random.rand()], and of the standard normal variate
    behind [np.random.normal]. *)
Definition em_0_1 (u : R) : Prop := 0 <= u < 1.

Definition suporte_normal (g : R) : Prop := Rabs g <= LIMITE_GAUSS.

(** In a sequence [l], [m] is the first element whose key is greatest:
    the keys before it are strictly smaller, those after it are not greater. *)
Definition primeiro_maximo {A : Type} (k : A -> R) (l : list A) (m : A)
    (antes depois : list A) : Prop :=
  l = antes ++ m :: depois /\
  Forall (fun y => k y < k m) antes /\
  Forall (fun y => k y <= k m) depois.

(** The value of gene [i] after the noise [g] is added to it: a radius gene
    (index a multiple of 3) that falls below the minimum is set to it. *)
Definition gene_mutado (i : nat) (x g : R) : R :=
  if bool_decide (i mod 3 = 0)%nat && Rlt_b (x + g) RAIO_MINIMO
  then RAIO_MINIMO else x + g.

(** The loop of [mutacao] seen from the tape: the genes from index [i] on
    and the tape that is left, when the tape describes a run.  The noise
    added to a gene is [0 + 0.2 * g] for the standard variate [g] read from
    the tape. *)
Fixpoint consumir_mutacao (taxa : R) (i : nat) (genes : list R)
    (t : list sorteio) : option (list R * list sorteio) :=
  match genes with
  | [] => Some ([], t)
  | x :: resto =>
      match t with
      | SRand u :: t1 =>
          if Rle_b 0 u && Rlt_b u 1 then
            if Rlt_b u taxa then
              match t1 with
              | SNormal g :: t2 =>
                  if Rle_b (Rabs g) LIMITE_GAUSS then
                    match consumir_mutacao taxa (S i) resto t2 with
                    | Some (resto', t') =>
                        Some (gene_mutado i x (0 + 0.2 * g) :: resto', t')
                    | None => None
                    end
                  else None
              | _ => None
              end
            else
              match consumir_mutacao taxa (S i) resto t1 with
              | Some (resto', t') => Some (x :: resto', t')
              | None => None
              end
          else None
      | _ => None
      end
  end.

(** The fitness of a chromosome as a number (0 where the evaluation
    raises, which it does not on 18 genes). *)
Definition aptidao_valor (c : list R) : R :=
  match calcular_aptidao c with
  | Ok v => v
  | Erro _ => 0
  end.

(** The chromosome built by [inicializar_populacao] when every draw of
    [np.random.rand] is 0: every coil has the least radius, position and
    current of the sampled ranges. *)
Definition c_inicial : list R :=
  [0.5; -2; 1e6;  0.5; -2; 1e6;  0.5; -2; 1e6;
   0.5; -2; 1e6;  0.5; -2; 1e6;  0.5; -2; 1e6].

(** Reference [r] names a chromosome of 18 genes in the store [a]. *)
Definition cromossomo_em (a : list (list R)) (r : ref) : Prop :=
  exists c, a !! r = Some c /\ length c = (3 * NUM_BOBINAS)%nat.

(** The tape on which [np.random.rand] gives 0 for the [n] chromosomes of
    an initial population. *)
Definition fita_sorteio_nulo (n : nat) : list sorteio :=
  concat (replicate n (map SRand (replicate (NUM_BOBINAS * 3) 0))).

(** Draws of one turn of the inner loop in which the crossover is skipped
    (0.9 is not below 0.8) and no gene of either child is mutated (0.5 is
    not below 0.08): two tournaments, the crossover coin, 18 + 18 coins. *)
Definition fita_par_sem_mudanca (torneio1 torneio2 : list nat) : list sorteio :=
  [SChoice torneio1; SChoice torneio2; SRand 0.9]
  ++ map SRand (replicate 18 0.5) ++ map SRand (replicate 18 0.5).

(** The same with the first gene of the first child perturbed by 0.3, the
    noise of scale 0.2 for the standard variate 1.5. *)
Definition fita_par_muta_gene_0 (torneio1 torneio2 : list nat) : list sorteio :=
  [SChoice torneio1; SChoice torneio2; SRand 0.9; SRand 0; SNormal 1.5]
  ++ map SRand (replicate 17 0.5) ++ map SRand (replicate 18 0.5).

(** The tape read by a mutation that perturbs every gene: for each gene a
    uniform draw, then the standard normal variate of its noise. *)
Definition fita_mutacao_total (us gs : list R) : list sorteio :=
  flat_map (fun p : R * R => [SRand (fst p); SNormal (snd p)]) (zip us gs).

(** ** Runs and invariants *)

(** Every run of [m] from [w] ends normally, with a value and a world that
    satisfy [Q] (nothing is said when the tape describes no run). *)
Definition sempre {A : Type} (m : prog A) (w : mundo)
    (Q : A -> mundo -> Prop) : Prop :=
  forall r w', m w = Some (r, w') -> exists a, r = Ok a /\ Q a w'.

(** The radius genes (indices that are multiples of 3) are at least the
    minimum radius. *)
Definition raios_ok (c : list R) : Prop :=
  forall i x, c !! i = Some x -> (i mod 3 = 0)%nat -> RAIO_MINIMO <= x.

(** An array of the store is a chromosome of 18 genes with valid radii. *)
Definition cromossomo_ok (c : list R) : Prop :=
  length c = (3 * NUM_BOBINAS)%nat /\ raios_ok c.

Definition arrays_ok (a : list (list R)) : Prop := Forall cromossomo_ok a.

(** Every reference of a population names an array of the store. *)
Definition refs_ok (a : list (list R)) (populacao : list ref) : Prop :=
  Forall (fun r => r < length a)%nat populacao.

(** The ranges sampled by [inicializar_populacao]. *)
Definition nos_limites_iniciais (c : list R) : Prop :=
  forall k, (k < NUM_BOBINAS)%nat ->
    RAIO_MINIMO <= raio_de c k < 2.0 /\
    -2 <= posicao_de c k < 2 /\
    1e6 <= corrente_de c k < 1e7.

(** The largest change that one mutation makes to a gene: the noise
    [0 + 0.2 * g] for a variate of the support. *)
Definition DESVIO_MAXIMO : R := 0.2 * LIMITE_GAUSS.

(** Gene [i] of a chromosome is within the sampled range of its kind
    (radius, position, current), widened by [k] times the largest noise; a
    radius never goes below the minimum, to which [mutacao] brings it back. *)
Definition gene_dentro (k i : nat) (x : R) : Prop :=
  if decide (i mod 3 = 0)%nat
  then RAIO_MINIMO <= x <= 2.0 + DESVIO_MAXIMO * INR k
  else if decide (i mod 3 = 1)%nat
  then -2 - DESVIO_MAXIMO * INR k <= x <= 2 + DESVIO_MAXIMO * INR k
  else 1e6 - DESVIO_MAXIMO * INR k <= x <= 1e7 + DESVIO_MAXIMO * INR k.

Definition cromossomo_dentro (k : nat) (c : list R) : Prop :=
  length c = (3 * NUM_BOBINAS)%nat /\
  forall i x, c !! i = Some x -> gene_dentro k i x.

(** The store after at most [k] calls of [mutacao]. *)
Definition arrays_dentro (k : nat) (a : list (list R)) : Prop :=
  Forall (cromossomo_dentro k) a.

(** The populations met in a run where nothing changes: at least 3
    references below [n], the first of which is 0. *)
Definition parada (n : nat) (populacao : list ref) : Prop :=
  Forall (fun r => r < n)%nat populacao /\
  (3 <= length populacao)%nat /\
  populacao !! 0%nat = Some 0%nat.

(** The tape of a whole run of the script in which every initial draw is 0
    and no generation crosses or mutates anything. *)
Definition fita_geracao_parada (pares : nat) : list sorteio :=
  concat (replicate pares (fita_par_sem_mudanca [0; 1; 2]%nat [0; 1; 2]%nat)).

Definition fita_execucao_parada (cfg : parametros) : list sorteio :=
  fita_sorteio_nulo (TAMANHO_POPULACAO cfg)
  ++ concat (replicate (NUM_GERACOES cfg)
               (fita_geracao_parada (TAMANHO_POPULACAO cfg / 2))).

(** * Properties of the fitness function *)

(** ** Booleans, division, sums *)

Lemma Rlt_b_true x y : x < y -> Rlt_b x y = true.
Proof. intros H. unfold Rlt_b. destruct (Rlt_dec x y); [reflexivity | lra]. Qed.

Lemma Rlt_b_false x y : y <= x -> Rlt_b x y = false.
Proof. intros H. unfold Rlt_b. destruct (Rlt_dec x y); [lra | reflexivity]. Qed.

Lemma Rle_b_true x y : x <= y -> Rle_b x y = true.
Proof. intros H. unfold Rle_b. destruct (Rle_dec x y); [reflexivity | lra]. Qed.

Lemma Rle_b_false x y : y < x -> Rle_b x y = false.
Proof. intros H. unfold Rle_b. destruct (Rle_dec x y); [lra | reflexivity]. Qed.

Lemma Rlt_b_spec x y : reflect (x < y) (Rlt_b x y).
Proof.
  unfold Rlt_b. destruct (Rlt_dec x y); constructor; assumption.
Qed.

Lemma Rle_b_spec x y : reflect (x <= y) (Rle_b x y).
Proof.
  unfold Rle_b. destruct (Rle_dec x y); constructor; assumption.
Qed.

Lemma dividir_ok x y : y <> 0 -> dividir x y = Ok (x / y).
Proof.
  intros H. unfold dividir. destruct (Req_dec_T y 0); [contradiction | reflexivity].
Qed.

Lemma INR_length_neq_0 {A} (l : list A) : l <> [] -> INR (length l) <> 0.
Proof.
  intros H. destruct l as [|a l]; [contradiction|].
  apply not_0_INR. simpl. lia.
Qed.

Lemma mean_ok l : l <> [] -> np.mean l = Ok (media l).
Proof.
  intros H. unfold np.mean, media. apply dividir_ok. now apply INR_length_neq_0.
Qed.

Lemma std_ok l : l <> [] -> np.std l = Ok (desvio l).
Proof.
  intros H. unfold np.std. rewrite (mean_ok l H). simpl.
  rewrite mean_ok.
  - simpl. unfold desvio. do 3 f_equal. apply map_ext. intros x.
    apply pow2_abs.
  - destruct l; [contradiction | discriminate].
Qed.

Lemma sum_bounds (a b : R) l :
  Forall (fun x => a <= x <= b) l ->
  INR (length l) * a <= np.sum l <= INR (length l) * b.
Proof.
  induction 1 as [|x l Hx Hl IH].
  - simpl. lra.
  - change (np.sum (x :: l)) with (x + np.sum l).
    change (length (x :: l)) with (S (length l)). rewrite S_INR. lra.
Qed.

Lemma media_bounds (a b : R) l :
  l <> [] -> Forall (fun x => a <= x <= b) l -> a <= media l <= b.
Proof.
  intros Hne Hl. pose proof (sum_bounds a b l Hl) as [H1 H2].
  assert (Hn : 0 < INR (length l)).
  { destruct l; [contradiction|]. apply lt_0_INR. simpl. lia. }
  unfold media, Rdiv. split.
  - apply Rmult_le_reg_r with (INR (length l)); [assumption|].
    rewrite Rmult_assoc, Rinv_l by lra. lra.
  - apply Rmult_le_reg_r with (INR (length l)); [assumption|].
    rewrite Rmult_assoc, Rinv_l by lra. lra.
Qed.

Lemma desvio_nonneg l : 0 <= desvio l.
Proof. apply sqrt_pos. Qed.

(** The mean of an empty array has a zero denominator: an evaluation axis
    with no sample is met only when a fitness is computed. *)
Example mean_de_eixo_vazio : np.mean (np.linspace (-1) 1 0) = Erro DivisaoPorZero.
Proof.
  unfold np.mean, dividir. simpl.
  destruct (Req_dec_T 0 0); [reflexivity | contradiction].
Qed.

(** ** The evaluation axis *)

Lemma INR_99 : INR (100 - 1) = 99.
Proof. rewrite INR_IZR_INZ. reflexivity. Qed.

Lemma Z_AVALIACAO_length : length Z_AVALIACAO = 100%nat.
Proof. unfold Z_AVALIACAO, np.linspace. now rewrite length_map, length_seq. Qed.

Lemma Z_AVALIACAO_nonempty : Z_AVALIACAO <> [].
Proof. intros H. pose proof Z_AVALIACAO_length as E. rewrite H in E. discriminate. Qed.

Lemma Z_AVALIACAO_range : Forall (fun z => -1 <= z <= 1) Z_AVALIACAO.
Proof.
  unfold Z_AVALIACAO, np.linspace. rewrite Forall_map, Forall_forall.
  intros i Hi. apply elem_of_seq in Hi. rewrite INR_99.
  assert (H0 : 0 <= INR i) by apply pos_INR.
  assert (H1 : INR i <= 99).
  { rewrite <- INR_99. apply le_INR. lia. }
  simpl. lra.
Qed.

(** ** The field of one coil *)

Lemma base_pos raio d : 0 < raio -> 0 < raio ^ 2 + d ^ 2.
Proof. intros H. nra. Qed.

Lemma base_ge_1 raio d : 1 <= raio -> 1 <= raio ^ 2 + d ^ 2.
Proof.
  intros H. pose proof (pow2_ge_0 d).
  assert (1 <= raio ^ 2).
  { replace 1 with (1 ^ 2) by lra. apply pow_incr. lra. }
  lra.
Qed.

Lemma MU_0_numerador_nonneg corrente raio :
  0 <= corrente -> 0 <= MU_0 * corrente * raio ^ 2.
Proof.
  intros Hi. pose proof PI_RGT_0. pose proof (pow2_ge_0 raio).
  unfold MU_0. apply Rmult_le_pos; [|assumption]. apply Rmult_le_pos; lra.
Qed.

Lemma potencia_pos x y : 0 < x -> potencia x y = Rpower x y.
Proof. intros H. unfold potencia. destruct (Rlt_dec 0 x); [reflexivity | lra]. Qed.

Lemma Rpower_pos x y : 0 < Rpower x y.
Proof. unfold Rpower. apply exp_pos. Qed.

Lemma campo_ok z raio z_bobina corrente :
  0 < raio ->
  calcular_campo_eixo_z z raio z_bobina corrente
  = Ok (campo z raio z_bobina corrente).
Proof.
  intros H. unfold calcular_campo_eixo_z, campo.
  rewrite potencia_pos by now apply base_pos.
  apply dividir_ok.
  pose proof (Rpower_pos (raio ^ 2 + (z - z_bobina) ^ 2) (3 / 2)). lra.
Qed.

Lemma campo_vetor_ok zs raio z_bobina corrente :
  0 < raio ->
  calcular_campo_eixo_z_vetor zs raio z_bobina corrente
  = Ok (map (fun z => campo z raio z_bobina corrente) zs).
Proof.
  intros H. unfold calcular_campo_eixo_z_vetor.
  induction zs as [|z zs IH]; [reflexivity|].
  simpl. rewrite campo_ok by assumption. simpl. rewrite IH. reflexivity.
Qed.

Lemma campo_pos z raio z_bobina corrente :
  0 < raio -> 0 < corrente -> 0 < campo z raio z_bobina corrente.
Proof.
  intros Hr Hi. unfold campo.
  pose proof (Rpower_pos (raio ^ 2 + (z - z_bobina) ^ 2) (3 / 2)).
  pose proof PI_RGT_0.
  apply Rdiv_lt_0_compat; [|lra].
  unfold MU_0. apply Rmult_lt_0_compat; [|nra].
  apply Rmult_lt_0_compat; lra.
Qed.

Lemma Rpower_1_base y : Rpower 1 y = 1.
Proof. unfold Rpower. rewrite ln_1, Rmult_0_r. apply exp_0. Qed.

(** For a base of at least 1 the power 3/2 lies between 1 and the square. *)
Lemma Rpower_32_bounds x : 1 <= x -> 1 <= Rpower x (3 / 2) <= x ^ 2.
Proof.
  intros H. split.
  - rewrite <- (Rpower_1_base (3 / 2)). apply Rle_Rpower_l; lra.
  - replace (x ^ 2) with (Rpower x (INR 2)) by (apply Rpower_pow; lra).
    apply Rle_Rpower; [assumption|].
    replace (INR 2) with 2 by (rewrite INR_IZR_INZ; reflexivity). lra.
Qed.

Lemma Rpower_quadrado_32 raio : 0 < raio -> Rpower (raio ^ 2) (3 / 2) = raio ^ 3.
Proof.
  intros H.
  replace (raio ^ 2) with (Rpower raio (INR 2)) by (apply Rpower_pow; exact H).
  rewrite Rpower_mult.
  assert (E2 : INR 2 = 2) by (rewrite INR_IZR_INZ; reflexivity).
  assert (E3 : INR 3 = 3) by (rewrite INR_IZR_INZ; reflexivity).
  replace (INR 2 * (3 / 2)) with (INR 3) by (rewrite E2, E3; lra).
  apply Rpower_pow. exact H.
Qed.

(** The field is greatest in the plane of the coil, where it is
    [MU_0 * I / (2 * raio)]. *)
Lemma campo_le_plano z raio z_bobina corrente :
  0 < raio -> 0 <= corrente ->
  campo z raio z_bobina corrente <= MU_0 * corrente / (2 * raio).
Proof.
  intros Hr Hi.
  assert (Hp : raio ^ 3 <= Rpower (raio ^ 2 + (z - z_bobina) ^ 2) (3 / 2)).
  { rewrite <- Rpower_quadrado_32 by exact Hr.
    pose proof (pow2_ge_0 (z - z_bobina)).
    apply Rle_Rpower_l; [lra|]. split; [nra | lra]. }
  assert (H3 : 0 < raio ^ 3) by (repeat apply Rmult_lt_0_compat; lra).
  pose proof (MU_0_numerador_nonneg corrente raio Hi) as Hn.
  replace (MU_0 * corrente / (2 * raio))
    with (MU_0 * corrente * raio ^ 2 / (2 * raio ^ 3)) by (field; lra).
  unfold campo, Rdiv. apply Rmult_le_compat_l; [assumption|].
  apply Rinv_le_contravar; lra.
Qed.

Lemma campo_le z raio z_bobina corrente :
  1 <= raio -> 0 <= corrente ->
  campo z raio z_bobina corrente <= MU_0 * corrente * raio ^ 2 / 2.
Proof.
  intros Hr Hi. unfold campo.
  assert (Hb : 1 <= raio ^ 2 + (z - z_bobina) ^ 2) by now apply base_ge_1.
  pose proof (Rpower_32_bounds _ Hb) as [Hp _].
  pose proof (MU_0_numerador_nonneg corrente raio Hi) as Hn.
  unfold Rdiv. apply Rmult_le_compat_l; [assumption|].
  apply Rinv_le_contravar; lra.
Qed.

Lemma campo_ge z raio z_bobina corrente D :
  1 <= raio -> 0 <= corrente -> (z - z_bobina) ^ 2 <= D ->
  MU_0 * corrente * raio ^ 2 / (2 * (raio ^ 2 + D) ^ 2)
  <= campo z raio z_bobina corrente.
Proof.
  intros Hr Hi HD. unfold campo.
  assert (Hb : 1 <= raio ^ 2 + (z - z_bobina) ^ 2) by now apply base_ge_1.
  pose proof (Rpower_32_bounds _ Hb) as [Hp1 Hp2].
  pose proof (MU_0_numerador_nonneg corrente raio Hi) as Hn.
  assert (Hsq : (raio ^ 2 + (z - z_bobina) ^ 2) ^ 2 <= (raio ^ 2 + D) ^ 2).
  { apply pow_incr. lra. }
  unfold Rdiv. apply Rmult_le_compat_l; [assumption|].
  apply Rinv_le_contravar; lra.
Qed.

(** ** Reshaping a flat chromosome *)

Lemma linhas3_seq n : forall c,
  length c = (3 * n)%nat -> np.linhas3 c = map (bobina_de c) (seq 0 n).
Proof.
  induction n as [|n IH]; intros c Hc.
  - destruct c; [reflexivity | discriminate].
  - destruct c as [|a [|b [|d c']]]; simpl in Hc; try lia.
    change (np.linhas3 (a :: b :: d :: c')) with ((a, b, d) :: np.linhas3 c').
    rewrite IH by lia.
    change (seq 0 (S n)) with (0%nat :: seq 1 n).
    rewrite <- seq_shift. simpl map. f_equal.
    rewrite map_map. apply map_ext. intros k.
    unfold bobina_de, raio_de, posicao_de, corrente_de.
    replace (3 * S k)%nat with (S (S (S (3 * k)))) by lia.
    reflexivity.
Qed.

Lemma reshape3_ok c :
  length c = (3 * NUM_BOBINAS)%nat ->
  np.reshape3 c NUM_BOBINAS = Ok (map (bobina_de c) (seq 0 NUM_BOBINAS)).
Proof.
  intros Hc. unfold np.reshape3.
  destruct (decide (length c = (NUM_BOBINAS * 3)%nat)) as [_|Hn]; [|lia].
  now rewrite linhas3_seq with (n := NUM_BOBINAS).
Qed.

(** ** The loop over the coils *)

Lemma teste_bobina (b : bobina) :
  Rlt_b (fst (fst b)) RAIO_MINIMO || Rle_b (snd b) 0 = false <-> bobina_valida b.
Proof.
  unfold bobina_valida. rewrite orb_false_iff.
  destruct (Rlt_b_spec (fst (fst b)) RAIO_MINIMO), (Rle_b_spec (snd b) 0);
    split; intros [? ?]; try discriminate; try lra; split; (reflexivity || lra).
Qed.

Lemma raio_valido_pos (b : bobina) : bobina_valida b -> 0 < fst (fst b).
Proof. unfold bobina_valida, RAIO_MINIMO. intros [? _]. lra. Qed.

Lemma bind_Ok {A B} (a : A) (f : A -> resultado B) : (Ok a ≫= f) = f a.
Proof. reflexivity. Qed.

Lemma laco_bobinas_cons raio z_pos corrente resto campo_total :
  laco_bobinas ((raio, z_pos, corrente) :: resto) campo_total
  = if Rlt_b raio RAIO_MINIMO || Rle_b corrente 0 then Ok (Retorna (-1e9))
    else calcular_campo_eixo_z_vetor Z_AVALIACAO raio z_pos corrente
         ≫= fun campo => laco_bobinas resto (np.add campo_total campo).
Proof. reflexivity. Qed.

Lemma laco_bobinas_validas bobinas : forall campo_total,
  Forall bobina_valida bobinas ->
  laco_bobinas bobinas campo_total
  = Ok (Continua (foldl (fun acc b =>
                           np.add acc (map (campo_da_bobina b) Z_AVALIACAO))
                        campo_total bobinas)).
Proof.
  induction bobinas as [|[[raio z_pos] corrente] resto IH]; intros acc Hv.
  - reflexivity.
  - inversion Hv as [|? ? Hb Hresto]; subst.
    rewrite laco_bobinas_cons.
    pose proof (proj2 (teste_bobina _) Hb) as Ht. simpl in Ht.
    rewrite Ht, campo_vetor_ok by exact (raio_valido_pos _ Hb).
    rewrite bind_Ok. now rewrite IH.
Qed.

Lemma laco_bobinas_invalida bobinas : forall campo_total,
  Exists (fun b => ~ bobina_valida b) bobinas ->
  laco_bobinas bobinas campo_total = Ok (Retorna (-1e9)).
Proof.
  induction bobinas as [|[[raio z_pos] corrente] resto IH]; intros acc Hex.
  - inversion Hex.
  - rewrite laco_bobinas_cons.
    destruct (Rlt_b raio RAIO_MINIMO || Rle_b corrente 0) eqn:Ht; [reflexivity|].
    pose proof (proj1 (teste_bobina (raio, z_pos, corrente)) Ht) as Hb.
    rewrite campo_vetor_ok by exact (raio_valido_pos _ Hb).
    rewrite bind_Ok. apply IH.
    inversion Hex as [? ? Hn|? ? Hn]; subst; [contradiction | assumption].
Qed.

(** The loop never faults, whatever the coils. *)
Lemma laco_bobinas_total bobinas : forall campo_total,
  length campo_total = length Z_AVALIACAO ->
  laco_bobinas bobinas campo_total = Ok (Retorna (-1e9)) \/
  exists campo_final,
    laco_bobinas bobinas campo_total = Ok (Continua campo_final) /\
    length campo_final = length Z_AVALIACAO.
Proof.
  induction bobinas as [|[[raio z_pos] corrente] resto IH]; intros acc Hl.
  - right. exists acc. split; [reflexivity | assumption].
  - rewrite laco_bobinas_cons.
    destruct (Rlt_b raio RAIO_MINIMO || Rle_b corrente 0) eqn:Ht; [now left|].
    pose proof (proj1 (teste_bobina (raio, z_pos, corrente)) Ht) as Hb.
    rewrite campo_vetor_ok by exact (raio_valido_pos _ Hb).
    rewrite bind_Ok. apply IH. unfold np.add.
    rewrite length_zip_with, length_map. lia.
Qed.

(** Accumulating coil by coil gives, at each point, the sum over the coils. *)
Lemma zip_add_map (f g : R -> R) zs : forall acc,
  zip_with Rplus (zip_with Rplus acc (map f zs)) (map g zs)
  = zip_with Rplus acc (map (fun z => f z + g z) zs).
Proof.
  induction zs as [|z zs IH]; intros [|a acc]; simpl; try reflexivity.
  rewrite IH. f_equal. lra.
Qed.

Lemma zip_add_zeros zs : forall acc : list R,
  length acc = length zs ->
  zip_with Rplus acc (map (fun _ : R => 0) zs) = acc.
Proof.
  induction zs as [|z zs IH]; intros [|a acc] Hl; simpl in *;
    try reflexivity; try discriminate.
  rewrite IH by lia. f_equal. lra.
Qed.

Lemma foldl_add_perfil (f : bobina -> R -> R) zs bobinas : forall acc,
  length acc = length zs ->
  foldl (fun acc b => np.add acc (map (f b) zs)) acc bobinas
  = zip_with Rplus acc
      (map (fun z => np.sum (map (fun b => f b z) bobinas)) zs).
Proof.
  induction bobinas as [|b resto IH]; intros acc Hl.
  - simpl. now rewrite zip_add_zeros.
  - simpl foldl. rewrite IH.
    + unfold np.add. rewrite zip_add_map. reflexivity.
    + unfold np.add. rewrite length_zip_with, length_map. lia.
Qed.

Lemma zip_zeros (g : R -> R) zs :
  zip_with Rplus (np.zeros_like zs) (map g zs) = map g zs.
Proof.
  unfold np.zeros_like. induction zs as [|z zs IH]; simpl; [reflexivity|].
  rewrite IH. f_equal. lra.
Qed.

Lemma campo_total_perfil c :
  foldl (fun acc b => np.add acc (map (campo_da_bobina b) Z_AVALIACAO))
        (np.zeros_like Z_AVALIACAO) (map (bobina_de c) (seq 0 NUM_BOBINAS))
  = perfil_campo c.
Proof.
  rewrite foldl_add_perfil by (unfold np.zeros_like; now rewrite length_map).
  rewrite zip_zeros. unfold perfil_campo.
  apply map_ext. intros z. now rewrite map_map.
Qed.

Lemma perfil_campo_length c : length (perfil_campo c) = 100%nat.
Proof. unfold perfil_campo. rewrite length_map. apply Z_AVALIACAO_length. Qed.

Lemma perfil_campo_nonempty c : perfil_campo c <> [].
Proof.
  intros H. pose proof (perfil_campo_length c) as E. rewrite H in E. discriminate.
Qed.

(** ** The spacing penalty *)

Lemma indexar_ok {A} (l : list A) (i : nat) (d : A) :
  (i < length l)%nat -> indexar l i = Ok (nth i l d).
Proof.
  intros Hi. unfold indexar.
  destruct (l !! i) as [x|] eqn:E.
  - f_equal. symmetry. apply nth_lookup_Some with (d := d) in E. exact E.
  - apply lookup_ge_None in E. lia.
Qed.

Lemma filter_par_length {A B} (p : A * B -> bool) (a : A) (l : list B) :
  length (List.filter p (map (pair a) l))
  = length (List.filter (fun b => p (a, b)) l).
Proof.
  induction l as [|b l IH]; simpl; [reflexivity|].
  destruct (p (a, b)); simpl; now rewrite IH.
Qed.

Lemma foldM_cons {A B} (f : A -> B -> resultado A) a b l :
  foldM f a (b :: l) = f a b ≫= fun a' => foldM f a' l.
Proof. reflexivity. Qed.

Lemma teste_par_ok posicoes_z i j penalidade :
  (i < length posicoes_z)%nat -> (j < length posicoes_z)%nat ->
  teste_par posicoes_z i penalidade j
  = Ok (if viola_espacamento posicoes_z (i, j)
        then penalidade + 5000 else penalidade)%Z.
Proof.
  intros Hi Hj. unfold teste_par, viola_espacamento.
  rewrite (indexar_ok _ i 0 Hi), bind_Ok, (indexar_ok _ j 0 Hj), bind_Ok.
  simpl fst. simpl snd.
  now destruct (Rlt_b _ _).
Qed.

Lemma laco_interno_ok posicoes_z i js : forall penalidade,
  (i < length posicoes_z)%nat ->
  Forall (fun j => (j < length posicoes_z)%nat) js ->
  foldM (teste_par posicoes_z i) penalidade js
  = Ok (penalidade
        + 5000 * Z.of_nat (length (List.filter
                   (fun j => viola_espacamento posicoes_z (i, j)) js)))%Z.
Proof.
  intros pen Hi Hjs. revert pen.
  induction Hjs as [|j js Hj Hjs IH]; intros pen.
  - simpl. f_equal. lia.
  - rewrite foldM_cons, (teste_par_ok _ i j pen Hi Hj), bind_Ok, IH.
    simpl List.filter.
    destruct (viola_espacamento posicoes_z (i, j)); f_equal; simpl length; lia.
Qed.

Lemma laco_externo_ok posicoes_z (J : nat -> list nat) is_ : forall penalidade,
  Forall (fun i => (i < length posicoes_z)%nat /\
                   Forall (fun j => (j < length posicoes_z)%nat) (J i)) is_ ->
  foldM (fun penalidade i => foldM (teste_par posicoes_z i) penalidade (J i))
        penalidade is_
  = Ok (penalidade
        + 5000 * Z.of_nat (length (List.filter
                   (viola_espacamento posicoes_z)
                   (flat_map (fun i => map (pair i) (J i)) is_))))%Z.
Proof.
  intros pen His. revert pen.
  induction His as [|i is_ [Hi HJ] His IH]; intros pen.
  - simpl. f_equal. lia.
  - rewrite foldM_cons, (laco_interno_ok _ i (J i) pen Hi HJ), bind_Ok, IH.
    simpl flat_map. rewrite List.filter_app, length_app, filter_par_length.
    f_equal. lia.
Qed.

Lemma pares_laco :
  flat_map (fun i => map (pair i) (seq (i + 1) (NUM_BOBINAS - (i + 1))))
           (seq 0 NUM_BOBINAS)
  = pares_nao_ordenados NUM_BOBINAS.
Proof. reflexivity. Qed.

Lemma laco_penalidade_ok posicoes_z :
  length posicoes_z = NUM_BOBINAS ->
  laco_penalidade posicoes_z
  = Ok (5000 * Z.of_nat (pares_violando posicoes_z))%Z.
Proof.
  intros Hl. unfold laco_penalidade, pares_violando.
  rewrite <- pares_laco.
  rewrite (laco_externo_ok posicoes_z
             (fun i => seq (i + 1) (NUM_BOBINAS - (i + 1)))).
  - reflexivity.
  - rewrite Hl. apply Forall_forall. intros i Hi. apply elem_of_seq in Hi.
    split; [lia|]. apply Forall_forall. intros j Hj. apply elem_of_seq in Hj.
    lia.
Qed.

Lemma pares_violando_le posicoes_z : (pares_violando posicoes_z <= 15)%nat.
Proof.
  unfold pares_violando.
  etransitivity; [apply List.filter_length_le|]. reflexivity.
Qed.

(** ** The fitness of a chromosome of 18 genes *)

Lemma bobinas_validas c :
  estruturalmente_valido c ->
  Forall bobina_valida (map (bobina_de c) (seq 0 NUM_BOBINAS)).
Proof.
  intros [_ Hv]. apply Forall_forall. intros b Hb.
  apply list_elem_of_In, in_map_iff in Hb. destruct Hb as (k & <- & Hk).
  apply in_seq in Hk. apply Hv. lia.
Qed.

Lemma bobina_invalida c k :
  (k < NUM_BOBINAS)%nat ->
  raio_de c k < RAIO_MINIMO \/ corrente_de c k <= 0 ->
  Exists (fun b => ~ bobina_valida b) (map (bobina_de c) (seq 0 NUM_BOBINAS)).
Proof.
  intros Hk Hbad. apply Exists_exists. exists (bobina_de c k). split.
  - apply list_elem_of_In, in_map. apply in_seq. lia.
  - unfold bobina_valida, bobina_de. simpl. lra.
Qed.

Lemma posicoes_bobinas c :
  map (fun b : bobina => snd (fst b)) (map (bobina_de c) (seq 0 NUM_BOBINAS))
  = posicoes_de c.
Proof. rewrite map_map. reflexivity. Qed.

Lemma posicoes_de_length c : length (posicoes_de c) = NUM_BOBINAS.
Proof. unfold posicoes_de. now rewrite length_map, length_seq. Qed.

Lemma coef_denominador m d : 0.1 <= m -> 0 <= d -> 0 < d / m + 1e-9.
Proof.
  intros Hm Hd.
  assert (0 < / m) by (apply Rinv_0_lt_compat; lra).
  assert (0 <= d / m) by (apply Rmult_le_pos; lra). lra.
Qed.

Lemma calcular_aptidao_valido c :
  estruturalmente_valido c ->
  calcular_aptidao c
  = Ok (aptidao_de (media (perfil_campo c)) (desvio (perfil_campo c))
                   (pares_violando (posicoes_de c))).
Proof.
  intros Hv. pose proof Hv as [Hl _]. unfold calcular_aptidao.
  rewrite reshape3_ok by assumption. rewrite bind_Ok.
  rewrite laco_bobinas_validas by now apply bobinas_validas.
  rewrite bind_Ok, campo_total_perfil.
  rewrite mean_ok, bind_Ok by apply perfil_campo_nonempty.
  rewrite std_ok, bind_Ok by apply perfil_campo_nonempty.
  unfold aptidao_de.
  destruct (Rlt_b_spec (media (perfil_campo c)) 0.1) as [Hm|Hm]; [reflexivity|].
  rewrite dividir_ok, bind_Ok by lra.
  rewrite dividir_ok, bind_Ok.
  - rewrite posicoes_bobinas, laco_penalidade_ok by apply posicoes_de_length.
    reflexivity.
  - pose proof (coef_denominador _ _ (Rnot_lt_le _ _ Hm)
                  (desvio_nonneg (perfil_campo c))). lra.
Qed.

Lemma calcular_aptidao_invalido c k :
  length c = (3 * NUM_BOBINAS)%nat ->
  (k < NUM_BOBINAS)%nat ->
  raio_de c k < RAIO_MINIMO \/ corrente_de c k <= 0 ->
  calcular_aptidao c = Ok (-1e9).
Proof.
  intros Hl Hk Hbad. unfold calcular_aptidao.
  rewrite reshape3_ok by assumption. rewrite bind_Ok.
  rewrite laco_bobinas_invalida by now apply bobina_invalida with k.
  reflexivity.
Qed.

Lemma aptidao_de_lower m d n :
  0 <= d -> (n <= 15)%nat -> -75000 < aptidao_de m d n.
Proof.
  intros Hd Hn. unfold aptidao_de.
  destruct (Rlt_b_spec m 0.1) as [Hm|Hm]; [lra|].
  apply Rnot_lt_le in Hm.
  pose proof (coef_denominador m d Hm Hd) as Hden.
  assert (Hu : 0 < 1 / (d / m + 1e-9)).
  { apply Rdiv_lt_0_compat; lra. }
  assert (Hp : IZR (5000 * Z.of_nat n) <= 75000).
  { apply IZR_le. lia. }
  assert (0 < 1.0 * m * (5.0 * (1 / (d / m + 1e-9)))).
  { apply Rmult_lt_0_compat; lra. }
  lra.
Qed.

(** Every chromosome of 18 genes has a fitness: no exception, no zero
    denominator. *)
Lemma calcular_aptidao_total c :
  length c = (3 * NUM_BOBINAS)%nat -> exists v, calcular_aptidao c = Ok v.
Proof.
  intros Hl. unfold calcular_aptidao.
  rewrite reshape3_ok by assumption. rewrite bind_Ok.
  destruct (laco_bobinas_total (map (bobina_de c) (seq 0 NUM_BOBINAS))
              (np.zeros_like Z_AVALIACAO)) as [E|(campo_final & E & Hlen)].
  - unfold np.zeros_like. now rewrite length_map.
  - rewrite E. eexists. reflexivity.
  - rewrite E, bind_Ok.
    assert (Hne : campo_final <> []).
    { intros ->. rewrite Z_AVALIACAO_length in Hlen. discriminate. }
    rewrite mean_ok, bind_Ok, std_ok, bind_Ok by assumption.
    destruct (Rlt_b_spec (media campo_final) 0.1) as [Hm|Hm];
      [eexists; reflexivity|].
    rewrite dividir_ok, bind_Ok by lra.
    rewrite dividir_ok, bind_Ok.
    + rewrite posicoes_bobinas, laco_penalidade_ok by apply posicoes_de_length.
      eexists. reflexivity.
    + pose proof (coef_denominador _ _ (Rnot_lt_le _ _ Hm)
                    (desvio_nonneg campo_final)). lra.
Qed.

(** ** Bounds on the profile, for concrete chromosomes *)

Lemma perfil_bounds c lo hi :
  (forall k z, (k < NUM_BOBINAS)%nat -> -1 <= z <= 1 ->
     lo <= campo z (raio_de c k) (posicao_de c k) (corrente_de c k) <= hi) ->
  Forall (fun x => 6 * lo <= x <= 6 * hi) (perfil_campo c).
Proof.
  intros H. unfold perfil_campo. rewrite Forall_map.
  eapply Forall_impl; [apply Z_AVALIACAO_range|].
  intros z Hz. cbv beta.
  pose proof (sum_bounds lo hi
    (map (fun k => campo z (raio_de c k) (posicao_de c k) (corrente_de c k))
         (seq 0 NUM_BOBINAS))) as Hs.
  rewrite length_map, length_seq in Hs.
  replace (INR NUM_BOBINAS) with 6 in Hs
    by (unfold NUM_BOBINAS; rewrite INR_IZR_INZ; reflexivity).
  apply Hs. rewrite Forall_map. apply Forall_forall. intros k Hk.
  apply elem_of_seq in Hk. apply H; [lia | assumption].
Qed.

Ltac casos_bobina k Hk :=
  do 6 (destruct k as [|k]; [simpl; unfold RAIO_MINIMO; try lra|]);
  try (exfalso; unfold NUM_BOBINAS in Hk; lia).

Lemma c_fraco_valido : estruturalmente_valido c_fraco.
Proof.
  split; [reflexivity|]. intros k Hk.
  unfold raio_de, corrente_de, c_fraco. casos_bobina k Hk.
Qed.

Lemma c_forte_valido : estruturalmente_valido c_forte.
Proof.
  split; [reflexivity|]. intros k Hk.
  unfold raio_de, corrente_de, c_forte. casos_bobina k Hk.
Qed.

Lemma MU_0_bounds : 8e-7 < MU_0 <= 16e-7.
Proof. unfold MU_0. pose proof PI2_1. pose proof PI_4. lra. Qed.

Lemma c_fraco_media : media (perfil_campo c_fraco) < 0.1.
Proof.
  assert (H : Forall (fun x => 6 * 0 <= x <= 6 * 8e-7) (perfil_campo c_fraco)).
  { apply perfil_bounds. intros k z Hk Hz.
    assert (E : raio_de c_fraco k = 1 /\ corrente_de c_fraco k = 1).
    { unfold raio_de, corrente_de, c_fraco.
      do 6 (destruct k as [|k]; [simpl; split; reflexivity|]).
      exfalso. unfold NUM_BOBINAS in Hk. lia. }
    destruct E as [-> ->]. split.
    - left. apply campo_pos; lra.
    - etransitivity; [apply campo_le; lra|].
      pose proof MU_0_bounds. lra. }
  apply media_bounds in H; [lra | apply perfil_campo_nonempty].
Qed.

Lemma c_forte_media : 0.1 <= media (perfil_campo c_forte).
Proof.
  assert (H : Forall (fun x => 6 * 0.16 <= x <= 6 * 80)
                     (perfil_campo c_forte)).
  { apply perfil_bounds. intros k z Hk Hz.
    assert (E : raio_de c_forte k = 1 /\ corrente_de c_forte k = 1e7 /\
                -1 <= posicao_de c_forte k <= 1).
    { unfold raio_de, corrente_de, posicao_de, c_forte.
      do 6 (destruct k as [|k]; [simpl; repeat split; lra|]).
      exfalso. unfold NUM_BOBINAS in Hk. lia. }
    destruct E as (-> & -> & Hp). pose proof MU_0_bounds. split.
    - etransitivity; [|apply campo_ge with (D := 4); try lra].
      + lra.
      + assert (-2 <= z - posicao_de c_forte k <= 2) by lra. nra.
    - etransitivity; [apply campo_le; lra|]. lra. }
  apply media_bounds in H; [lra | apply perfil_campo_nonempty].
Qed.

Lemma c_corrente_nula_invalido :
  length c_corrente_nula = (3 * NUM_BOBINAS)%nat /\
  exists k, (k < NUM_BOBINAS)%nat /\
    (raio_de c_corrente_nula k < RAIO_MINIMO \/ corrente_de c_corrente_nula k <= 0).
Proof.
  split; [reflexivity|]. exists 2%nat. split; [unfold NUM_BOBINAS; lia|].
  right. unfold corrente_de, c_corrente_nula. simpl. lra.
Qed.

Lemma filter_todos {A} (f : A -> bool) l :
  (forall x, f x = true) -> List.filter f l = l.
Proof.
  intros H. induction l as [|x l IH]; simpl; [reflexivity|].
  now rewrite H, IH.
Qed.

Lemma filter_nenhum {A} (f : A -> bool) l :
  Forall (fun x => f x = false) l -> List.filter f l = [].
Proof.
  induction 1 as [|x l Hx Hl IH]; simpl; [reflexivity|].
  now rewrite Hx.
Qed.

Lemma c_fraco_pares : pares_violando (posicoes_de c_fraco) = 15%nat.
Proof.
  unfold pares_violando. rewrite filter_todos; [reflexivity|].
  intros [i j]. unfold viola_espacamento. simpl fst. simpl snd.
  assert (E : forall n, nth n (posicoes_de c_fraco) 0 = 0).
  { intros n. unfold posicoes_de, posicao_de, c_fraco.
    do 6 (destruct n as [|n]; [reflexivity|]). simpl. now destruct n. }
  rewrite !E. apply Rlt_b_true. unfold DISTANCIA_MIN_BOBINAS.
  rewrite Rminus_diag, Rabs_R0. lra.
Qed.

Lemma c_forte_pares : pares_violando (posicoes_de c_forte) = 0%nat.
Proof.
  unfold pares_violando. rewrite filter_nenhum; [reflexivity|].
  unfold pares_nao_ordenados, NUM_BOBINAS. simpl List.filter.
  unfold viola_espacamento, posicoes_de, posicao_de, c_forte,
    DISTANCIA_MIN_BOBINAS.
  repeat constructor; simpl; apply Rlt_b_false;
    unfold Rabs; destruct (Rcase_abs _); lra.
Qed.

(** ** The deviation of a profile without negative entries

    The population deviation of [n] non-negative numbers is at most
    [sqrt n] times their mean, so the coefficient of variation of a profile
    of 100 points is at most 10. *)

Lemma sum_cons x l : np.sum (x :: l) = x + np.sum l.
Proof. reflexivity. Qed.

Lemma sum_quadrados_le l :
  Forall (fun x => 0 <= x) l ->
  0 <= np.sum l /\ np.sum (map (fun x => x ^ 2) l) <= np.sum l ^ 2.
Proof.
  induction 1 as [|x l Hx Hl [IH0 IH]]; [simpl; lra|].
  cbn [map]. rewrite !sum_cons. split; [lra | nra].
Qed.

Lemma sum_desvios m l :
  np.sum (map (fun x => (x - m) ^ 2) l)
  = np.sum (map (fun x => x ^ 2) l) - 2 * m * np.sum l
    + INR (length l) * m ^ 2.
Proof.
  induction l as [|x l IH]; [simpl; lra|].
  cbn [map length]. rewrite !sum_cons, S_INR, IH. ring.
Qed.

Lemma desvio_le_media l :
  l <> [] -> Forall (fun x => 0 <= x) l ->
  0 <= media l /\ desvio l <= sqrt (INR (length l)) * media l.
Proof.
  intros Hne Hl.
  assert (Hn : 0 < INR (length l)).
  { destruct l; [contradiction|]. apply lt_0_INR. simpl. lia. }
  destruct (sum_quadrados_le l Hl) as [HS HQ].
  assert (Hm : 0 <= media l).
  { unfold media. apply Rmult_le_pos; [exact HS|].
    left. now apply Rinv_0_lt_compat. }
  split; [exact Hm|].
  assert (ES : np.sum l = INR (length l) * media l).
  { unfold media. field. lra. }
  assert (Hvar : media (map (fun x => (x - media l) ^ 2) l)
                 <= INR (length l) * (media l * media l)).
  { unfold media at 1. rewrite length_map, sum_desvios.
    apply Rmult_le_reg_r with (INR (length l)); [exact Hn|].
    unfold Rdiv. rewrite Rmult_assoc, Rinv_l, Rmult_1_r by lra.
    rewrite ES in HQ. rewrite ES.
    assert (0 <= INR (length l) * media l ^ 2) by
      (apply Rmult_le_pos; [lra | apply pow2_ge_0]).
    nra. }
  unfold desvio.
  replace (sqrt (INR (length l)) * media l)
    with (sqrt (INR (length l) * (media l * media l))).
  - now apply sqrt_le_1_alt.
  - rewrite sqrt_mult by (try lra; nra). now rewrite sqrt_square.
Qed.

Lemma sqrt_100 : sqrt (INR 100) = 10.
Proof.
  assert (E : INR 100 = 100) by (rewrite INR_IZR_INZ; reflexivity).
  replace (INR 100) with (10 * 10) by lra.
  apply sqrt_square. lra.
Qed.

(** ** Bounds on the fitness of a valid chromosome *)

Lemma perfil_valido_nonneg c :
  estruturalmente_valido c -> Forall (fun x => 0 <= x) (perfil_campo c).
Proof.
  intros [_ Hv]. unfold perfil_campo. rewrite Forall_map.
  apply Forall_forall. intros z _. cbv beta.
  apply sum_quadrados_le. rewrite Forall_map. apply Forall_forall.
  intros k Hk. apply elem_of_seq in Hk.
  destruct (Hv k) as [Hr Hc]; [lia|]. unfold RAIO_MINIMO in Hr.
  left. apply campo_pos; lra.
Qed.

Lemma perfil_valido_bounds c I :
  estruturalmente_valido c ->
  (forall k, (k < NUM_BOBINAS)%nat -> corrente_de c k <= I) ->
  Forall (fun x => 6 * 0 <= x <= 6 * (MU_0 * I)) (perfil_campo c).
Proof.
  intros [_ Hv] HI. apply perfil_bounds. intros k z Hk _.
  destruct (Hv k Hk) as [Hr Hc]. unfold RAIO_MINIMO in Hr.
  specialize (HI k Hk). pose proof MU_0_bounds as [HM _]. split.
  - left. apply campo_pos; lra.
  - etransitivity; [apply campo_le_plano; lra|].
    apply Rmult_le_reg_r with (2 * raio_de c k); [lra|].
    unfold Rdiv. rewrite Rmult_assoc, Rinv_l, Rmult_1_r by lra.
    assert (0 <= MU_0 * corrente_de c k) by (apply Rmult_le_pos; lra).
    assert (MU_0 * corrente_de c k <= MU_0 * I)
      by (apply Rmult_le_compat_l; lra).
    nra.
Qed.

(** The coefficient of variation of the profile of a valid chromosome is at
    most 10. *)
Lemma perfil_valido_desvio c :
  estruturalmente_valido c ->
  0 <= media (perfil_campo c) /\
  desvio (perfil_campo c) <= 10 * media (perfil_campo c).
Proof.
  intros Hv.
  pose proof (desvio_le_media (perfil_campo c) (perfil_campo_nonempty c)
                (perfil_valido_nonneg c Hv)) as [Hm Hd].
  rewrite perfil_campo_length, sqrt_100 in Hd.
  split; assumption.
Qed.

(** The value computed after the loop over the coils, for a mean [m] and a
    deviation [d] of at most [10 * m]: at least 0.04 above the penalty taken
    away, at most [5e9 * m] (or the floor 0.1). *)
Lemma aptidao_de_bounds m d n :
  0 <= d -> d <= 10 * m -> (n <= 15)%nat ->
  0.04 - 5000 * INR n < aptidao_de m d n /\
  -75000 < aptidao_de m d n /\
  aptidao_de m d n <= Rmax 0.1 (5e9 * m).
Proof.
  intros Hd Hdm Hn. unfold aptidao_de.
  assert (Hp : 0 <= 5000 * INR n <= 75000).
  { pose proof (pos_INR n). assert (INR n <= 15).
    { replace 15 with (INR 15) by (rewrite INR_IZR_INZ; reflexivity).
      apply le_INR. exact Hn. }
    lra. }
  assert (Ep : IZR (5000 * Z.of_nat n) = 5000 * INR n).
  { rewrite mult_IZR, <- INR_IZR_INZ. reflexivity. }
  rewrite Ep.
  destruct (Rlt_b_spec m 0.1) as [Hm|Hm].
  - split; [lra|]. split; [lra|]. apply Rmax_l.
  - apply Rnot_lt_le in Hm.
    pose proof (coef_denominador m d Hm Hd) as Hden.
    assert (Hc : d / m <= 10).
    { apply Rmult_le_reg_r with m; [lra|].
      replace (d / m * m) with d by (field; lra). lra. }
    assert (Hc0 : 0 <= d / m).
    { apply Rmult_le_pos; [lra|]. left. apply Rinv_0_lt_compat. lra. }
    set (u := 1 / (d / m + 1e-9)).
    assert (Hu : 0.09 <= u <= 1e9).
    { unfold u. split.
      - apply Rmult_le_reg_r with (d / m + 1e-9); [lra|].
        replace (1 / (d / m + 1e-9) * (d / m + 1e-9)) with 1 by (field; lra).
        lra.
      - apply Rmult_le_reg_r with (d / m + 1e-9); [lra|].
        replace (1 / (d / m + 1e-9) * (d / m + 1e-9)) with 1 by (field; lra).
        lra. }
    assert (Hprod : 0.045 <= 1.0 * m * (5.0 * u) <= 5e9 * m) by nra.
    split; [lra|]. split; [lra|].
    etransitivity; [|apply Rmax_r]. lra.
Qed.

Lemma correntes_limitadas c :
  length c = (3 * NUM_BOBINAS)%nat -> genes_limitados c ->
  forall k, (k < NUM_BOBINAS)%nat -> corrente_de c k <= LIMITE_GENES.
Proof.
  intros Hl Hg k Hk. unfold corrente_de.
  assert (Hlt : (3 * k + 2 < length c)%nat)
    by (rewrite Hl; unfold NUM_BOBINAS in *; lia).
  destruct (lookup_lt_is_Some_2 c _ Hlt) as [x Hx].
  rewrite (nth_lookup_Some _ _ _ _ Hx).
  pose proof (Forall_lookup_1 _ _ _ _ Hg Hx) as Hb. cbv beta in Hb.
  unfold Rabs in Hb. destruct (Rcase_abs x); lra.
Qed.

(** The fitness of a valid chromosome within the domain: 0.04 above the
    largest penalty, below 1e105. *)
Lemma aptidao_valido_bounds c :
  estruturalmente_valido c -> genes_limitados c ->
  exists v, calcular_aptidao c = Ok v /\ 0.04 - 75000 < v < 1e105.
Proof.
  intros Hv Hg. eexists. split; [now apply calcular_aptidao_valido|].
  pose proof Hv as [Hl _].
  pose proof (perfil_valido_desvio c Hv) as [Hm Hd].
  pose proof (aptidao_de_bounds (media (perfil_campo c))
                (desvio (perfil_campo c)) (pares_violando (posicoes_de c))
                (desvio_nonneg _) Hd (pares_violando_le _)) as (H1 & H2 & H3).
  assert (Hn : 5000 * INR (pares_violando (posicoes_de c)) <= 75000).
  { pose proof (le_INR _ _ (pares_violando_le (posicoes_de c))) as Hle.
    replace (INR 15) with 15 in Hle by (rewrite INR_IZR_INZ; reflexivity).
    lra. }
  split; [lra|].
  pose proof (perfil_valido_bounds c LIMITE_GENES Hv
                (correntes_limitadas c Hl Hg)) as Hp.
  apply media_bounds in Hp; [|apply perfil_campo_nonempty].
  pose proof MU_0_bounds as [_ HM]. unfold LIMITE_GENES in Hp.
  eapply Rle_lt_trans; [exact H3|].
  apply Rmax_lub_lt; [lra|].
  assert (MU_0 * 1e100 <= 16e-7 * 1e100) by (apply Rmult_le_compat_r; lra).
  lra.
Qed.

Ltac genes_concretos :=
  unfold genes_limitados, LIMITE_GENES;
  repeat (constructor; [apply Rabs_le; lra|]); constructor.

Lemma c_forte_limitado : genes_limitados c_forte.
Proof. unfold c_forte. genes_concretos. Qed.

Lemma c_fraco_limitado : genes_limitados c_fraco.
Proof. unfold c_fraco. genes_concretos. Qed.

(** ** The fitness on binary64, out of the domain *)

(** Six valid coils stacked at one position and carrying 1e308: the
    deviation overflows, the uniformity score is 0 and the fitness is
    exactly the penalty of the 15 pairs, -75000. *)
Example aptidao_f64_empilhado :
  Exemplos64.estruturalmente_valido Exemplos64.c_empilhado = true /\
  F64.calcular_aptidao Exemplos64.c_empilhado = Ok Exemplos64.menos_75000.
Proof. split; vm_compute; reflexivity. Qed.

(** Inside the domain the float64 results are finite and within the bounds
    proved over the reals. *)
Example aptidao_f64_no_dominio :
  Exemplos64.finito_acima_do_piso
    (F64.calcular_aptidao Exemplos64.c_forte) = true /\
  Exemplos64.finito_acima_do_piso
    (F64.calcular_aptidao Exemplos64.c_canto) = true.
Proof. split; vm_compute; reflexivity. Qed.

(** * The claims about the fitness function *)

(** C1.  For every chromosome of 6 coils (18 genes), if some coil has a
    radius below the minimum radius 0.5 or a current that is not positive,
    [calcular_aptidao] returns exactly the sentinel -1e9, whatever the other
    genes are. *)
Theorem C1_sentinela_para_bobina_invalida (c : list R) :
  length c = (3 * NUM_BOBINAS)%nat ->
  (exists k, (k < NUM_BOBINAS)%nat /\
     (raio_de c k < RAIO_MINIMO \/ corrente_de c k <= 0)) ->
  calcular_aptidao c = Ok (-1e9).
Proof.
  intros Hl (k & Hk & Hbad). now apply calcular_aptidao_invalido with k.
Qed.

Lemma C1_witness :
  (length c_corrente_nula = (3 * NUM_BOBINAS)%nat /\
   exists k, (k < NUM_BOBINAS)%nat /\
     (raio_de c_corrente_nula k < RAIO_MINIMO \/
      corrente_de c_corrente_nula k <= 0)) /\
  calcular_aptidao c_corrente_nula = Ok (-1e9).
Proof.
  split; [exact c_corrente_nula_invalido|].
  apply (C1_sentinela_para_bobina_invalida c_corrente_nula);
    apply c_corrente_nula_invalido.
Defined.

(** On float64 the claim C2 fails as it is stated: [c_forte] with the radius
    of its first coil set to 1e200 is structurally valid, the square of that
    radius is [inf], the field of the coil is [inf / inf], and the fitness
    is [nan], which is not greater than the sentinel. *)
Lemma C2_counterexample :
  Exemplos64.estruturalmente_valido Exemplos64.c_raio_enorme = true /\
  exists v,
    F64.calcular_aptidao Exemplos64.c_raio_enorme = Ok v /\
    PrimFloat.is_nan v = true /\
    PrimFloat.ltb Exemplos64.sentinela v = false.
Proof.
  split; [vm_compute; reflexivity|].
  exists PrimFloat.nan. repeat split; vm_compute; reflexivity.
Qed.

(** C2 (amended).  For every structurally valid chromosome (every radius at
    least 0.5, every current positive) whose genes are at most 1e100 in
    magnitude, the fitness is strictly greater than the sentinel -1e9: it
    exceeds -75000, the largest possible spacing penalty (15 pairs at 5000
    each), by at least 0.04, the strength-uniformity product being at least
    that much (the coefficient of variation of a profile of 100 non-negative
    values is at most 10). *)
Theorem C2_valido_supera_sentinela (c : list R) :
  estruturalmente_valido c -> genes_limitados c ->
  exists v, calcular_aptidao c = Ok v /\
            0.04 - 75000 < v /\ -75000 < v /\ -1e9 < v.
Proof.
  intros Hv Hg.
  destruct (aptidao_valido_bounds c Hv Hg) as (v & E & H1 & _).
  exists v. repeat split; (assumption || lra).
Qed.

Lemma C2_witness :
  estruturalmente_valido c_forte /\ genes_limitados c_forte /\
  exists v, calcular_aptidao c_forte = Ok v /\
            0.04 - 75000 < v /\ -75000 < v /\ -1e9 < v.
Proof.
  split; [exact c_forte_valido|]. split; [exact c_forte_limitado|].
  exact (C2_valido_supera_sentinela c_forte c_forte_valido c_forte_limitado).
Defined.

(** C3.  For every structurally valid chromosome whose field profile (the
    sum of the coil fields at each of the 100 evaluation points) has a mean
    below 0.1, [calcular_aptidao] returns exactly 0.1: no spacing penalty is
    subtracted, whatever the positions of the coils. *)
Theorem C3_piso_de_forca (c : list R) :
  estruturalmente_valido c ->
  media (perfil_campo c) < 0.1 ->
  calcular_aptidao c = Ok 0.1.
Proof.
  intros Hv Hm. rewrite calcular_aptidao_valido by assumption.
  unfold aptidao_de. now rewrite Rlt_b_true.
Qed.

(** The witness has its six coils at one position: all 15 pairs violate the
    spacing constraint and the result is still 0.1. *)
Lemma C3_witness :
  estruturalmente_valido c_fraco /\
  media (perfil_campo c_fraco) < 0.1 /\
  pares_violando (posicoes_de c_fraco) = 15%nat /\
  calcular_aptidao c_fraco = Ok 0.1.
Proof.
  split; [exact c_fraco_valido|]. split; [exact c_fraco_media|].
  split; [exact c_fraco_pares|].
  exact (C3_piso_de_forca c_fraco c_fraco_valido c_fraco_media).
Defined.

(** C4.  For every structurally valid chromosome whose profile has a mean of
    at least 0.1: the penalty computed by the nested loops is 5000 times the
    number of unordered pairs of coils whose positions differ by less than
    0.2 in absolute value; the fitness is (1.0 * mean) * (5.0 * u) minus that
    penalty, with u = 1 / (std / mean + 1e-9); and with no violating pair
    nothing is subtracted. *)
Theorem C4_aptidao_e_penalidade (c : list R) :
  estruturalmente_valido c ->
  0.1 <= media (perfil_campo c) ->
  let m := media (perfil_campo c) in
  let d := desvio (perfil_campo c) in
  let n := pares_violando (posicoes_de c) in
  let u := 1 / (d / m + 1e-9) in
  laco_penalidade (posicoes_de c) = Ok (5000 * Z.of_nat n)%Z /\
  calcular_aptidao c = Ok ((1.0 * m) * (5.0 * u) - 5000 * INR n) /\
  (n = 0%nat ->
   laco_penalidade (posicoes_de c) = Ok 0%Z /\
   calcular_aptidao c = Ok ((1.0 * m) * (5.0 * u))).
Proof.
  intros Hv Hm m d n u.
  assert (Hp : laco_penalidade (posicoes_de c) = Ok (5000 * Z.of_nat n)%Z).
  { apply laco_penalidade_ok, posicoes_de_length. }
  assert (Ha : calcular_aptidao c = Ok ((1.0 * m) * (5.0 * u) - 5000 * INR n)).
  { rewrite calcular_aptidao_valido by assumption.
    unfold aptidao_de. rewrite Rlt_b_false by assumption.
    fold m d n u. rewrite mult_IZR, <- INR_IZR_INZ. reflexivity. }
  split; [exact Hp|]. split; [exact Ha|].
  intros Hn. rewrite Hp, Ha, Hn. split; [reflexivity|].
  f_equal. simpl INR. lra.
Qed.

Lemma C4_witness :
  estruturalmente_valido c_forte /\
  0.1 <= media (perfil_campo c_forte) /\
  pares_violando (posicoes_de c_forte) = 0%nat /\
  calcular_aptidao c_forte
  = Ok ((1.0 * media (perfil_campo c_forte))
        * (5.0 * (1 / (desvio (perfil_campo c_forte)
                       / media (perfil_campo c_forte) + 1e-9)))).
Proof.
  split; [exact c_forte_valido|]. split; [exact c_forte_media|].
  split; [exact c_forte_pares|].
  exact (proj2 (proj2 (proj2
           (C4_aptidao_e_penalidade c_forte c_forte_valido c_forte_media))
           c_forte_pares)).
Defined.

(** On float64 the claim C5 fails as it is stated: a structurally valid
    chromosome whose first coil has radius 1e4 and carries 1e308 gets the
    field [inf] at every point, a mean [inf], a deviation [nan], and the
    fitness returned is [nan], not a finite number. *)
Lemma C5_counterexample :
  Exemplos64.estruturalmente_valido Exemplos64.c_corrente_enorme = true /\
  exists v,
    F64.calcular_aptidao Exemplos64.c_corrente_enorme = Ok v /\
    PrimFloat.is_finite v = false.
Proof.
  split; [vm_compute; reflexivity|].
  exists PrimFloat.nan. split; vm_compute; reflexivity.
Qed.

(** C5 (amended).  On structurally valid chromosomes [calcular_aptidao] is
    total: it returns a number, never the sentinel; it raises no exception
    and meets no zero denominator (a result [Ok] excludes both), the mean
    being at least 0.1 where it divides and 1e-9 keeping the second
    denominator positive.  Where the genes are at most 1e100 in magnitude
    the number is finite: it lies between -75000 and 1e105. *)
Theorem C5_aptidao_total (c : list R) :
  estruturalmente_valido c ->
  exists v, calcular_aptidao c = Ok v /\ v <> -1e9 /\
            (genes_limitados c -> -75000 < v < 1e105).
Proof.
  intros Hv. eexists. split; [now apply calcular_aptidao_valido|].
  pose proof (aptidao_de_lower (media (perfil_campo c))
                (desvio (perfil_campo c)) (pares_violando (posicoes_de c))
                (desvio_nonneg _) (pares_violando_le _)) as Hlow.
  split; [lra|]. intros Hg.
  destruct (aptidao_valido_bounds c Hv Hg) as (v & E & H1 & H2).
  rewrite calcular_aptidao_valido in E by exact Hv.
  inversion E as [Ev]. lra.
Qed.

Lemma C5_witness :
  estruturalmente_valido c_fraco /\ genes_limitados c_fraco /\
  exists v, calcular_aptidao c_fraco = Ok v /\ v <> -1e9 /\ -75000 < v < 1e105.
Proof.
  split; [exact c_fraco_valido|]. split; [exact c_fraco_limitado|].
  destruct (C5_aptidao_total c_fraco c_fraco_valido) as (v & E & Hs & Hb).
  exists v. split; [exact E|]. split; [exact Hs|].
  exact (Hb c_fraco_limitado).
Defined.

(** * Properties of the operators *)

(** ** Running programs *)

Lemma prog_bind_eq {A B} (m : prog A) (f : A -> prog B) w :
  (m ≫= f) w = match m w with
               | Some (Ok a, w') => f a w'
               | Some (Erro e, w') => Some (Erro e, w')
               | None => None
               end.
Proof. reflexivity. Qed.

Lemma prog_bind_Ok {A B} (m : prog A) (f : A -> prog B) w a w' :
  m w = Some (Ok a, w') -> (m ≫= f) w = f a w'.
Proof. intros H. now rewrite prog_bind_eq, H. Qed.

Lemma prog_bind_Erro {A B} (m : prog A) (f : A -> prog B) w e w' :
  m w = Some (Erro e, w') -> (m ≫= f) w = Some (Erro e, w').
Proof. intros H. now rewrite prog_bind_eq, H. Qed.

Lemma prog_bind_inv {A B} (m : prog A) (f : A -> prog B) w r w' :
  (m ≫= f) w = Some (r, w') ->
  (exists a w1, m w = Some (Ok a, w1) /\ f a w1 = Some (r, w')) \/
  (exists e, m w = Some (Erro e, w') /\ r = Erro e).
Proof.
  rewrite prog_bind_eq. destruct (m w) as [[[a|e] w1]|]; intros H.
  - left. now exists a, w1.
  - right. exists e. now inversion H.
  - discriminate.
Qed.

Lemma prog_bind_inv_Ok {A B} (m : prog A) (f : A -> prog B) w b w' :
  (m ≫= f) w = Some (Ok b, w') ->
  exists a w1, m w = Some (Ok a, w1) /\ f a w1 = Some (Ok b, w').
Proof.
  intros H. apply prog_bind_inv in H as [H|(e & _ & H)]; [exact H | discriminate].
Qed.

(** ** The generator *)

Lemma rand_ok a u t :
  0 <= u < 1 ->
  rand {| arrays := a; fita := SRand u :: t |}
  = Some (Ok u, {| arrays := a; fita := t |}).
Proof.
  intros [H0 H1]. unfold rand. rewrite prog_bind_eq. simpl.
  now rewrite Rle_b_true, Rlt_b_true.
Qed.

Lemma rand_inv w r w' :
  rand w = Some (r, w') ->
  exists u, fita w = SRand u :: fita w' /\ 0 <= u < 1 /\ r = Ok u /\
            arrays w' = arrays w.
Proof.
  unfold rand. rewrite prog_bind_eq. unfold sortear.
  destruct (fita w) as [|[u|k|g|l] t] eqn:E; try discriminate.
  destruct (Rle_b_spec 0 u), (Rlt_b_spec u 1); simpl; try discriminate.
  intros H. inversion H; subst. exists u. simpl. repeat split; try assumption.
Qed.

Lemma randint_ok a low high k t :
  (low <= k < high)%nat ->
  randint low high {| arrays := a; fita := SRandInt k :: t |}
  = Some (Ok k, {| arrays := a; fita := t |}).
Proof.
  intros H. unfold randint.
  destruct (decide (low < high)%nat) as [_|Hn]; [|lia].
  rewrite prog_bind_eq. simpl.
  destruct (decide (low <= k < high)%nat); [reflexivity | contradiction].
Qed.

Lemma randint_fora a low high k t :
  ~ (low <= k < high)%nat -> (low < high)%nat ->
  randint low high {| arrays := a; fita := SRandInt k :: t |} = None.
Proof.
  intros H Hlt. unfold randint.
  destruct (decide (low < high)%nat) as [_|Hn]; [|lia].
  rewrite prog_bind_eq. simpl.
  destruct (decide (low <= k < high)%nat); [contradiction | reflexivity].
Qed.

Lemma randint_inv low high w r w' :
  randint low high w = Some (r, w') ->
  ((low < high)%nat /\
   exists k, fita w = SRandInt k :: fita w' /\ (low <= k < high)%nat /\
             r = Ok k /\ arrays w' = arrays w) \/
  ((high <= low)%nat /\ r = Erro ValueError /\ w' = w).
Proof.
  unfold randint. destruct (decide (low < high)%nat) as [Hlt|Hn].
  - rewrite prog_bind_eq. unfold sortear.
    destruct (fita w) as [|[u|k|g|l] t] eqn:E; try discriminate.
    destruct (decide (low <= k < high)%nat); [|discriminate].
    intros H. inversion H; subst. left. split; [assumption|].
    exists k. simpl. repeat split; (assumption || lia).
  - intros H. inversion H; subst. right. repeat split. lia.
Qed.

Lemma suporte_normal_b g :
  Rle_b (Rabs g) LIMITE_GAUSS = true <-> suporte_normal g.
Proof.
  unfold suporte_normal.
  destruct (Rle_b_spec (Rabs g) LIMITE_GAUSS); split; intros ?;
    try discriminate; try lra; reflexivity.
Qed.

Lemma normal_ok a loc scale g t :
  suporte_normal g ->
  normal loc scale {| arrays := a; fita := SNormal g :: t |}
  = Some (Ok (loc + scale * g), {| arrays := a; fita := t |}).
Proof.
  intros Hg. unfold normal. rewrite prog_bind_eq. simpl.
  now rewrite (proj2 (suporte_normal_b g) Hg).
Qed.

Lemma normal_fora a loc scale g t :
  ~ suporte_normal g ->
  normal loc scale {| arrays := a; fita := SNormal g :: t |} = None.
Proof.
  intros Hg. unfold normal. rewrite prog_bind_eq. simpl.
  destruct (Rle_b (Rabs g) LIMITE_GAUSS) eqn:E; [|reflexivity].
  apply suporte_normal_b in E. contradiction.
Qed.

Lemma choice_ok a n l t :
  (length l <= n)%nat -> NoDup l -> Forall (fun i => i < n)%nat l ->
  choice n (length l) {| arrays := a; fita := SChoice l :: t |}
  = Some (Ok l, {| arrays := a; fita := t |}).
Proof.
  intros Hle Hnd Hall. unfold choice.
  destruct (decide (length l <= n)%nat) as [_|Hn]; [|lia].
  rewrite prog_bind_eq. simpl.
  destruct (decide _) as [_|Hn]; [reflexivity|].
  exfalso. apply Hn. now repeat split.
Qed.

Lemma choice_erro n k w :
  (n < k)%nat -> choice n k w = Some (Erro ValueError, w).
Proof.
  intros H. unfold choice.
  destruct (decide (k <= n)%nat); [lia | reflexivity].
Qed.

Lemma choice_inv n k w r w' :
  choice n k w = Some (r, w') ->
  ((k <= n)%nat /\
   exists l, fita w = SChoice l :: fita w' /\ length l = k /\ NoDup l /\
             Forall (fun i => i < n)%nat l /\ r = Ok l /\
             arrays w' = arrays w) \/
  ((n < k)%nat /\ r = Erro ValueError /\ w' = w).
Proof.
  unfold choice. destruct (decide (k <= n)%nat) as [Hle|Hn].
  - rewrite prog_bind_eq. unfold sortear.
    destruct (fita w) as [|[u|j|g|l] t] eqn:E; try discriminate.
    destruct (decide _) as [(Hl & Hnd & Hall)|]; [|discriminate].
    intros H. inversion H; subst. left. split; [assumption|].
    exists l. simpl. now repeat split.
  - intros H. inversion H; subst. right. repeat split. lia.
Qed.

(** ** First maximum: Python's [max] and [np.argmax] *)

Lemma py_max_fold {A} (key : A -> resultado R) (k : A -> R) l :
  Forall (fun y => key y = Ok (k y)) l ->
  forall antes m meio,
    Forall (fun y => k y < k m) antes ->
    Forall (fun y => k y <= k m) meio ->
    exists m' antes' depois',
      foldM (fun (p : A * R) y =>
               ky ← key y; if Rlt_b (snd p) ky then Ok (y, ky) else Ok p)
            (m, k m) l = Ok (m', k m') /\
      primeiro_maximo k (antes ++ m :: meio ++ l) m' antes' depois'.
Proof.
  induction 1 as [|y l Hy Hl IH]; intros antes m meio Ha Hm.
  - exists m, antes, meio. split; [reflexivity|].
    rewrite app_nil_r. now repeat split.
  - rewrite foldM_cons, Hy, bind_Ok. simpl snd.
    destruct (Rlt_b_spec (k m) (k y)) as [Hlt|Hge]; rewrite bind_Ok.
    + destruct (IH (antes ++ m :: meio) y []) as (m' & a' & d' & E & P).
      * apply Forall_app. split; [|constructor].
        -- eapply Forall_impl; [exact Ha|]. intros z Hz. simpl in Hz. lra.
        -- exact Hlt.
        -- eapply Forall_impl; [exact Hm|]. intros z Hz. simpl in Hz. lra.
      * constructor.
      * exists m', a', d'. split; [exact E|].
        destruct P as (El & P1 & P2). split; [|now split].
        rewrite <- El. simpl. rewrite <- !app_assoc. reflexivity.
    + destruct (IH antes m (meio ++ [y]) Ha) as (m' & a' & d' & E & P).
      * apply Forall_app. split; [exact Hm|]. constructor; [lra | constructor].
      * exists m', a', d'. split; [exact E|].
        destruct P as (El & P1 & P2). split; [|now split].
        rewrite <- El. rewrite <- !app_assoc. reflexivity.
Qed.

Lemma py_max_key_primeiro {A} (key : A -> resultado R) (k : A -> R) l :
  l <> [] ->
  Forall (fun y => key y = Ok (k y)) l ->
  exists m antes depois,
    py_max_key key l = Ok m /\ primeiro_maximo k l m antes depois.
Proof.
  intros Hne Hl. destruct l as [|x l]; [contradiction|].
  inversion Hl as [|? ? Hx Hl']; subst.
  unfold py_max_key. rewrite Hx, bind_Ok.
  destruct (py_max_fold key k l Hl' [] x []) as (m & a & d & E & P);
    [constructor | constructor |].
  exists m, a, d. rewrite E. split; [reflexivity | exact P].
Qed.

Lemma argmax_desde_primeiro l : forall antes x meio,
  Forall (fun y => y < x) antes ->
  Forall (fun y => y <= x) meio ->
  exists antes' x' depois',
    np.argmax_desde l (length (antes ++ x :: meio)) (length antes) x
    = length antes' /\
    primeiro_maximo id (antes ++ x :: meio ++ l) x' antes' depois'.
Proof.
  induction l as [|y l IH]; intros antes x meio Ha Hm.
  - exists antes, x, meio. split; [reflexivity|].
    rewrite app_nil_r. now repeat split.
  - simpl np.argmax_desde.
    destruct (Rlt_b_spec x y) as [Hlt|Hge].
    + destruct (IH (antes ++ x :: meio) y []) as (a' & x' & d' & E & P).
      * apply Forall_app. split; [|constructor].
        -- eapply Forall_impl; [exact Ha|]. intros z Hz. simpl in Hz. lra.
        -- exact Hlt.
        -- eapply Forall_impl; [exact Hm|]. intros z Hz. simpl in Hz. lra.
      * constructor.
      * exists a', x', d'. split.
        -- rewrite <- E. f_equal. rewrite !length_app. simpl. lia.
        -- destruct P as (El & P1 & P2). split; [|now split].
           rewrite <- El. simpl. rewrite <- !app_assoc. reflexivity.
    + destruct (IH antes x (meio ++ [y]) Ha) as (a' & x' & d' & E & P).
      * apply Forall_app. split; [exact Hm|]. constructor; [lra | constructor].
      * exists a', x', d'. split.
        -- rewrite <- E. f_equal. rewrite !length_app. simpl.
           rewrite length_app. simpl. lia.
        -- destruct P as (El & P1 & P2). split; [|now split].
           rewrite <- El. rewrite <- !app_assoc. reflexivity.
Qed.

Lemma argmax_primeiro l :
  l <> [] ->
  exists antes x depois,
    np.argmax l = Ok (length antes) /\ primeiro_maximo id l x antes depois.
Proof.
  intros Hne. destruct l as [|x l]; [contradiction|].
  destruct (argmax_desde_primeiro l [] x []) as (a & x' & d & E & P);
    [constructor | constructor |].
  exists a, x', d. unfold np.argmax. simpl in E. rewrite E.
  split; [reflexivity | exact P].
Qed.

Lemma escolher_melhor_primeiro populacao aptidoes :
  aptidoes <> [] -> length aptidoes = length populacao ->
  exists antes x depois r,
    escolher_melhor populacao aptidoes = Ok r /\
    populacao !! length antes = Some r /\
    primeiro_maximo id aptidoes x antes depois.
Proof.
  intros Hne Hlen.
  destruct (argmax_primeiro aptidoes Hne) as (a & x & d & E & P).
  assert (Hi : (length a < length populacao)%nat).
  { destruct P as (-> & _). rewrite <- Hlen, length_app. simpl. lia. }
  destruct (lookup_lt_is_Some_2 populacao (length a) Hi) as [r Hr].
  exists a, x, d, r. unfold escolher_melhor. rewrite E, bind_Ok.
  unfold indexar. rewrite Hr. split; [reflexivity|]. split; [reflexivity | exact P].
Qed.

Lemma selecao_ok cfg populacao aptidoes selecionados a t :
  selecionados <> [] ->
  length selecionados = TAMANHO_TORNEIO cfg ->
  NoDup selecionados ->
  Forall (fun i => i < length populacao)%nat selecionados ->
  length aptidoes = length populacao ->
  exists antes m depois r,
    selecao cfg populacao aptidoes
            {| arrays := a; fita := SChoice selecionados :: t |}
    = Some (Ok r, {| arrays := a; fita := t |}) /\
    populacao !! m = Some r /\
    primeiro_maximo (fun i => nth i aptidoes 0) selecionados m antes depois.
Proof.
  intros Hne Hk Hnd Hall Hlen.
  assert (Hle : (length selecionados <= length populacao)%nat).
  { assert (Hs : selecionados ⊆+ seq 0 (length populacao)).
    { apply NoDup_submseteq; [exact Hnd|].
      intros i Hi. apply elem_of_seq. rewrite Forall_forall in Hall.
      specialize (Hall i Hi). lia. }
    apply submseteq_length in Hs. now rewrite length_seq in Hs. }
  destruct (py_max_key_primeiro (fun i => indexar aptidoes i)
              (fun i => nth i aptidoes 0) selecionados Hne)
    as (m & antes & depois & E & P).
  { eapply Forall_impl; [exact Hall|]. intros i Hi. simpl in Hi.
    apply indexar_ok. lia. }
  assert (Hm : (m < length populacao)%nat).
  { rewrite Forall_forall in Hall. apply Hall.
    destruct P as (-> & _). apply list_elem_of_In, in_elt. }
  destruct (lookup_lt_is_Some_2 populacao m Hm) as [r Hr].
  exists antes, m, depois, r. split; [|now split].
  unfold selecao. rewrite <- Hk.
  rewrite (prog_bind_Ok _ _ _ _ _ (choice_ok a _ _ t Hle Hnd Hall)).
  unfold puro at 1. rewrite prog_bind_eq, E.
  unfold puro, indexar. now rewrite Hr.
Qed.

Ltac decide_Rlt_b :=
  repeat first [ rewrite Rlt_b_true by lra | rewrite Rlt_b_false by lra
               | rewrite Rle_b_true by lra | rewrite Rle_b_false by lra ].

(** A tie between indices 1 and 2: [np.argmax] takes index 1; a tournament
    that draws 2 before 1 takes index 2. *)
Example escolher_melhor_empate :
  escolher_melhor [10; 11; 12; 13]%nat [1; 3; 3; 2] = Ok 11%nat.
Proof.
  unfold escolher_melhor, np.argmax. simpl np.argmax_desde. decide_Rlt_b.
  reflexivity.
Qed.

Example selecao_empate :
  selecao parametros_fonte [10; 11; 12; 13]%nat [1; 3; 3; 2]
          {| arrays := []; fita := [SChoice [0; 2; 1]%nat] |}
  = Some (Ok 12%nat, {| arrays := []; fita := [] |}).
Proof.
  unfold selecao.
  rewrite (prog_bind_Ok _ _ _ [0; 2; 1]%nat {| arrays := []; fita := [] |}).
  - unfold puro at 1. rewrite prog_bind_eq.
    unfold py_max_key, indexar. repeat (progress (simpl; decide_Rlt_b)).
    reflexivity.
  - apply (choice_ok [] 4 [0; 2; 1]%nat []); [simpl; lia | |].
    + apply (bool_decide_unpack _); vm_compute; exact I.
    + repeat constructor.
Qed.

(** * The claims about the choice of the best *)



(** ** Arrays in the store *)

Lemma ler_ok (r : ref) w c :
  arrays w !! r = Some c -> ler r w = Some (Ok c, w).
Proof. intros H. unfold ler. now rewrite H. Qed.

Lemma ler_item_ok (r : ref) i w c x :
  arrays w !! r = Some c -> c !! i = Some x ->
  ler_item r i w = Some (Ok x, w).
Proof.
  intros Hr Hi. unfold ler_item.
  rewrite (prog_bind_Ok _ _ _ _ _ (ler_ok r w c Hr)).
  unfold puro, indexar. now rewrite Hi.
Qed.

Lemma escrever_item_ok (r : ref) i v a t c :
  a !! r = Some c -> (i < length c)%nat ->
  escrever_item r i v {| arrays := a; fita := t |}
  = Some (Ok tt, {| arrays := <[r := <[i := v]> c]> a; fita := t |}).
Proof.
  intros Hr Hi. unfold escrever_item. simpl. rewrite Hr.
  destruct (decide (i < length c)%nat); [reflexivity | contradiction].
Qed.

(** ** Mutation *)

(** One turn of the loop, as a function of the head of the tape. *)
Lemma passo_mutacao_eq cfg (r : ref) i a t c x :
  a !! r = Some c -> c !! i = Some x ->
  passo_mutacao cfg r i {| arrays := a; fita := t |}
  = match t with
    | SRand u :: t1 =>
        if Rle_b 0 u && Rlt_b u 1 then
          if Rlt_b u (TAXA_MUTACAO cfg) then
            match t1 with
            | SNormal g :: t2 =>
                if Rle_b (Rabs g) LIMITE_GAUSS then
                  Some (Ok tt,
                        {| arrays := <[r := <[i := gene_mutado i x (0 + 0.2 * g)]>
                                               c]> a;
                           fita := t2 |})
                else None
            | _ => None
            end
          else Some (Ok tt, {| arrays := a; fita := t1 |})
        else None
    | _ => None
    end.
Proof.
  intros Hr Hi.
  assert (Hlt : (i < length c)%nat) by (eapply lookup_lt_Some; eauto).
  unfold passo_mutacao. rewrite prog_bind_eq.
  destruct t as [|[u|k|g|l] t1]; try reflexivity.
  destruct (Rle_b_spec 0 u) as [H0|H0], (Rlt_b_spec u 1) as [H1|H1];
    try (unfold rand; rewrite prog_bind_eq; simpl;
         first [ now rewrite (Rle_b_false 0 u) by lra
               | now rewrite (Rle_b_true 0 u), (Rlt_b_false u 1) by lra ]).
  rewrite rand_ok by lra. simpl andb.
  destruct (Rlt_b u (TAXA_MUTACAO cfg)); [|reflexivity].
  rewrite (prog_bind_Ok _ _ _ x {| arrays := a; fita := t1 |})
    by now apply ler_item_ok with c.
  rewrite prog_bind_eq.
  destruct t1 as [|[u'|k'|g0|l'] t2]; try reflexivity.
  destruct (Rle_b (Rabs g0) LIMITE_GAUSS) eqn:Hg0.
  2:{ rewrite normal_fora; [reflexivity|].
      intros Hs. apply suporte_normal_b in Hs. congruence. }
  rewrite normal_ok by now apply suporte_normal_b.
  set (g := 0 + 0.2 * g0).
  rewrite (prog_bind_Ok _ _ _ _ _ (escrever_item_ok r i (x + g) a t2 c Hr Hlt)).
  assert (Hr' : <[r := <[i := x + g]> c]> a !! r = Some (<[i := x + g]> c)).
  { apply list_lookup_insert_eq. eapply lookup_lt_Some; eauto. }
  rewrite (prog_bind_Ok _ _ _ (x + g)
             {| arrays := <[r := <[i := x + g]> c]> a; fita := t2 |}).
  2:{ apply ler_item_ok with (<[i := x + g]> c); [exact Hr'|].
      now apply list_lookup_insert_eq. }
  unfold gene_mutado.
  destruct (bool_decide (i mod 3 = 0)%nat && Rlt_b (x + g) RAIO_MINIMO).
  - rewrite (escrever_item_ok r i RAIO_MINIMO _ t2 _ Hr')
      by now rewrite length_insert.
    now rewrite list_insert_insert_eq, list_insert_insert_eq.
  - reflexivity.
Qed.

Lemma para_cons {A} (x : A) l (corpo : A -> prog unit) :
  para (x :: l) corpo = corpo x ≫= fun _ => para l corpo.
Proof. reflexivity. Qed.

(** The loop over the genes [antes ++ genes], from index [length antes]. *)
Lemma laco_mutacao_eq cfg (r : ref) genes : forall antes a t,
  a !! r = Some (antes ++ genes) ->
  para (seq (length antes) (length genes)) (passo_mutacao cfg r)
       {| arrays := a; fita := t |}
  = match consumir_mutacao (TAXA_MUTACAO cfg) (length antes) genes t with
    | Some (genes', t') =>
        Some (Ok tt, {| arrays := <[r := antes ++ genes']> a; fita := t' |})
    | None => None
    end.
Proof.
  induction genes as [|x resto IH]; intros antes a t Hr.
  - simpl. rewrite list_insert_id by exact Hr. reflexivity.
  - simpl length. simpl seq. rewrite para_cons, prog_bind_eq.
    rewrite (passo_mutacao_eq cfg r (length antes) a t _ x Hr)
      by (rewrite lookup_app_r, Nat.sub_diag by lia; reflexivity).
    simpl consumir_mutacao.
    destruct t as [|[u|k|g|l] t1]; try reflexivity.
    destruct (Rle_b 0 u && Rlt_b u 1); [|reflexivity].
    destruct (Rlt_b u (TAXA_MUTACAO cfg)).
    + destruct t1 as [|[u'|k'|g0|l'] t2]; try reflexivity.
      destruct (Rle_b (Rabs g0) LIMITE_GAUSS); [|reflexivity].
      set (g := 0 + 0.2 * g0).
      replace (<[length antes := gene_mutado (length antes) x g]>
                 (antes ++ x :: resto))
        with ((antes ++ [gene_mutado (length antes) x g]) ++ resto).
      2:{ rewrite insert_app_r_alt, Nat.sub_diag by lia.
          simpl. now rewrite <- app_assoc. }
      specialize (IH (antes ++ [gene_mutado (length antes) x g])).
      rewrite length_app in IH. simpl length in IH.
      replace (length antes + 1)%nat with (S (length antes)) in IH by lia.
      rewrite IH.
      2:{ apply list_lookup_insert_eq. eapply lookup_lt_Some; eauto. }
      destruct (consumir_mutacao _ _ resto t2) as [[resto' t']|];
        [|reflexivity].
      rewrite list_insert_insert_eq, <- app_assoc. reflexivity.
    + specialize (IH (antes ++ [x])).
      rewrite length_app in IH. simpl length in IH.
      replace (length antes + 1)%nat with (S (length antes)) in IH by lia.
      rewrite IH by now rewrite <- app_assoc.
      destruct (consumir_mutacao _ _ resto t1) as [[resto' t']|];
        [|reflexivity].
      rewrite <- app_assoc. reflexivity.
Qed.

Lemma mutacao_eq cfg (r : ref) a t c :
  a !! r = Some c ->
  mutacao cfg r {| arrays := a; fita := t |}
  = match consumir_mutacao (TAXA_MUTACAO cfg) 0 c t with
    | Some (c', t') =>
        Some (Ok r, {| arrays := <[r := c']> a; fita := t' |})
    | None => None
    end.
Proof.
  intros Hr. unfold mutacao.
  rewrite (prog_bind_Ok _ _ _ _ _ (ler_ok r {| arrays := a; fita := t |} c Hr)).
  rewrite prog_bind_eq.
  pose proof (laco_mutacao_eq cfg r c [] a t Hr) as E.
  cbn [length app] in E. rewrite E.
  now destruct (consumir_mutacao _ _ c t) as [[c' t']|].
Qed.

Lemma gene_mutado_raio i x g :
  (i mod 3 = 0)%nat ->
  gene_mutado i x g = Rmax (x + g) RAIO_MINIMO /\
  RAIO_MINIMO <= gene_mutado i x g.
Proof.
  intros Hi. unfold gene_mutado. rewrite bool_decide_eq_true_2 by exact Hi.
  simpl andb. unfold Rmax.
  destruct (Rlt_b_spec (x + g) RAIO_MINIMO), (Rle_dec (x + g) RAIO_MINIMO);
    split; lra.
Qed.

Lemma gene_mutado_outro i x g :
  (i mod 3 <> 0)%nat -> gene_mutado i x g = x + g.
Proof.
  intros Hi. unfold gene_mutado. now rewrite bool_decide_eq_false_2 by exact Hi.
Qed.

(** The noise of [np.random.normal(0, 0.2)] is at most 0.2 * 12.01 in
    magnitude. *)
Lemma ruido_limitado g : suporte_normal g -> Rabs (0.2 * g) <= 0.2 * LIMITE_GAUSS.
Proof.
  unfold suporte_normal. intros Hg.
  rewrite Rabs_mult, (Rabs_right 0.2) by lra.
  apply Rmult_le_compat_l; [lra | exact Hg].
Qed.

Lemma suporte_rand u : Rle_b 0 u && Rlt_b u 1 = true <-> em_0_1 u.
Proof.
  unfold em_0_1. rewrite andb_true_iff.
  destruct (Rle_b_spec 0 u), (Rlt_b_spec u 1); split; intros [? ?];
    try discriminate; try lra; split; (reflexivity || lra).
Qed.

(** Rate 0.0: the loop reads one uniform draw per gene and changes nothing. *)
Lemma consumir_taxa_0_inv genes : forall i t genes' t',
  consumir_mutacao 0 i genes t = Some (genes', t') ->
  genes' = genes /\
  exists us, length us = length genes /\ Forall em_0_1 us /\
             t = map SRand us ++ t'.
Proof.
  induction genes as [|x resto IH]; intros i t genes' t' H.
  - inversion H; subst. split; [reflexivity|]. exists []. now repeat split.
  - simpl in H. destruct t as [|[u|k|g|l] t1]; try discriminate.
    destruct (Rle_b 0 u && Rlt_b u 1) eqn:Hu; [|discriminate].
    apply suporte_rand in Hu. pose proof Hu as [Hu0 _].
    rewrite Rlt_b_false in H by exact Hu0.
    destruct (consumir_mutacao 0 (S i) resto t1) as [[resto' t'']|] eqn:E;
      [|discriminate].
    inversion H; subst. apply IH in E as (-> & us & Hlen & Hall & ->).
    split; [reflexivity|]. exists (u :: us). simpl. repeat split.
    + now rewrite Hlen.
    + now constructor.
Qed.

Lemma consumir_sem_mutar taxa genes : forall i us t,
  length us = length genes ->
  Forall (fun u => em_0_1 u /\ taxa <= u) us ->
  consumir_mutacao taxa i genes (map SRand us ++ t) = Some (genes, t).
Proof.
  induction genes as [|x resto IH]; intros i [|u us] t Hlen Hall;
    try discriminate; [reflexivity|].
  inversion Hall as [|? ? [Hu Ht] Hus]; subst. simpl.
  rewrite (proj2 (suporte_rand u) Hu).
  rewrite Rlt_b_false by exact Ht.
  rewrite IH; [reflexivity | simpl in Hlen; lia | assumption].
Qed.

Lemma consumir_taxa_0_run genes i us t :
  length us = length genes -> Forall em_0_1 us ->
  consumir_mutacao 0 i genes (map SRand us ++ t) = Some (genes, t).
Proof.
  intros Hlen Hall. apply consumir_sem_mutar; [exact Hlen|].
  eapply Forall_impl; [exact Hall|]. intros u Hu. split; [exact Hu|].
  now destruct Hu.
Qed.

(** Rate 1.0: every gene is perturbed by its own noise. *)
Lemma imap_desloca (i : nat) (g : R) (gs resto : list R) :
  imap ((fun j x => gene_mutado (i + j) x (0 + 0.2 * nth j (g :: gs) 0)) ∘ S)
       resto
  = imap (fun j x => gene_mutado (S i + j) x (0 + 0.2 * nth j gs 0)) resto.
Proof.
  apply imap_ext. intros j x _. simpl.
  replace (i + S j)%nat with (S (i + j)) by lia. reflexivity.
Qed.

Lemma consumir_taxa_1_inv genes : forall i t genes' t',
  consumir_mutacao 1 i genes t = Some (genes', t') ->
  exists us gs,
    length us = length genes /\ length gs = length genes /\
    Forall em_0_1 us /\ Forall suporte_normal gs /\
    t = fita_mutacao_total us gs ++ t' /\
    genes' = imap (fun j x => gene_mutado (i + j) x (0 + 0.2 * nth j gs 0))
                  genes.
Proof.
  induction genes as [|x resto IH]; intros i t genes' t' H.
  - inversion H; subst. exists [], []. now repeat split.
  - simpl in H. destruct t as [|[u|k|g|l] t1]; try discriminate.
    destruct (Rle_b 0 u && Rlt_b u 1) eqn:Hu; [|discriminate].
    apply suporte_rand in Hu. pose proof Hu as [_ Hu1].
    rewrite Rlt_b_true in H by exact Hu1.
    destruct t1 as [|[u'|k'|g|l'] t2]; try discriminate.
    destruct (Rle_b (Rabs g) LIMITE_GAUSS) eqn:Hg; [|discriminate].
    apply suporte_normal_b in Hg.
    destruct (consumir_mutacao 1 (S i) resto t2) as [[resto' t'']|] eqn:E;
      [|discriminate].
    inversion H; subst.
    apply IH in E as (us & gs & Hlu & Hlg & Hall & Hgs & -> & ->).
    exists (u :: us), (g :: gs). simpl length.
    split; [now rewrite Hlu|]. split; [now rewrite Hlg|].
    split; [now constructor|]. split; [now constructor|].
    split; [reflexivity|].
    rewrite imap_cons, imap_desloca. simpl nth.
    now rewrite Nat.add_0_r.
Qed.

Lemma consumir_taxa_1_run genes : forall i us gs t,
  length us = length genes -> length gs = length genes ->
  Forall em_0_1 us -> Forall suporte_normal gs ->
  consumir_mutacao 1 i genes (fita_mutacao_total us gs ++ t)
  = Some (imap (fun j x => gene_mutado (i + j) x (0 + 0.2 * nth j gs 0)) genes,
          t).
Proof.
  induction genes as [|x resto IH]; intros i [|u us] [|g gs] t Hlu Hlg Hall Hgs;
    try discriminate; [reflexivity|].
  inversion Hall as [|? ? Hu Hus]; subst.
  inversion Hgs as [|? ? Hg Hgs']; subst.
  rewrite imap_cons, imap_desloca. simpl nth. rewrite Nat.add_0_r.
  change (fita_mutacao_total (u :: us) (g :: gs) ++ t)
    with (SRand u :: SNormal g :: fita_mutacao_total us gs ++ t).
  cbn [consumir_mutacao].
  rewrite (proj2 (suporte_rand u) Hu).
  destruct Hu as [_ Hu1]. rewrite Rlt_b_true by exact Hu1.
  rewrite (proj2 (suporte_normal_b g) Hg).
  rewrite IH by (simpl in *; (lia || assumption)).
  reflexivity.
Qed.

(** * The claims about mutation *)

(** C8.  For every chromosome in the store: with mutation rate 0.0 every run
    of [mutacao] returns the same array with its genes unchanged (and such
    runs exist); with mutation rate 1.0 every run adds to each gene the
    noise drawn for it by [np.random.normal(0, 0.2)], that is
    [0 + 0.2 * g] (mean 0, standard deviation 0.2) for the gene's own
    standard normal variate [g], so it changes a position or current gene by
    at most [0.2 * LIMITE_GAUSS]; after the addition a radius gene (index a
    multiple of 3) that is below the minimum radius is set to it, so that
    every radius gene is at least the minimum, while position and current
    genes keep the perturbed value.  Every choice of variates within the
    support is the tape of such a run. *)
Theorem C8_mutacao_taxas_extremas (cfg : parametros) (r : ref) (c : list R)
    (a : list (list R)) :
  a !! r = Some c ->
  (TAXA_MUTACAO cfg = 0.0 ->
   (forall t res w',
      mutacao cfg r {| arrays := a; fita := t |} = Some (res, w') ->
      res = Ok r /\ arrays w' = a) /\
   (forall us t,
      length us = length c -> Forall em_0_1 us ->
      mutacao cfg r {| arrays := a; fita := map SRand us ++ t |}
      = Some (Ok r, {| arrays := a; fita := t |}))) /\
  (TAXA_MUTACAO cfg = 1.0 ->
   (forall t res w',
      mutacao cfg r {| arrays := a; fita := t |} = Some (res, w') ->
      exists us gs,
        length gs = length c /\
        Forall suporte_normal gs /\
        t = fita_mutacao_total us gs ++ fita w' /\
        res = Ok r /\
        arrays w'
        = <[r := imap (fun i x => gene_mutado i x (0 + 0.2 * nth i gs 0)) c]>
            a) /\
   (forall us gs t,
      length us = length c -> length gs = length c ->
      Forall em_0_1 us -> Forall suporte_normal gs ->
      mutacao cfg r {| arrays := a; fita := fita_mutacao_total us gs ++ t |}
      = Some (Ok r,
              {| arrays := <[r := imap (fun i x =>
                                          gene_mutado i x (0 + 0.2 * nth i gs 0))
                                       c]> a;
                 fita := t |})) /\
   (forall i x g,
      ((i mod 3 = 0)%nat ->
       gene_mutado i x (0 + 0.2 * g) = Rmax (x + 0.2 * g) RAIO_MINIMO /\
       RAIO_MINIMO <= gene_mutado i x (0 + 0.2 * g)) /\
      ((i mod 3 <> 0)%nat ->
       gene_mutado i x (0 + 0.2 * g) = x + 0.2 * g /\
       (suporte_normal g ->
        Rabs (gene_mutado i x (0 + 0.2 * g) - x) <= 0.2 * LIMITE_GAUSS)))).
Proof.
  intros Hr. split; intros Htaxa.
  - replace 0.0 with 0 in Htaxa by lra. split.
    + intros t res w' H. rewrite (mutacao_eq cfg r a t c Hr), Htaxa in H.
      destruct (consumir_mutacao 0 0 c t) as [[c' t']|] eqn:E; [|discriminate].
      apply consumir_taxa_0_inv in E as (-> & _).
      inversion H; subst. simpl. split; [reflexivity|].
      now apply list_insert_id.
    + intros us t Hlen Hall.
      rewrite (mutacao_eq cfg r a _ c Hr), Htaxa.
      rewrite consumir_taxa_0_run by assumption.
      now rewrite list_insert_id.
  - replace 1.0 with 1 in Htaxa by lra. split; [|split].
    + intros t res w' H. rewrite (mutacao_eq cfg r a t c Hr), Htaxa in H.
      destruct (consumir_mutacao 1 0 c t) as [[c' t']|] eqn:E; [|discriminate].
      apply consumir_taxa_1_inv in E as (us & gs & _ & Hlg & _ & Hgs & -> & ->).
      inversion H; subst. exists us, gs. simpl. now repeat split.
    + intros us gs t Hlu Hlg Hall Hgs.
      rewrite (mutacao_eq cfg r a _ c Hr), Htaxa.
      now rewrite consumir_taxa_1_run by assumption.
    + intros i x g. split.
      * intros Hi. replace (x + 0.2 * g) with (x + (0 + 0.2 * g)) by lra.
        now apply gene_mutado_raio.
      * intros Hi. rewrite gene_mutado_outro by exact Hi.
        split; [lra|]. intros Hg.
        replace (x + (0 + 0.2 * g) - x) with (0.2 * g) by lra.
        now apply ruido_limitado.
Qed.

Lemma C8_witness :
  [c_forte] !! 0%nat = Some c_forte /\
  mutacao (com_taxa_mutacao 0.0) 0%nat
          {| arrays := [c_forte];
             fita := map SRand (replicate 18 0.5) ++ [] |}
  = Some (Ok 0%nat, {| arrays := [c_forte]; fita := [] |}) /\
  mutacao (com_taxa_mutacao 1.0) 0%nat
          {| arrays := [c_forte];
             fita := fita_mutacao_total (replicate 18 0.5) (replicate 18 (-5))
                     ++ [] |}
  = Some (Ok 0%nat,
          {| arrays := <[0%nat := imap (fun i x =>
                                   gene_mutado i x
                                     (0 + 0.2 * nth i (replicate 18 (-5)) 0))
                                   c_forte]>
                         [c_forte];
             fita := [] |}).
Proof.
  assert (Hu : Forall em_0_1 (replicate 18 0.5)).
  { apply Forall_replicate. unfold em_0_1. lra. }
  assert (Hg : Forall suporte_normal (replicate 18 (-5))).
  { apply Forall_replicate. unfold suporte_normal, LIMITE_GAUSS.
    rewrite Rabs_left by lra. lra. }
  split; [reflexivity|]. split.
  - apply (proj2 (proj1 (C8_mutacao_taxas_extremas (com_taxa_mutacao 0.0) 0%nat
                           c_forte [c_forte] eq_refl) eq_refl));
      [reflexivity | exact Hu].
  - apply (proj1 (proj2 (proj2 (C8_mutacao_taxas_extremas
                           (com_taxa_mutacao 1.0) 0%nat c_forte [c_forte] eq_refl)
                           eq_refl)));
      [reflexivity | reflexivity | exact Hu | exact Hg].
Defined.

(** After the mutation at rate 1.0 with the variate -5 (noise -1) on every
    gene, the radii of [c_forte] (all 1) are clamped to 0.5 and the first
    position is -2. *)
Example mutacao_total_c_forte :
  take 4 (imap (fun i x => gene_mutado i x (0 + 0.2 * nth i (replicate 18 (-5)) 0))
               c_forte)
  = [RAIO_MINIMO; -1 + (0 + 0.2 * -5); 1e7 + (0 + 0.2 * -5); RAIO_MINIMO].
Proof.
  unfold c_forte, gene_mutado, RAIO_MINIMO. simpl. decide_Rlt_b. reflexivity.
Qed.

(** ** Crossover *)

Lemma novo_eq c a t :
  novo c {| arrays := a; fita := t |}
  = Some (Ok (length a), {| arrays := a ++ [c]; fita := t |}).
Proof. reflexivity. Qed.

(** No crossing: the two results are the parents themselves, the very
    arrays of the store, not copies. *)
Lemma cruzamento_sem_corte cfg (pai1 pai2 : ref) a u t :
  em_0_1 u -> TAXA_CRUZAMENTO cfg <= u ->
  cruzamento cfg pai1 pai2 {| arrays := a; fita := SRand u :: t |}
  = Some (Ok (pai1, pai2), {| arrays := a; fita := t |}).
Proof.
  intros Hu Ht. unfold cruzamento.
  rewrite (prog_bind_Ok _ _ _ _ _ (rand_ok a u t Hu)).
  now rewrite Rlt_b_false.
Qed.

(** Crossing at [ponto]: two new arrays, appended to the store. *)
Lemma cruzamento_com_corte cfg (pai1 pai2 : ref) a p1 p2 u ponto t :
  em_0_1 u -> u < TAXA_CRUZAMENTO cfg ->
  a !! pai1 = Some p1 -> a !! pai2 = Some p2 ->
  (1 <= ponto < length p1 - 1)%nat ->
  cruzamento cfg pai1 pai2
             {| arrays := a; fita := SRand u :: SRandInt ponto :: t |}
  = Some (Ok (length a, S (length a)),
          {| arrays := a ++ [take ponto p1 ++ drop ponto p2;
                             take ponto p2 ++ drop ponto p1];
             fita := t |}).
Proof.
  intros Hu Ht H1 H2 Hp. unfold cruzamento.
  rewrite (prog_bind_Ok _ _ _ _ _ (rand_ok a u _ Hu)).
  rewrite Rlt_b_true by exact Ht.
  rewrite (prog_bind_Ok _ _ _ p1 {| arrays := a; fita := SRandInt ponto :: t |})
    by now apply ler_ok.
  rewrite (prog_bind_Ok _ _ _ p2 {| arrays := a; fita := SRandInt ponto :: t |})
    by now apply ler_ok.
  rewrite (prog_bind_Ok _ _ _ _ _ (randint_ok a 1 _ ponto t Hp)).
  rewrite (prog_bind_Ok _ _ _ _ _ (novo_eq _ a t)).
  rewrite (prog_bind_Ok _ _ _ _ _ (novo_eq _ (a ++ [_]) t)).
  rewrite length_app, <- app_assoc. simpl.
  replace (length a + 1)%nat with (S (length a)) by lia. reflexivity.
Qed.

(** A cut outside [[1, length - 2]] is not an outcome of the draw. *)
Lemma cruzamento_fora cfg (pai1 pai2 : ref) a p1 p2 u ponto t :
  em_0_1 u -> u < TAXA_CRUZAMENTO cfg ->
  a !! pai1 = Some p1 -> a !! pai2 = Some p2 ->
  (3 <= length p1)%nat ->
  ~ (1 <= ponto < length p1 - 1)%nat ->
  cruzamento cfg pai1 pai2
             {| arrays := a; fita := SRand u :: SRandInt ponto :: t |}
  = None.
Proof.
  intros Hu Ht H1 H2 Hl Hp. unfold cruzamento.
  rewrite (prog_bind_Ok _ _ _ _ _ (rand_ok a u _ Hu)).
  rewrite Rlt_b_true by exact Ht.
  rewrite (prog_bind_Ok _ _ _ p1 {| arrays := a; fita := SRandInt ponto :: t |})
    by now apply ler_ok.
  rewrite (prog_bind_Ok _ _ _ p2 {| arrays := a; fita := SRandInt ponto :: t |})
    by now apply ler_ok.
  rewrite prog_bind_eq, randint_fora; [reflexivity | exact Hp | lia].
Qed.

(** Every run of [cruzamento] on parents in the store. *)
Lemma cruzamento_inv cfg (pai1 pai2 : ref) w p1 p2 r w' :
  arrays w !! pai1 = Some p1 -> arrays w !! pai2 = Some p2 ->
  cruzamento cfg pai1 pai2 w = Some (r, w') ->
  exists u, em_0_1 u /\
    ((TAXA_CRUZAMENTO cfg <= u /\ fita w = SRand u :: fita w' /\
      r = Ok (pai1, pai2) /\ arrays w' = arrays w) \/
     (u < TAXA_CRUZAMENTO cfg /\
      exists ponto, (1 <= ponto < length p1 - 1)%nat /\
        fita w = SRand u :: SRandInt ponto :: fita w' /\
        r = Ok (length (arrays w), S (length (arrays w))) /\
        arrays w' = arrays w ++ [take ponto p1 ++ drop ponto p2;
                                 take ponto p2 ++ drop ponto p1]) \/
     (u < TAXA_CRUZAMENTO cfg /\ (length p1 - 1 <= 1)%nat /\
      fita w = SRand u :: fita w' /\ r = Erro ValueError /\
      arrays w' = arrays w)).
Proof.
  intros H1 H2 H. destruct w as [a t]. simpl in *.
  unfold cruzamento in H.
  apply prog_bind_inv in H as [(u & w1 & Hrand & H)|(e & Hrand & _)].
  2:{ apply rand_inv in Hrand as (? & _ & _ & ? & _). discriminate. }
  apply rand_inv in Hrand as (u' & Ht & Hu & Eu & Ha).
  inversion Eu; subst u'. destruct w1 as [a1 t1]. simpl in *. subst a1 t.
  exists u. split; [exact Hu|].
  destruct (Rlt_b_spec u (TAXA_CRUZAMENTO cfg)) as [Hlt|Hge].
  - right.
    rewrite (prog_bind_Ok _ _ _ p1 {| arrays := a; fita := t1 |}) in H
      by now apply ler_ok.
    rewrite (prog_bind_Ok _ _ _ p2 {| arrays := a; fita := t1 |}) in H
      by now apply ler_ok.
    apply prog_bind_inv in H as [(k & w2 & Hint & H)|(e & Hint & ->)].
    + apply randint_inv in Hint as [(_ & k' & Ht & Hk & Ek & Ha)|(_ & ? & _)];
        [|discriminate].
      inversion Ek; subst k'. destruct w2 as [a2 t2]. simpl in *. subst a2 t1.
      left. split; [exact Hlt|]. exists k. split; [exact Hk|].
      rewrite (prog_bind_Ok _ _ _ _ _ (novo_eq _ a t2)) in H.
      rewrite (prog_bind_Ok _ _ _ _ _ (novo_eq _ (a ++ [_]) t2)) in H.
      inversion H; subst. simpl. rewrite length_app, <- app_assoc. simpl.
      replace (length a + 1)%nat with (S (length a)) by lia. now repeat split.
    + apply randint_inv in Hint as [(_ & k' & _ & _ & ? & _)|(Hle & He & Hw)];
        [discriminate|].
      right. inversion He; subst. simpl. now repeat split.
  - left. inversion H; subst. simpl. repeat split; (reflexivity || lra).
Qed.

Lemma filho_length {A} ponto (p1 p2 : list A) :
  length p1 = length p2 ->
  length (take ponto p1 ++ drop ponto p2) = length p1.
Proof. intros H. rewrite length_app, length_take, length_drop. lia. Qed.

(** ** Evaluation of a population *)

Lemma mapM_prog_cons {A B} (f : A -> prog B) x l :
  mapM f (x :: l) = f x ≫= fun y => mapM f l ≫= fun k => mret (y :: k).
Proof. reflexivity. Qed.

Lemma aptidao_valor_ok c :
  length c = (3 * NUM_BOBINAS)%nat -> calcular_aptidao c = Ok (aptidao_valor c).
Proof.
  intros Hl. destruct (calcular_aptidao_total c Hl) as [v Hv].
  unfold aptidao_valor. now rewrite Hv.
Qed.

Lemma avaliar_ok populacao a t :
  Forall (cromossomo_em a) populacao ->
  avaliar populacao {| arrays := a; fita := t |}
  = Some (Ok (map (fun r => aptidao_valor (nth r a [])) populacao),
          {| arrays := a; fita := t |}).
Proof.
  unfold avaliar. induction 1 as [|r pop (c & Hr & Hl) Hpop IH].
  - reflexivity.
  - rewrite mapM_prog_cons.
    rewrite (prog_bind_Ok _ _ _ (aptidao_valor c) {| arrays := a; fita := t |}).
    + rewrite (prog_bind_Ok _ _ _ _ _ IH). simpl map.
      now rewrite (nth_lookup_Some _ _ _ _ Hr).
    + rewrite (prog_bind_Ok _ _ _ c {| arrays := a; fita := t |})
        by now apply ler_ok.
      unfold puro. now rewrite aptidao_valor_ok.
Qed.

(** ** A tournament among equal fitness values *)

Lemma selecao_todos_iguais cfg populacao v s resto (r : ref) a t :
  length (s :: resto) = TAMANHO_TORNEIO cfg ->
  NoDup (s :: resto) ->
  Forall (fun i => i < length populacao)%nat (s :: resto) ->
  populacao !! s = Some r ->
  selecao cfg populacao (replicate (length populacao) v)
          {| arrays := a; fita := SChoice (s :: resto) :: t |}
  = Some (Ok r, {| arrays := a; fita := t |}).
Proof.
  intros Hk Hnd Hall Hs.
  destruct (selecao_ok cfg populacao (replicate (length populacao) v)
              (s :: resto) a t) as (antes & m & depois & r' & E & Hm & P);
    try assumption; [discriminate | apply length_replicate |].
  destruct P as (El & Hantes & _).
  destruct antes as [|y antes].
  - simpl in El. assert (m = s) by congruence. subst m. rewrite Hs in Hm.
    assert (r' = r) by congruence. subst r'. exact E.
  - exfalso. inversion Hantes as [|? ? Hy _]; subst.
    rewrite Forall_forall in Hall.
    assert (Hy' : (y < length populacao)%nat).
    { apply Hall. rewrite El. apply list_elem_of_here. }
    assert (Hm' : (m < length populacao)%nat).
    { apply Hall. rewrite El. apply list_elem_of_In, in_elt. }
    rewrite !(nth_lookup_Some _ _ _ v) in Hy
      by (apply lookup_replicate_2; assumption).
    lra.
Qed.

Lemma selecao_erro cfg populacao aptidoes w :
  (length populacao < TAMANHO_TORNEIO cfg)%nat ->
  selecao cfg populacao aptidoes w = Some (Erro ValueError, w).
Proof.
  intros H. unfold selecao.
  now rewrite (prog_bind_Erro _ _ _ _ _ (choice_erro _ _ w H)).
Qed.

Lemma selecao_arrays cfg populacao aptidoes w r w' :
  selecao cfg populacao aptidoes w = Some (r, w') -> arrays w' = arrays w.
Proof.
  unfold selecao. intros H.
  apply prog_bind_inv in H as [(sel & w1 & Hc & H)|(e & Hc & _)].
  - apply choice_inv in Hc as [(_ & l & _ & _ & _ & _ & _ & Ha)|(_ & ? & _)];
      [|discriminate].
    rewrite <- Ha. unfold puro in H. rewrite prog_bind_eq in H.
    destruct (py_max_key _ sel); inversion H; reflexivity.
  - apply choice_inv in Hc as [(_ & l & _ & _ & _ & _ & ? & _)|(_ & _ & ->)];
      [discriminate | reflexivity].
Qed.

(** ** Mutation at the source's rate *)

Lemma mutacao_sem_mutar cfg (r : ref) a c us t :
  a !! r = Some c ->
  length us = length c ->
  Forall (fun u => em_0_1 u /\ TAXA_MUTACAO cfg <= u) us ->
  mutacao cfg r {| arrays := a; fita := map SRand us ++ t |}
  = Some (Ok r, {| arrays := a; fita := t |}).
Proof.
  intros Hr Hlen Hall. rewrite (mutacao_eq cfg r a _ c Hr).
  rewrite consumir_sem_mutar by assumption.
  now rewrite list_insert_id.
Qed.

Lemma mutacao_primeiro_gene cfg (r : ref) a x resto u g us t :
  a !! r = Some (x :: resto) ->
  em_0_1 u -> u < TAXA_MUTACAO cfg -> suporte_normal g ->
  length us = length resto ->
  Forall (fun u => em_0_1 u /\ TAXA_MUTACAO cfg <= u) us ->
  mutacao cfg r {| arrays := a;
                   fita := SRand u :: SNormal g :: map SRand us ++ t |}
  = Some (Ok r, {| arrays := <[r := gene_mutado 0 x (0 + 0.2 * g) :: resto]> a;
                   fita := t |}).
Proof.
  intros Hr Hu Ht Hg Hlen Hall. rewrite (mutacao_eq cfg r a _ _ Hr).
  cbn [consumir_mutacao].
  rewrite (proj2 (suporte_rand u) Hu), Rlt_b_true by exact Ht.
  rewrite (proj2 (suporte_normal_b g) Hg).
  now rewrite consumir_sem_mutar by assumption.
Qed.

Lemma suporte_normal_15 : suporte_normal 1.5.
Proof. unfold suporte_normal, LIMITE_GAUSS. rewrite Rabs_right; lra. Qed.

(** ** Initialization *)

Lemma rand_vetor_ok us : forall a t,
  Forall em_0_1 us ->
  rand_vetor (length us) {| arrays := a; fita := map SRand us ++ t |}
  = Some (Ok us, {| arrays := a; fita := t |}).
Proof.
  induction us as [|u us IH]; intros a t Hall; [reflexivity|].
  inversion Hall as [|? ? Hu Hus]; subst.
  cbn [length map app rand_vetor].
  rewrite (prog_bind_Ok _ _ _ _ _ (rand_ok a u _ Hu)).
  now rewrite (prog_bind_Ok _ _ _ _ _ (IH a t Hus)).
Qed.

Lemma rand_vetor_inv n : forall w r w',
  rand_vetor n w = Some (r, w') ->
  exists us, r = Ok us /\ length us = n /\ arrays w' = arrays w.
Proof.
  induction n as [|n IH]; intros w r w' H.
  - inversion H; subst. now exists [].
  - cbn [rand_vetor] in H.
    apply prog_bind_inv in H as [(u & w1 & Hr & H)|(e & Hr & _)].
    2:{ apply rand_inv in Hr as (? & _ & _ & ? & _). discriminate. }
    apply rand_inv in Hr as (_ & _ & _ & _ & Ha1).
    apply prog_bind_inv in H as [(us & w2 & Hv & H)|(e & Hv & _)].
    2:{ apply IH in Hv as (? & ? & _). discriminate. }
    apply IH in Hv as (us' & Eus & Hlen & Ha2). inversion Eus; subst us'.
    inversion H; subst. exists (u :: us). simpl. repeat split. congruence.
Qed.

Lemma sorteio_nulo_c_inicial :
  atribuir_fatia 2 (fun x => x * 9e6 + 1e6)
    (atribuir_fatia 1 (fun x => x * 4 - 2)
       (atribuir_fatia 0 (fun x => x * (2.0 - RAIO_MINIMO) + RAIO_MINIMO)
          (replicate (NUM_BOBINAS * 3) 0)))
  = c_inicial.
Proof.
  unfold atribuir_fatia, c_inicial, RAIO_MINIMO. simpl.
  repeat (f_equal; try lra).
Qed.

Lemma laco_inicializar_nulo n : forall populacao a t,
  laco_inicializar n populacao
                   {| arrays := a; fita := fita_sorteio_nulo n ++ t |}
  = Some (Ok (populacao ++ seq (length a) n),
          {| arrays := a ++ replicate n c_inicial; fita := t |}).
Proof.
  induction n as [|n IH]; intros pop a t.
  - simpl. now rewrite !app_nil_r.
  - cbn [laco_inicializar]. unfold fita_sorteio_nulo.
    cbn [replicate concat]. rewrite <- app_assoc.
    fold (fita_sorteio_nulo n).
    pose proof (rand_vetor_ok (replicate (NUM_BOBINAS * 3) 0) a
                  (fita_sorteio_nulo n ++ t)) as Hv.
    rewrite length_replicate in Hv.
    rewrite (prog_bind_Ok _ _ _ _ _ (Hv ltac:(apply Forall_replicate;
                                             unfold em_0_1; lra))).
    rewrite sorteio_nulo_c_inicial.
    rewrite (prog_bind_Ok _ _ _ _ _ (novo_eq _ a _)).
    rewrite IH. rewrite length_app. simpl length.
    rewrite <- !app_assoc. simpl.
    replace (length a + 1)%nat with (S (length a)) by lia. reflexivity.
Qed.

Lemma inicializar_populacao_nulo cfg t :
  inicializar_populacao cfg
    {| arrays := []; fita := fita_sorteio_nulo (TAMANHO_POPULACAO cfg) ++ t |}
  = Some (Ok (seq 0 (TAMANHO_POPULACAO cfg)),
          {| arrays := replicate (TAMANHO_POPULACAO cfg) c_inicial;
             fita := t |}).
Proof. unfold inicializar_populacao. now rewrite laco_inicializar_nulo. Qed.

Lemma laco_inicializar_inv n : forall populacao w r w',
  laco_inicializar n populacao w = Some (r, w') ->
  exists populacao', r = Ok populacao' /\
                     length populacao' = (length populacao + n)%nat.
Proof.
  induction n as [|n IH]; intros pop w r w' H.
  - inversion H; subst. exists pop. split; [reflexivity | lia].
  - cbn [laco_inicializar] in H.
    apply prog_bind_inv in H as [(us & w1 & Hv & H)|(e & Hv & _)].
    2:{ apply rand_vetor_inv in Hv as (? & ? & _). discriminate. }
    destruct w1 as [a1 t1]. rewrite (prog_bind_Ok _ _ _ _ _ (novo_eq _ a1 t1)) in H.
    apply IH in H as (pop' & -> & Hlen). exists pop'. split; [reflexivity|].
    rewrite length_app in Hlen. simpl in Hlen. lia.
Qed.

(** ** One generation *)

Lemma reproduzir_par_length cfg populacao aptidoes nova w nova' w' :
  reproduzir_par cfg populacao aptidoes nova w = Some (Ok nova', w') ->
  length nova' = (length nova + 2)%nat.
Proof.
  unfold reproduzir_par. intros H.
  apply prog_bind_inv_Ok in H as (pai1 & w1 & _ & H).
  apply prog_bind_inv_Ok in H as (pai2 & w2 & _ & H).
  apply prog_bind_inv_Ok in H as (filhos & w3 & _ & H).
  apply prog_bind_inv_Ok in H as (m1 & w4 & _ & H).
  apply prog_bind_inv_Ok in H as (m2 & w5 & _ & H).
  inversion H; subst. rewrite !length_app. simpl. lia.
Qed.

Lemma laco_reproduzir_length cfg n populacao aptidoes :
  forall nova w nova' w',
  laco_reproduzir cfg n populacao aptidoes nova w = Some (Ok nova', w') ->
  length nova' = (length nova + 2 * n)%nat.
Proof.
  induction n as [|n IH]; intros nova w nova' w' H.
  - inversion H; subst. lia.
  - cbn [laco_reproduzir] in H.
    apply prog_bind_inv_Ok in H as (nova1 & w1 & Hp & H).
    apply reproduzir_par_length in Hp. apply IH in H. lia.
Qed.

Lemma passo_geracao_length cfg geracao populacao w populacao' w' :
  passo_geracao cfg geracao populacao w = Some (Ok populacao', w') ->
  length populacao' = (2 * (TAMANHO_POPULACAO cfg / 2))%nat.
Proof.
  unfold passo_geracao. intros H.
  apply prog_bind_inv_Ok in H as (aptidoes & w1 & _ & H).
  apply prog_bind_inv_Ok in H as (nova & w2 & Hl & H).
  apply prog_bind_inv_Ok in H as (? & w3 & _ & H).
  inversion H; subst. apply laco_reproduzir_length in Hl. exact Hl.
Qed.

Lemma passo_geracao_erro cfg geracao populacao w :
  (length populacao < TAMANHO_TORNEIO cfg)%nat ->
  (2 <= TAMANHO_POPULACAO cfg)%nat ->
  Forall (cromossomo_em (arrays w)) populacao ->
  passo_geracao cfg geracao populacao w = Some (Erro ValueError, w).
Proof.
  intros Ht Hp Hpop. destruct w as [a t]. unfold passo_geracao.
  rewrite (prog_bind_Ok _ _ _ _ _ (avaliar_ok populacao a t Hpop)).
  destruct (TAMANHO_POPULACAO cfg / 2)%nat as [|n] eqn:En.
  { exfalso. apply Nat.div_small_iff in En; lia. }
  rewrite (prog_bind_Erro _ _ _ ValueError {| arrays := a; fita := t |});
    [reflexivity|].
  cbn [laco_reproduzir].
  rewrite (prog_bind_Erro _ _ _ ValueError {| arrays := a; fita := t |});
    [reflexivity|].
  unfold reproduzir_par.
  now rewrite (prog_bind_Erro _ _ _ _ _ (selecao_erro cfg _ _ _ Ht)).
Qed.

(** ** Two runs on a population of equal chromosomes *)

Lemma moedas_sem_mutar cfg n :
  TAXA_MUTACAO cfg <= 0.5 ->
  Forall (fun u => em_0_1 u /\ TAXA_MUTACAO cfg <= u) (replicate n 0.5).
Proof.
  intros H. apply Forall_replicate. unfold em_0_1. split; [lra | exact H].
Qed.

Lemma c_inicial_length : length c_inicial = (3 * NUM_BOBINAS)%nat.
Proof. reflexivity. Qed.

Lemma populacao_inicial_em n populacao :
  Forall (fun r => r < n)%nat populacao ->
  Forall (cromossomo_em (replicate n c_inicial)) populacao.
Proof.
  intros H. eapply Forall_impl; [exact H|]. intros r Hr. simpl in Hr.
  exists c_inicial. split; [now apply lookup_replicate_2 | reflexivity].
Qed.

Lemma avaliar_populacao_inicial n populacao t :
  Forall (fun r => r < n)%nat populacao ->
  avaliar populacao {| arrays := replicate n c_inicial; fita := t |}
  = Some (Ok (replicate (length populacao) (aptidao_valor c_inicial)),
          {| arrays := replicate n c_inicial; fita := t |}).
Proof.
  intros H. rewrite avaliar_ok by now apply populacao_inicial_em.
  do 3 f_equal. induction H as [|r pop Hr Hpop IH]; [reflexivity|].
  simpl. rewrite IH. f_equal.
  now rewrite (nth_lookup_Some _ _ _ c_inicial)
    by now apply lookup_replicate_2.
Qed.

(** A turn of the inner loop that skips the crossover and mutates nothing
    appends the two selected parents themselves. *)
Lemma reproduzir_par_sem_mudanca cfg populacao v s1 r1 s2 r2 (p1 p2 : ref)
    a c1 c2 nova t :
  TAXA_CRUZAMENTO cfg <= 0.9 -> TAXA_MUTACAO cfg <= 0.5 ->
  length (s1 :: r1) = TAMANHO_TORNEIO cfg -> NoDup (s1 :: r1) ->
  Forall (fun i => i < length populacao)%nat (s1 :: r1) ->
  length (s2 :: r2) = TAMANHO_TORNEIO cfg -> NoDup (s2 :: r2) ->
  Forall (fun i => i < length populacao)%nat (s2 :: r2) ->
  populacao !! s1 = Some p1 -> populacao !! s2 = Some p2 ->
  a !! p1 = Some c1 -> length c1 = 18%nat ->
  a !! p2 = Some c2 -> length c2 = 18%nat ->
  reproduzir_par cfg populacao (replicate (length populacao) v) nova
    {| arrays := a; fita := fita_par_sem_mudanca (s1 :: r1) (s2 :: r2) ++ t |}
  = Some (Ok (nova ++ [p1] ++ [p2]), {| arrays := a; fita := t |}).
Proof.
  intros Hc Hm Hk1 Hn1 Hf1 Hk2 Hn2 Hf2 Hp1 Hp2 Ha1 Hl1 Ha2 Hl2.
  unfold reproduzir_par, fita_par_sem_mudanca.
  rewrite <- !app_assoc. cbn [app].
  rewrite (prog_bind_Ok _ _ _ _ _
             (selecao_todos_iguais cfg populacao v s1 r1 p1 a _ Hk1 Hn1 Hf1 Hp1)).
  rewrite (prog_bind_Ok _ _ _ _ _
             (selecao_todos_iguais cfg populacao v s2 r2 p2 a _ Hk2 Hn2 Hf2 Hp2)).
  rewrite (prog_bind_Ok _ _ _ _ _
             (cruzamento_sem_corte cfg p1 p2 a 0.9 _
                ltac:(unfold em_0_1; lra) Hc)).
  cbn [fst snd].
  rewrite (prog_bind_Ok _ _ _ _ _
             (mutacao_sem_mutar cfg p1 a c1 (replicate 18 0.5) _ Ha1
                ltac:(now rewrite length_replicate)
                (moedas_sem_mutar cfg 18 Hm))).
  rewrite (prog_bind_Ok _ _ _ _ _
             (mutacao_sem_mutar cfg p2 a c2 (replicate 18 0.5) _ Ha2
                ltac:(now rewrite length_replicate)
                (moedas_sem_mutar cfg 18 Hm))).
  reflexivity.
Qed.

(** The same turn when the first gene of the first child is perturbed: the
    array of the first parent is updated in place. *)
Lemma reproduzir_par_muta_gene_0 cfg populacao v s1 r1 s2 r2 (p1 p2 : ref)
    a x resto c2 nova t :
  TAXA_CRUZAMENTO cfg <= 0.9 -> 0 < TAXA_MUTACAO cfg <= 0.5 ->
  length (s1 :: r1) = TAMANHO_TORNEIO cfg -> NoDup (s1 :: r1) ->
  Forall (fun i => i < length populacao)%nat (s1 :: r1) ->
  length (s2 :: r2) = TAMANHO_TORNEIO cfg -> NoDup (s2 :: r2) ->
  Forall (fun i => i < length populacao)%nat (s2 :: r2) ->
  populacao !! s1 = Some p1 -> populacao !! s2 = Some p2 ->
  a !! p1 = Some (x :: resto) -> length resto = 17%nat ->
  a !! p2 = Some c2 -> length c2 = 18%nat -> p1 <> p2 ->
  reproduzir_par cfg populacao (replicate (length populacao) v) nova
    {| arrays := a; fita := fita_par_muta_gene_0 (s1 :: r1) (s2 :: r2) ++ t |}
  = Some (Ok (nova ++ [p1] ++ [p2]),
          {| arrays := <[p1 := gene_mutado 0 x (0 + 0.2 * 1.5) :: resto]> a;
             fita := t |}).
Proof.
  intros Hc [Hm0 Hm] Hk1 Hn1 Hf1 Hk2 Hn2 Hf2 Hp1 Hp2 Ha1 Hl1 Ha2 Hl2 Hne.
  unfold reproduzir_par, fita_par_muta_gene_0.
  rewrite <- !app_assoc. cbn [app].
  rewrite (prog_bind_Ok _ _ _ _ _
             (selecao_todos_iguais cfg populacao v s1 r1 p1 a _ Hk1 Hn1 Hf1 Hp1)).
  rewrite (prog_bind_Ok _ _ _ _ _
             (selecao_todos_iguais cfg populacao v s2 r2 p2 a _ Hk2 Hn2 Hf2 Hp2)).
  rewrite (prog_bind_Ok _ _ _ _ _
             (cruzamento_sem_corte cfg p1 p2 a 0.9 _
                ltac:(unfold em_0_1; lra) Hc)).
  cbn [fst snd].
  rewrite (prog_bind_Ok _ _ _ _ _
             (mutacao_primeiro_gene cfg p1 a x resto 0 1.5 (replicate 17 0.5) _
                Ha1 ltac:(unfold em_0_1; lra) Hm0 suporte_normal_15
                ltac:(now rewrite length_replicate)
                (moedas_sem_mutar cfg 17 Hm))).
  rewrite (prog_bind_Ok _ _ _ _ _
             (mutacao_sem_mutar cfg p2 _ c2 (replicate 18 0.5) _
                ltac:(rewrite list_lookup_insert_ne by exact Hne; exact Ha2)
                ltac:(now rewrite length_replicate)
                (moedas_sem_mutar cfg 18 Hm))).
  reflexivity.
Qed.

(** ** A run with population size 3 and tournament size 3 *)

Lemma NoDup_012 : NoDup [0; 1; 2]%nat.
Proof. apply (bool_decide_unpack _); vm_compute; exact I. Qed.

Lemma impar_geracao_0 :
  passo_geracao (com_populacao 3 3) 0 [0; 1; 2]%nat
    {| arrays := replicate 3 c_inicial;
       fita := fita_par_sem_mudanca [0; 1; 2]%nat [0; 1; 2]%nat ++ [] |}
  = Some (Ok [0; 0]%nat, {| arrays := replicate 3 c_inicial; fita := [] |}).
Proof.
  unfold passo_geracao.
  rewrite (prog_bind_Ok _ _ _ _ _
             (avaliar_populacao_inicial 3 [0; 1; 2]%nat _
                ltac:(repeat constructor))).
  change (TAMANHO_POPULACAO (com_populacao 3 3) / 2)%nat with 1%nat.
  cbn [laco_reproduzir].
  rewrite (prog_bind_Ok _ _ _ [0; 0]%nat
             {| arrays := replicate 3 c_inicial; fita := [] |}).
  - reflexivity.
  - rewrite (prog_bind_Ok _ _ _ [0; 0]%nat
               {| arrays := replicate 3 c_inicial; fita := [] |});
      [reflexivity|].
    apply (reproduzir_par_sem_mudanca (com_populacao 3 3) [0; 1; 2]%nat
             (aptidao_valor c_inicial) 0%nat [1; 2]%nat 0%nat [1; 2]%nat
             0%nat 0%nat
             (replicate 3 c_inicial) c_inicial c_inicial [] []);
      try reflexivity; try apply NoDup_012; try (repeat constructor);
      simpl; lra.
Qed.

Lemma impar_geracao_1 :
  passo_geracao (com_populacao 3 3) 1 [0; 0]%nat
    {| arrays := replicate 3 c_inicial; fita := [] |}
  = Some (Erro ValueError, {| arrays := replicate 3 c_inicial; fita := [] |}).
Proof.
  apply passo_geracao_erro.
  - simpl. lia.
  - simpl. lia.
  - apply populacao_inicial_em. repeat constructor.
Qed.

Lemma impar_principal :
  principal (com_populacao 3 3)
    {| arrays := [];
       fita := fita_sorteio_nulo 3
               ++ fita_par_sem_mudanca [0; 1; 2]%nat [0; 1; 2]%nat ++ [] |}
  = Some (Erro ValueError, {| arrays := replicate 3 c_inicial; fita := [] |}).
Proof.
  unfold principal.
  rewrite (prog_bind_Ok _ _ _ _ _
             (inicializar_populacao_nulo (com_populacao 3 3) _)).
  change (seq 0 (TAMANHO_POPULACAO (com_populacao 3 3)))
    with [0; 1; 2]%nat.
  change (seq 0 (NUM_GERACOES (com_populacao 3 3)))
    with (0 :: 1 :: seq 2 248)%nat.
  rewrite (prog_bind_Erro _ _ _ ValueError
             {| arrays := replicate 3 c_inicial; fita := [] |});
    [reflexivity|].
  cbn [laco_geracoes].
  rewrite (prog_bind_Ok _ _ _ _ _ impar_geracao_0).
  now rewrite (prog_bind_Erro _ _ _ _ _ impar_geracao_1).
Qed.

(** * The claims about the configuration *)

(** C9 as stated fails.  With a population size of 3 (odd) and a tournament
    size of 3 nothing is rejected at start-up: the initial population is
    built, generation 0 runs to its end and silently leaves 2 chromosomes,
    and only generation 1 raises, inside its first selection; the script as
    a whole ends in that ValueError. *)
Lemma C9_counterexample :
  Nat.odd (TAMANHO_POPULACAO (com_populacao 3 3)) = true /\
  inicializar_populacao (com_populacao 3 3)
    {| arrays := [];
       fita := fita_sorteio_nulo 3
               ++ fita_par_sem_mudanca [0; 1; 2]%nat [0; 1; 2]%nat ++ [] |}
  = Some (Ok [0; 1; 2]%nat,
          {| arrays := replicate 3 c_inicial;
             fita := fita_par_sem_mudanca [0; 1; 2]%nat [0; 1; 2]%nat ++ [] |}) /\
  passo_geracao (com_populacao 3 3) 0 [0; 1; 2]%nat
    {| arrays := replicate 3 c_inicial;
       fita := fita_par_sem_mudanca [0; 1; 2]%nat [0; 1; 2]%nat ++ [] |}
  = Some (Ok [0; 0]%nat, {| arrays := replicate 3 c_inicial; fita := [] |}) /\
  passo_geracao (com_populacao 3 3) 1 [0; 0]%nat
    {| arrays := replicate 3 c_inicial; fita := [] |}
  = Some (Erro ValueError, {| arrays := replicate 3 c_inicial; fita := [] |}) /\
  principal (com_populacao 3 3)
    {| arrays := [];
       fita := fita_sorteio_nulo 3
               ++ fita_par_sem_mudanca [0; 1; 2]%nat [0; 1; 2]%nat ++ [] |}
  = Some (Erro ValueError, {| arrays := replicate 3 c_inicial; fita := [] |}).
Proof.
  split; [reflexivity|].
  split; [exact (inicializar_populacao_nulo (com_populacao 3 3) _)|].
  split; [exact impar_geracao_0|].
  split; [exact impar_geracao_1 | exact impar_principal].
Qed.

(** C9, amended.  The script validates none of its parameters.  Whatever
    they are, building the initial population raises nothing and yields
    [TAMANHO_POPULACAO] chromosomes; a generation that runs to its end
    yields twice the integer half of [TAMANHO_POPULACAO] chromosomes (one
    fewer than configured when that size is odd); and when the tournament
    size exceeds the size of the current population (the configured size
    being at least 2), the generation raises ValueError in its first
    selection, after the fitness of the population has been evaluated. *)
Theorem C9_parametros_nao_validados (cfg : parametros) (geracao : nat)
    (populacao : list ref) (w : mundo) :
  Forall (cromossomo_em (arrays w)) populacao ->
  (forall w0 r w1,
     inicializar_populacao cfg w0 = Some (r, w1) ->
     exists populacao0,
       r = Ok populacao0 /\ length populacao0 = TAMANHO_POPULACAO cfg) /\
  (forall populacao' w',
     passo_geracao cfg geracao populacao w = Some (Ok populacao', w') ->
     length populacao' = (2 * (TAMANHO_POPULACAO cfg / 2))%nat) /\
  ((length populacao < TAMANHO_TORNEIO cfg)%nat ->
   (2 <= TAMANHO_POPULACAO cfg)%nat ->
   passo_geracao cfg geracao populacao w = Some (Erro ValueError, w)).
Proof.
  intros Hpop. split; [|split].
  - intros w0 r w1 H. unfold inicializar_populacao in H.
    apply laco_inicializar_inv in H as (pop0 & -> & Hlen).
    exists pop0. split; [reflexivity | exact Hlen].
  - intros pop' w' H. now apply passo_geracao_length in H.
  - intros Ht Hp. now apply passo_geracao_erro.
Qed.

Lemma C9_witness :
  Forall (cromossomo_em (replicate 3 c_inicial)) [0; 0]%nat /\
  passo_geracao (com_populacao 3 3) 1 [0; 0]%nat
    {| arrays := replicate 3 c_inicial; fita := [] |}
  = Some (Erro ValueError, {| arrays := replicate 3 c_inicial; fita := [] |}).
Proof.
  assert (H : Forall (cromossomo_em (replicate 3 c_inicial)) [0; 0]%nat).
  { apply populacao_inicial_em. repeat constructor. }
  split; [exact H|].
  apply (proj2 (proj2 (C9_parametros_nao_validados (com_populacao 3 3) 1
                         [0; 0]%nat
                         {| arrays := replicate 3 c_inicial; fita := [] |} H)));
    simpl; lia.
Defined.

(** * The claims about crossover and the reproduction phase *)

Lemma gene_mutado_0_inicial : gene_mutado 0 0.5 (0 + 0.2 * 1.5) = 0.5 + 0.3.
Proof.
  unfold gene_mutado, RAIO_MINIMO. rewrite Rlt_b_false by lra.
  rewrite andb_false_r. lra.
Qed.

(** C6.  The cut index of [cruzamento] comes from
    [np.random.randint(1, len(pai1) - 1)], whose upper bound is excluded:
    on parents of 18 genes the cut 16 is an outcome, the cut 17 = L - 1 is
    not, and no run produces the child that a cut at 17 would give.  (The
    rest of the claim holds: lemmas [cruzamento_inv], [cruzamento_com_corte],
    [cruzamento_sem_corte] and [filho_length].) *)
Theorem C6_corte_exclui_o_ultimo :
  cruzamento parametros_fonte 0%nat 1%nat
    {| arrays := [replicate 18 0; replicate 18 1];
       fita := [SRand 0.5; SRandInt 16] |}
  = Some (Ok (2%nat, 3%nat),
          {| arrays := [replicate 18 0; replicate 18 1;
                        replicate 16 0 ++ replicate 2 1;
                        replicate 16 1 ++ replicate 2 0];
             fita := [] |}) /\
  cruzamento parametros_fonte 0%nat 1%nat
    {| arrays := [replicate 18 0; replicate 18 1];
       fita := [SRand 0.5; SRandInt 17] |}
  = None /\
  (forall t r w',
     cruzamento parametros_fonte 0%nat 1%nat
       {| arrays := [replicate 18 0; replicate 18 1]; fita := t |}
     = Some (Ok r, w') ->
     arrays w' !! fst r <> Some (replicate 17 0 ++ replicate 1 1)).
Proof.
  assert (Hu : em_0_1 0.5) by (unfold em_0_1; lra).
  assert (Ht : 0.5 < TAXA_CRUZAMENTO parametros_fonte) by (simpl; lra).
  split; [|split].
  - apply (cruzamento_com_corte parametros_fonte 0%nat 1%nat
             [replicate 18 0; replicate 18 1] (replicate 18 0)
             (replicate 18 1) 0.5 16 [] Hu Ht); [reflexivity | reflexivity|].
    simpl. lia.
  - apply (cruzamento_fora parametros_fonte 0%nat 1%nat
             [replicate 18 0; replicate 18 1] (replicate 18 0)
             (replicate 18 1) 0.5 17 [] Hu Ht);
      [reflexivity | reflexivity | simpl; lia | simpl; lia].
  - intros t r w' H.
    apply (cruzamento_inv parametros_fonte 0%nat 1%nat _ (replicate 18 0)
             (replicate 18 1)) in H; [|reflexivity|reflexivity].
    destruct H as (u & _ & [(_ & _ & Er & Ha)|[(_ & k & Hk & _ & Er & Ha)|
                                               (_ & _ & _ & Er & _)]]);
      [| |discriminate]; inversion Er; subst r; rewrite Ha; simpl fst.
    + simpl. intros E. inversion E. lra.
    + simpl length in Hk. intros E.
      assert (E16 : (take k (replicate 18 0) ++ drop k (replicate 18 1))
                    !! 16%nat = Some 1).
      { rewrite lookup_app_r by (rewrite length_take, length_replicate; lia).
        rewrite length_take, length_replicate, lookup_drop.
        apply lookup_replicate_2. lia. }
      assert (E' : Some (take k (replicate 18 0) ++ drop k (replicate 18 1))
                   = Some (replicate 17 0 ++ replicate 1 1)) by exact E.
      apply (inj Some) in E'.
      rewrite E' in E16. simpl in E16. inversion E16. lra.
Qed.

(** C7.  Selection leaves the arrays as they are (lemma [selecao_arrays]),
    but the reproduction phase does change a member of the current
    population.  From the initial population in which every draw of
    [np.random.rand] is 0: two tournaments select members 0 and 3, the
    crossover is skipped (0.9 is not below 0.8) and returns the two parents
    themselves, and [mutacao] perturbs gene 0 of the first child by 0.3 (the
    noise of [np.random.normal(0, 0.2)] for the standard variate 1.5): the
    array of member 0 of the current population now starts with 0.5 + 0.3,
    and that same array is the first member of the new population. *)
Theorem C7_pai_alterado_no_lugar :
  inicializar_populacao parametros_fonte
    {| arrays := [];
       fita := fita_sorteio_nulo 100
               ++ fita_par_muta_gene_0 [0; 1; 2]%nat [3; 4; 5]%nat ++ [] |}
  = Some (Ok (seq 0 100),
          {| arrays := replicate 100 c_inicial;
             fita := fita_par_muta_gene_0 [0; 1; 2]%nat [3; 4; 5]%nat ++ [] |}) /\
  avaliar (seq 0 100)
    {| arrays := replicate 100 c_inicial;
       fita := fita_par_muta_gene_0 [0; 1; 2]%nat [3; 4; 5]%nat ++ [] |}
  = Some (Ok (replicate 100 (aptidao_valor c_inicial)),
          {| arrays := replicate 100 c_inicial;
             fita := fita_par_muta_gene_0 [0; 1; 2]%nat [3; 4; 5]%nat ++ [] |}) /\
  reproduzir_par parametros_fonte (seq 0 100)
    (replicate 100 (aptidao_valor c_inicial)) []
    {| arrays := replicate 100 c_inicial;
       fita := fita_par_muta_gene_0 [0; 1; 2]%nat [3; 4; 5]%nat ++ [] |}
  = Some (Ok [0; 3]%nat,
          {| arrays := <[0%nat := (0.5 + 0.3) :: drop 1 c_inicial]>
                         (replicate 100 c_inicial);
             fita := [] |}) /\
  replicate 100 c_inicial !! 0%nat = Some c_inicial /\
  <[0%nat := (0.5 + 0.3) :: drop 1 c_inicial]> (replicate 100 c_inicial)
    !! 0%nat
  = Some ((0.5 + 0.3) :: drop 1 c_inicial) /\
  (0.5 + 0.3) :: drop 1 c_inicial <> c_inicial.
Proof.
  split; [exact (inicializar_populacao_nulo parametros_fonte _)|].
  split.
  { apply (avaliar_populacao_inicial 100 (seq 0 100)).
    apply Forall_forall. intros r Hr. apply elem_of_seq in Hr. lia. }
  split.
  { rewrite <- gene_mutado_0_inicial.
    apply (reproduzir_par_muta_gene_0 parametros_fonte (seq 0 100)
             (aptidao_valor c_inicial) 0%nat [1; 2]%nat 3%nat [4; 5]%nat
             0%nat 3%nat (replicate 100 c_inicial) 0.5 (drop 1 c_inicial)
             c_inicial [] []);
      try reflexivity; try (apply (bool_decide_unpack _); vm_compute; exact I);
      try (repeat constructor; simpl; lia); try (simpl; lra); try lia. }
  split; [reflexivity|]. split; [reflexivity|].
  unfold c_inicial. simpl. intros E. inversion E. lra.
Qed.

(** * The field of one coil on binary64 *)

Section Binario64.
Import PrimFloat SpecFloat FloatOps FloatAxioms.
#[local] Open Scope float_scope.
#[local] Set Warnings "-inexact-float".

Lemma is_nan_Prim2SF (r : float) : Prim2SF r = S754_nan -> is_nan r = true.
Proof.
  intros H. unfold is_nan. rewrite FloatAxioms.eqb_spec, H. reflexivity.
Qed.

(** A product with +0 is a zero or nan; a product with +inf is an infinity
    or nan; +inf plus anything is +inf or nan. *)
Lemma vezes_zero (x : float) :
  (exists s, Prim2SF (x * 0) = S754_zero s) \/ Prim2SF (x * 0) = S754_nan.
Proof.
  rewrite mul_spec. change (Prim2SF 0) with (S754_zero false).
  destruct (Prim2SF x) as [s|s| |s m e]; simpl; eauto.
Qed.

Lemma vezes_infinito (x : float) :
  (exists s, Prim2SF (x * infinity) = S754_infinity s) \/
  Prim2SF (x * infinity) = S754_nan.
Proof.
  rewrite mul_spec. change (Prim2SF infinity) with (S754_infinity false).
  destruct (Prim2SF x) as [s|s| |s m e]; simpl; eauto.
Qed.

Lemma infinito_mais (y : float) :
  Prim2SF (infinity + y) = S754_infinity false \/
  Prim2SF (infinity + y) = S754_nan.
Proof.
  rewrite add_spec. change (Prim2SF infinity) with (S754_infinity false).
  destruct (Prim2SF y) as [s|[|]| |s m e]; simpl; eauto.
Qed.

Lemma denominador_infinito (b : float) :
  Prim2SF b = S754_infinity false \/ Prim2SF b = S754_nan ->
  Prim2SF (2 * F64.potencia_3_2 b) = S754_infinity false \/
  Prim2SF (2 * F64.potencia_3_2 b) = S754_nan.
Proof.
  unfold F64.potencia_3_2. rewrite !mul_spec, sqrt_spec.
  intros [-> | ->]; [left | right]; reflexivity.
Qed.

(** The two ways to [nan]: 0 / 0 where the square of the radius is 0, at
    the position of the coil; inf / inf where it is [inf], everywhere. *)
Lemma campo_subfluxo (z raio z_bobina corrente : float) :
  F64.quadrado raio = 0 -> z - z_bobina = 0 ->
  Prim2SF (F64.calcular_campo_eixo_z z raio z_bobina corrente) = S754_nan.
Proof.
  unfold F64.calcular_campo_eixo_z. intros -> ->.
  change (2 * F64.potencia_3_2 (0 + F64.quadrado 0)) with 0.
  rewrite div_spec. change (Prim2SF 0) with (S754_zero false).
  destruct (vezes_zero (F64.MU_0 * corrente)) as [[s ->] | ->]; reflexivity.
Qed.

Lemma campo_transbordo (z raio z_bobina corrente : float) :
  F64.quadrado raio = infinity ->
  Prim2SF (F64.calcular_campo_eixo_z z raio z_bobina corrente) = S754_nan.
Proof.
  unfold F64.calcular_campo_eixo_z. intros ->. rewrite div_spec.
  destruct (denominador_infinito _
              (infinito_mais (F64.quadrado (z - z_bobina)))) as [-> | ->];
    destruct (vezes_infinito (F64.MU_0 * corrente)) as [[s ->] | ->];
    reflexivity.
Qed.

(** X1.  On float64 [calcular_campo_eixo_z] raises nothing and has two
    ranges of radii where its value is [nan], whatever the current.  Where
    the square of the radius is 0 (the radius 0, and every radius small
    enough for its square to underflow, such as 1e-200), the field at the
    position of the coil is the quotient of a zero (or [nan]) by 0.  Where
    the square of the radius is [inf] (every radius large enough for its
    square to overflow, such as 1e200), the field at every point, for every
    position of the coil, is the quotient of an infinity (or [nan]) by an
    infinity (or [nan]). *)
Theorem X1_campo_nan (z raio z_bobina corrente : float) :
  (F64.quadrado raio = 0 -> z - z_bobina = 0 ->
   is_nan (F64.calcular_campo_eixo_z z raio z_bobina corrente) = true) /\
  (F64.quadrado raio = infinity ->
   is_nan (F64.calcular_campo_eixo_z z raio z_bobina corrente) = true).
Proof.
  split.
  - intros Hq Hz. now apply is_nan_Prim2SF, campo_subfluxo.
  - intros Hq. now apply is_nan_Prim2SF, campo_transbordo.
Qed.

(** A radius of 1e-200 at the position of the coil; a radius of 1e200 seen
    from a distance of 3. *)
Lemma X1_witness :
  (F64.quadrado 1e-200 = 0 /\ 1 - 1 = 0 /\
   is_nan (F64.calcular_campo_eixo_z 1 1e-200 1 5) = true) /\
  (F64.quadrado 1e200 = infinity /\
   is_nan (F64.calcular_campo_eixo_z 4 1e200 1 5) = true).
Proof.
  split.
  - split; [reflexivity|]. split; [reflexivity|].
    apply (proj1 (X1_campo_nan 1 1e-200 1 5)); reflexivity.
  - split; [reflexivity|].
    apply (proj2 (X1_campo_nan 4 1e200 1 5)); reflexivity.
Defined.

(** ** A coil that overflows makes the fitness [nan] *)

Lemma nan_unico (x : float) : Prim2SF x = S754_nan -> x = nan.
Proof. intros H. apply Prim2SF_inj. now rewrite H. Qed.

Lemma mais_nan (x : float) : x + nan = nan /\ nan + x = nan /\ nan - x = nan.
Proof.
  repeat split; apply nan_unico; rewrite ?add_spec, ?sub_spec;
    change (Prim2SF nan) with S754_nan;
    destruct (Prim2SF x) as [s|s| |s m e]; reflexivity.
Qed.

Lemma zip_nan_r (l : list float) :
  zip_with add l (replicate (length l) nan) = replicate (length l) nan.
Proof.
  induction l as [|x l IH]; [reflexivity|].
  simpl. rewrite IH. f_equal. apply mais_nan.
Qed.

Lemma zip_nan_l (l : list float) :
  zip_with add (replicate (length l) nan) l = replicate (length l) nan.
Proof.
  induction l as [|x l IH]; [reflexivity|].
  simpl. rewrite IH. f_equal. apply mais_nan.
Qed.

Lemma campo_vetor_transbordo raio z_pos corrente :
  F64.quadrado raio = infinity ->
  map (fun z => F64.calcular_campo_eixo_z z raio z_pos corrente) F64.Z_AVALIACAO
  = replicate 100 nan.
Proof.
  intros H.
  transitivity (map (fun _ : float => nan) F64.Z_AVALIACAO);
    [|reflexivity].
  apply map_ext. intros z. now apply nan_unico, campo_transbordo.
Qed.

Lemma campo_vetor_length raio z_pos corrente :
  length (map (fun z => F64.calcular_campo_eixo_z z raio z_pos corrente)
              F64.Z_AVALIACAO) = 100%nat.
Proof. now rewrite length_map. Qed.

(** Once the summed field is [nan] at every point it stays so. *)
Lemma laco_bobinas_nan bobinas :
  existsb Exemplos64.bobina_recusada bobinas = false ->
  F64.laco_bobinas bobinas (replicate 100 nan)
  = F64.Continua (replicate 100 nan).
Proof.
  induction bobinas as [|[[raio z_pos] corrente] resto IH]; intros H;
    [reflexivity|].
  cbn [existsb] in H. apply orb_false_iff in H as [Hb Hr].
  unfold Exemplos64.bobina_recusada in Hb. cbn [fst snd] in Hb.
  cbn [F64.laco_bobinas]. rewrite Hb.
  rewrite <- (campo_vetor_length raio z_pos corrente) at 1.
  rewrite zip_nan_l, campo_vetor_length. now apply IH.
Qed.

Lemma laco_bobinas_transbordo bobinas : forall campo_total,
  length campo_total = 100%nat ->
  existsb Exemplos64.bobina_recusada bobinas = false ->
  Exists Exemplos64.transborda bobinas ->
  F64.laco_bobinas bobinas campo_total = F64.Continua (replicate 100 nan).
Proof.
  induction bobinas as [|[[raio z_pos] corrente] resto IH];
    intros campo_total Hl H Hex; [inversion Hex|].
  cbn [existsb] in H. apply orb_false_iff in H as [Hb Hr].
  unfold Exemplos64.bobina_recusada in Hb. cbn [fst snd] in Hb.
  cbn [F64.laco_bobinas]. rewrite Hb.
  inversion Hex as [? ? Ht|? ? Ht]; subst.
  - unfold Exemplos64.transborda in Ht. cbn [fst] in Ht.
    rewrite campo_vetor_transbordo by exact Ht.
    rewrite <- Hl, zip_nan_r, Hl. now apply laco_bobinas_nan.
  - apply IH; [|exact Hr | exact Ht].
    rewrite length_zip_with, campo_vetor_length, Hl. reflexivity.
Qed.

(** The penalty loops end normally on six positions. *)
Lemma teste_par_total_f64 posicoes_z i j penalidade :
  (i < length posicoes_z)%nat -> (j < length posicoes_z)%nat ->
  exists p, F64.teste_par posicoes_z i penalidade j = Ok p.
Proof.
  intros Hi Hj. unfold F64.teste_par, indexar.
  destruct (lookup_lt_is_Some_2 _ _ Hi) as [zi ->].
  destruct (lookup_lt_is_Some_2 _ _ Hj) as [zj ->].
  rewrite !bind_Ok.
  destruct (abs (zi - zj) <? F64.DISTANCIA_MIN_BOBINAS); eauto.
Qed.

Lemma laco_interno_total_f64 posicoes_z i js : forall penalidade,
  (i < length posicoes_z)%nat ->
  Forall (fun j => j < length posicoes_z)%nat js ->
  exists p, foldM (F64.teste_par posicoes_z i) penalidade js = Ok p.
Proof.
  induction js as [|j js IH]; intros penalidade Hi Hjs; [now eexists|].
  inversion Hjs; subst. rewrite foldM_cons.
  destruct (teste_par_total_f64 posicoes_z i j penalidade) as [p ->];
    [assumption..|].
  rewrite bind_Ok. now apply IH.
Qed.

Lemma laco_penalidade_total_f64 posicoes_z :
  length posicoes_z = NUM_BOBINAS ->
  exists p, F64.laco_penalidade posicoes_z = Ok p.
Proof.
  intros Hl. unfold F64.laco_penalidade.
  assert (H : forall idx penalidade,
            Forall (fun i => i < NUM_BOBINAS)%nat idx ->
            exists p,
              foldM (fun penalidade i =>
                       foldM (F64.teste_par posicoes_z i) penalidade
                             (seq (i + 1) (NUM_BOBINAS - (i + 1))))
                    penalidade idx = Ok p).
  { induction idx as [|i idx IH]; intros penalidade His; [now eexists|].
    inversion His; subst. rewrite foldM_cons.
    destruct (laco_interno_total_f64 posicoes_z i
                (seq (i + 1) (NUM_BOBINAS - (i + 1))) penalidade) as [p ->].
    - rewrite Hl. assumption.
    - apply Forall_forall. intros j Hj. apply elem_of_seq in Hj.
      rewrite Hl. lia.
    - rewrite bind_Ok. now apply IH. }
  apply H. apply Forall_forall. intros i Hi. apply elem_of_seq in Hi. lia.
Qed.

Lemma linhas3_length_f64 (c : list float) n :
  length c = (3 * n)%nat -> length (F64.linhas3 c) = n.
Proof.
  revert c. induction n as [|n IH]; intros c Hc.
  - destruct c; [reflexivity | discriminate].
  - destruct c as [|a [|b [|d c']]]; simpl in Hc; try lia.
    cbn [F64.linhas3 length]. f_equal. apply IH. lia.
Qed.

(** X19.  On float64, a chromosome of 18 genes that passes the test of the
    loop over the coils and has a coil whose squared radius overflows (a
    radius such as 1e200) gets the fitness [nan], whatever its other genes:
    the field of that coil is [nan] at every point, so are the summed field,
    its mean and its deviation; [nan < 0.1] is false, so the floor is not
    applied, and the product minus the penalty is [nan]. *)
Theorem X19_aptidao_nan_f64 (c : list float) :
  length c = (3 * NUM_BOBINAS)%nat ->
  existsb Exemplos64.bobina_recusada (F64.linhas3 c) = false ->
  Exists Exemplos64.transborda (F64.linhas3 c) ->
  F64.calcular_aptidao c = Ok nan.
Proof.
  intros Hl Hval Hex. unfold F64.calcular_aptidao, F64.reshape3.
  destruct (decide (length c = (NUM_BOBINAS * 3)%nat)) as [_|Hn];
    [|exfalso; apply Hn; rewrite Hl; lia].
  rewrite bind_Ok.
  rewrite (laco_bobinas_transbordo (F64.linhas3 c)
             (map (fun _ => 0) F64.Z_AVALIACAO) eq_refl Hval Hex).
  destruct (laco_penalidade_total_f64
              (map (fun b : float * float * float => snd (fst b))
                   (F64.linhas3 c))) as [p Hp].
  { rewrite length_map. now apply linhas3_length_f64. }
  change (F64.mean (replicate 100 nan)) with nan.
  change (F64.std (replicate 100 nan)) with nan.
  change (nan <? 0.1) with false. cbv iota.
  rewrite Hp, bind_Ok. f_equal.
  change (1.0 * nan * (5.0 * (1 / (nan / nan + 1e-9)))) with nan.
  apply mais_nan.
Qed.

Lemma X19_witness :
  length Exemplos64.c_raio_enorme = (3 * NUM_BOBINAS)%nat /\
  existsb Exemplos64.bobina_recusada (F64.linhas3 Exemplos64.c_raio_enorme)
  = false /\
  F64.calcular_aptidao Exemplos64.c_raio_enorme = Ok nan.
Proof.
  split; [reflexivity|]. split; [reflexivity|].
  apply (X19_aptidao_nan_f64 Exemplos64.c_raio_enorme);
    [reflexivity | reflexivity|].
  apply Exists_cons_hd. reflexivity.
Defined.

End Binario64.

(** * The sentinel on binary64 *)

Lemma laco_bobinas_recusa_f64 bobinas : forall campo_total,
  existsb Exemplos64.bobina_recusada bobinas = true ->
  F64.laco_bobinas bobinas campo_total = F64.Retorna Exemplos64.sentinela.
Proof.
  induction bobinas as [|[[raio z_pos] corrente] resto IH];
    intros campo_total H; [discriminate|].
  cbn [existsb] in H. cbn [F64.laco_bobinas].
  unfold Exemplos64.bobina_recusada in H at 1. cbn [fst snd] in H.
  match goal with
  | |- context [if ?b then _ else _] => destruct b eqn:E
  end.
  - reflexivity.
  - apply IH. exact H.
Qed.

(** X18.  The early return of the loop over the coils involves no
    arithmetic, so it is the same on float64 as over the reals: a chromosome
    of 18 genes with a coil that fails the test [raio < RAIO_MINIMO or
    corrente <= 0] gets the sentinel -1e9, whatever the other genes are,
    [inf] and [nan] included, and whatever the fields of the coils before
    it. *)
Theorem X18_sentinela_f64 (c : list PrimFloat.float) :
  length c = (3 * NUM_BOBINAS)%nat ->
  existsb Exemplos64.bobina_recusada (F64.linhas3 c) = true ->
  F64.calcular_aptidao c = Ok Exemplos64.sentinela.
Proof.
  intros Hl H. unfold F64.calcular_aptidao, F64.reshape3.
  destruct (decide (length c = (NUM_BOBINAS * 3)%nat)) as [_|Hn];
    [|exfalso; apply Hn; rewrite Hl; lia].
  rewrite bind_Ok. now rewrite laco_bobinas_recusa_f64.
Qed.

Lemma X18_witness :
  length Exemplos64.c_recusado = (3 * NUM_BOBINAS)%nat /\
  existsb Exemplos64.bobina_recusada (F64.linhas3 Exemplos64.c_recusado)
  = true /\
  F64.calcular_aptidao Exemplos64.c_recusado = Ok Exemplos64.sentinela.
Proof.
  split; [reflexivity|]. split; [reflexivity|].
  apply (X18_sentinela_f64 Exemplos64.c_recusado); reflexivity.
Defined.

(** * Further properties of the fitness function *)

Lemma valido_ou_invalido c :
  length c = (3 * NUM_BOBINAS)%nat ->
  estruturalmente_valido c \/
  exists k, (k < NUM_BOBINAS)%nat /\
            (raio_de c k < RAIO_MINIMO \/ corrente_de c k <= 0).
Proof.
  intros Hl.
  destruct (List.Forall_Exists_dec
              (fun k => RAIO_MINIMO <= raio_de c k /\ 0 < corrente_de c k)
              (fun k => match Rle_dec RAIO_MINIMO (raio_de c k),
                              Rlt_dec 0 (corrente_de c k) with
                        | left H1, left H2 => left (conj H1 H2)
                        | right H1, _ => right (fun H => H1 (proj1 H))
                        | _, right H2 => right (fun H => H2 (proj2 H))
                        end)
              (seq 0 NUM_BOBINAS)) as [Hall|Hex].
  - left. split; [exact Hl|]. intros k Hk. rewrite Forall_forall in Hall.
    apply Hall. apply elem_of_seq. lia.
  - right. apply Exists_exists in Hex as (k & Hk & Hn).
    apply elem_of_seq in Hk. exists k. split; [lia|].
    destruct (Rlt_dec (raio_de c k) RAIO_MINIMO) as [H1|H1]; [now left|].
    right. destruct (Rle_dec (corrente_de c k) 0) as [H2|H2]; [exact H2|].
    exfalso. apply Hn. split; lra.
Qed.

(** X3.  [calcular_aptidao] raises exactly when the chromosome does not have
    18 genes, and then it is the ValueError of [reshape]; on 18 genes it
    returns a number, which is the sentinel -1e9 exactly when some coil has a
    radius below the minimum or a current that is not positive; on a
    chromosome whose genes are at most 1e100 in magnitude any other result
    lies between -75000 and 1e105. *)
Theorem X3_aptidao_erros_e_sentinela (c : list R) :
  (forall e, calcular_aptidao c = Erro e <->
             e = ValueError /\ length c <> (3 * NUM_BOBINAS)%nat) /\
  (calcular_aptidao c = Ok (-1e9) <->
   length c = (3 * NUM_BOBINAS)%nat /\
   exists k, (k < NUM_BOBINAS)%nat /\
             (raio_de c k < RAIO_MINIMO \/ corrente_de c k <= 0)) /\
  (forall v, genes_limitados c -> calcular_aptidao c = Ok v ->
             v = -1e9 \/ -75000 < v < 1e105).
Proof.
  destruct (decide (length c = (3 * NUM_BOBINAS)%nat)) as [Hl|Hl].
  - assert (Hcasos :
      (estruturalmente_valido c /\
       exists v, calcular_aptidao c = Ok v /\ -75000 < v) \/
      ((exists k, (k < NUM_BOBINAS)%nat /\
                  (raio_de c k < RAIO_MINIMO \/ corrente_de c k <= 0)) /\
       calcular_aptidao c = Ok (-1e9))).
    { destruct (valido_ou_invalido c Hl) as [Hv|(k & Hk & Hbad)].
      - left. split; [exact Hv|]. eexists. split;
          [now apply calcular_aptidao_valido|].
        apply aptidao_de_lower; [apply desvio_nonneg | apply pares_violando_le].
      - right. split; [now exists k|]. now apply calcular_aptidao_invalido with k. }
    split; [|split].
    + intros e. split.
      * intros E. destruct Hcasos as [(_ & v & Hv & _)|(_ & Hv)]; congruence.
      * intros [_ Hn]. contradiction.
    + split.
      * intros E. split; [exact Hl|].
        destruct Hcasos as [(_ & v & Hv & Hlow)|(Hex & _)]; [|exact Hex].
        rewrite Hv in E. inversion E. lra.
      * intros [_ (k & Hk & Hbad)]. now apply calcular_aptidao_invalido with k.
    + intros v Hg E. destruct Hcasos as [(Hval & _)|(_ & Hv)].
      * right.
        destruct (aptidao_valido_bounds c Hval Hg) as (v' & E' & Hb1 & Hb2).
        assert (v = v') by congruence. subst v'. lra.
      * left. congruence.
  - assert (E : calcular_aptidao c = Erro ValueError).
    { unfold calcular_aptidao, np.reshape3.
      destruct (decide (length c = (NUM_BOBINAS * 3)%nat)) as [H|_]; [|reflexivity].
      exfalso. apply Hl. rewrite H. lia. }
    split; [|split].
    + intros e. split; [intros E'; split; [congruence | exact Hl]|].
      intros [-> _]. exact E.
    + split; [intros E'; congruence | intros [H _]; contradiction].
    + intros v _ E'. congruence.
Qed.

Lemma X3_witness :
  genes_limitados c_fraco /\
  calcular_aptidao c_fraco = Ok 0.1 /\
  (0.1 = -1e9 \/ -75000 < 0.1 < 1e105).
Proof.
  assert (E : calcular_aptidao c_fraco = Ok 0.1).
  { rewrite calcular_aptidao_valido by exact c_fraco_valido.
    unfold aptidao_de. now rewrite Rlt_b_true by exact c_fraco_media. }
  split; [exact c_fraco_limitado|]. split; [exact E|].
  exact (proj2 (proj2 (X3_aptidao_erros_e_sentinela c_fraco)) 0.1
           c_fraco_limitado E).
Defined.

(** * Further properties of the initial population *)

Lemma rand_vetor_inv_suporte n : forall w r w',
  rand_vetor n w = Some (r, w') ->
  exists us, r = Ok us /\ length us = n /\ Forall em_0_1 us /\
             arrays w' = arrays w.
Proof.
  induction n as [|n IH]; intros w r w' H.
  - inversion H; subst. exists []. now repeat split.
  - cbn [rand_vetor] in H.
    apply prog_bind_inv in H as [(u & w1 & Hr & H)|(e & Hr & _)].
    2:{ apply rand_inv in Hr as (? & _ & _ & ? & _). discriminate. }
    apply rand_inv in Hr as (u' & _ & Hu & Eu & Ha1). inversion Eu; subst u'.
    apply prog_bind_inv in H as [(us & w2 & Hv & H)|(e & Hv & _)].
    2:{ apply IH in Hv as (? & ? & _). discriminate. }
    apply IH in Hv as (us' & Eus & Hlen & Hall & Ha2). inversion Eus; subst us'.
    inversion H; subst. exists (u :: us). simpl. repeat split.
    + now constructor.
    + congruence.
Qed.

Lemma cromossomo_sorteado us :
  length us = (NUM_BOBINAS * 3)%nat -> Forall em_0_1 us ->
  let c := atribuir_fatia 2 (fun x => x * 9e6 + 1e6)
             (atribuir_fatia 1 (fun x => x * 4 - 2)
                (atribuir_fatia 0
                   (fun x => x * (2.0 - RAIO_MINIMO) + RAIO_MINIMO) us)) in
  length c = (3 * NUM_BOBINAS)%nat /\ nos_limites_iniciais c.
Proof.
  intros Hlen Hall.
  do 18 (destruct us as [|? us]; [discriminate|]).
  destruct us; [|discriminate].
  repeat match goal with
         | H : Forall _ (_ :: _) |- _ => inversion H; clear H; subst
         end.
  unfold em_0_1 in *. split; [reflexivity|].
  intros k Hk. unfold raio_de, posicao_de, corrente_de, atribuir_fatia, RAIO_MINIMO.
  do 6 (destruct k as [|k]; [simpl; lra|]).
  exfalso. unfold NUM_BOBINAS in Hk. lia.
Qed.

Lemma limites_iniciais_validos c :
  length c = (3 * NUM_BOBINAS)%nat -> nos_limites_iniciais c ->
  estruturalmente_valido c.
Proof.
  intros Hl Hlim. split; [exact Hl|]. intros k Hk.
  destruct (Hlim k Hk) as (Hr & _ & Hi). lra.
Qed.

Lemma laco_inicializar_inv_forte n : forall populacao w r w',
  laco_inicializar n populacao w = Some (r, w') ->
  exists cs,
    r = Ok (populacao ++ seq (length (arrays w)) n) /\
    arrays w' = arrays w ++ cs /\ length cs = n /\
    Forall (fun c => length c = (3 * NUM_BOBINAS)%nat /\
                     nos_limites_iniciais c) cs.
Proof.
  induction n as [|n IH]; intros pop w r w' H.
  - inversion H; subst. exists []. rewrite !app_nil_r. now repeat split.
  - cbn [laco_inicializar] in H.
    apply prog_bind_inv in H as [(us & w1 & Hv & H)|(e & Hv & _)].
    2:{ apply rand_vetor_inv in Hv as (? & ? & _). discriminate. }
    apply rand_vetor_inv_suporte in Hv as (us' & Eus & Hlen & Hall & Ha1).
    inversion Eus; subst us'. destruct w1 as [a1 t1]. simpl in Ha1. subst a1.
    rewrite (prog_bind_Ok _ _ _ _ _ (novo_eq _ (arrays w) t1)) in H.
    apply IH in H as (cs & -> & Ha & Hl & Hcs). simpl in Ha.
    eexists (_ :: cs). split; [|split; [|split]].
    + f_equal. rewrite <- app_assoc. f_equal. simpl. f_equal.
      rewrite length_app. simpl. f_equal. lia.
    + rewrite Ha, <- app_assoc. reflexivity.
    + simpl. now rewrite Hl.
    + constructor; [|exact Hcs]. now apply cromossomo_sorteado.
Qed.

(** X4.  Every run of [inicializar_populacao] ends normally: it returns
    [TAMANHO_POPULACAO] references, distinct and new, to as many arrays
    appended to the store; the arrays already there are kept; each new
    chromosome has 18 genes with radius in [[0.5, 2)], position in
    [[-2, 2)] and current in [[1e6, 1e7)], hence is structurally valid and its
    fitness is never the sentinel. *)
Theorem X4_populacao_inicial_valida (cfg : parametros) (w : mundo)
    (r : resultado (list ref)) (w' : mundo) :
  inicializar_populacao cfg w = Some (r, w') ->
  exists cs,
    r = Ok (seq (length (arrays w)) (TAMANHO_POPULACAO cfg)) /\
    arrays w' = arrays w ++ cs /\
    length cs = TAMANHO_POPULACAO cfg /\
    Forall (fun c => nos_limites_iniciais c /\ estruturalmente_valido c /\
                     exists v, calcular_aptidao c = Ok v /\ v <> -1e9) cs.
Proof.
  intros H. unfold inicializar_populacao in H.
  apply laco_inicializar_inv_forte in H as (cs & -> & Ha & Hl & Hcs).
  exists cs. repeat split; try assumption.
  eapply Forall_impl; [exact Hcs|]. intros c [Hlen Hlim].
  pose proof (limites_iniciais_validos c Hlen Hlim) as Hv.
  split; [exact Hlim|]. split; [exact Hv|].
  eexists. split; [now apply calcular_aptidao_valido|].
  pose proof (aptidao_de_lower (media (perfil_campo c))
                (desvio (perfil_campo c)) (pares_violando (posicoes_de c))
                (desvio_nonneg _) (pares_violando_le _)).
  lra.
Qed.

Lemma X4_witness :
  exists cs,
    Ok (seq 0 100) = Ok (seq (length (@nil (list R))) 100) /\
    replicate 100 c_inicial = [] ++ cs /\
    length cs = 100%nat /\
    Forall (fun c => nos_limites_iniciais c /\ estruturalmente_valido c /\
                     exists v, calcular_aptidao c = Ok v /\ v <> -1e9) cs.
Proof.
  exact (X4_populacao_inicial_valida parametros_fonte
           {| arrays := []; fita := fita_sorteio_nulo 100 ++ [] |}
           _ _ (inicializar_populacao_nulo parametros_fonte [])).
Defined.

(** * Further properties of selection *)

Lemma primeiro_maximo_cota {A} (k : A -> R) l m antes depois :
  primeiro_maximo k l m antes depois -> Forall (fun y => k y <= k m) l.
Proof.
  intros (-> & Ha & Hd). apply Forall_app. split.
  - eapply Forall_impl; [exact Ha|]. intros y Hy. simpl in Hy. lra.
  - constructor; [lra | exact Hd].
Qed.

Lemma selecao_inv cfg populacao aptidoes w res w' :
  (1 <= TAMANHO_TORNEIO cfg <= length populacao)%nat ->
  length aptidoes = length populacao ->
  selecao cfg populacao aptidoes w = Some (res, w') ->
  exists selecionados antes m depois r,
    res = Ok r /\
    fita w = SChoice selecionados :: fita w' /\
    arrays w' = arrays w /\
    length selecionados = TAMANHO_TORNEIO cfg /\
    NoDup selecionados /\
    Forall (fun i => i < length populacao)%nat selecionados /\
    populacao !! m = Some r /\
    primeiro_maximo (fun i => nth i aptidoes 0) selecionados m antes depois.
Proof.
  intros [Ht1 Ht2] Hlen H. pose proof H as H0. unfold selecao in H0.
  apply prog_bind_inv in H0 as [(sel & w1 & Hc & _)|(e & Hc & _)];
    apply choice_inv in Hc as [(_ & l & Hfita & Hl & Hnd & Hall & El & Ha)|
                               (Hgt & _)]; try lia.
  2:{ discriminate. }
  inversion El; subst l. destruct w as [a t]. simpl in Hfita, Ha. subst t.
  assert (Hne : sel <> []) by (intros ->; simpl in Hl; lia).
  destruct (selecao_ok cfg populacao aptidoes sel a (fita w1) Hne Hl Hnd Hall Hlen)
    as (antes & m & depois & r & E & Hm & P).
  rewrite E in H. inversion H; subst. simpl.
  exists sel, antes, m, depois, r.
  split; [reflexivity|]. split; [reflexivity|]. split; [reflexivity|].
  split; [exact Hl|]. split; [exact Hnd|]. split; [exact Hall|].
  split; [exact Hm | exact P].
Qed.

(** X5.  When the tournament size is at least 1 and at most the population
    size, every run of [selecao] ends normally.  It reads one draw of
    distinct indices, returns a member of the population whose fitness is
    not smaller than that of any drawn index, and leaves the arrays of the
    store as they are. *)
Theorem X5_selecao_devolve_o_melhor_sorteado (cfg : parametros)
    (populacao : list ref) (aptidoes : list R) (w : mundo)
    (res : resultado ref) (w' : mundo) :
  (1 <= TAMANHO_TORNEIO cfg <= length populacao)%nat ->
  length aptidoes = length populacao ->
  selecao cfg populacao aptidoes w = Some (res, w') ->
  exists selecionados m r,
    res = Ok r /\
    fita w = SChoice selecionados :: fita w' /\
    arrays w' = arrays w /\
    m ∈ selecionados /\
    populacao !! m = Some r /\
    Forall (fun j => nth j aptidoes 0 <= nth m aptidoes 0) selecionados.
Proof.
  intros Ht Hlen H.
  destruct (selecao_inv cfg populacao aptidoes w res w' Ht Hlen H)
    as (sel & antes & m & depois & r & -> & Hf & Ha & _ & _ & _ & Hm & P).
  exists sel, m, r. repeat split; try assumption.
  - destruct P as (-> & _). apply list_elem_of_In, in_elt.
  - exact (primeiro_maximo_cota _ _ _ _ _ P).
Qed.

Lemma X5_witness :
  exists selecionados m r,
    Ok 12%nat = Ok r /\
    [SChoice [0; 2; 1]%nat] = SChoice selecionados :: [] /\
    @nil (list R) = [] /\
    m ∈ selecionados /\
    [10; 11; 12; 13]%nat !! m = Some r /\
    Forall (fun j => nth j [1; 3; 3; 2] 0 <= nth m [1; 3; 3; 2] 0) selecionados.
Proof.
  exact (X5_selecao_devolve_o_melhor_sorteado parametros_fonte
           [10; 11; 12; 13]%nat [1; 3; 3; 2]
           {| arrays := []; fita := [SChoice [0; 2; 1]%nat] |} _ _
           ltac:(simpl; lia) eq_refl selecao_empate).
Defined.

(** X6.  [selecao] raises ValueError, without reading the generator, when
    the tournament is larger than the population ([np.random.choice] without
    replacement); and with a tournament of size 0 every run raises
    ValueError, [max] being applied to an empty draw. *)
Theorem X6_selecao_erros (cfg : parametros) (populacao : list ref)
    (aptidoes : list R) (w : mundo) :
  ((length populacao < TAMANHO_TORNEIO cfg)%nat ->
   selecao cfg populacao aptidoes w = Some (Erro ValueError, w)) /\
  (TAMANHO_TORNEIO cfg = 0%nat ->
   (forall res w', selecao cfg populacao aptidoes w = Some (res, w') ->
                   res = Erro ValueError) /\
   (forall t, selecao cfg populacao aptidoes
                {| arrays := arrays w; fita := SChoice [] :: t |}
              = Some (Erro ValueError, {| arrays := arrays w; fita := t |}))).
Proof.
  split; [apply selecao_erro|]. intros Ht. split.
  - intros res w' H. unfold selecao in H. rewrite Ht in H.
    apply prog_bind_inv in H as [(sel & w1 & Hc & H)|(e & Hc & ->)];
      apply choice_inv in Hc as [(_ & l & _ & Hl & _ & _ & El & _)|(_ & El & _)];
      try discriminate.
    + inversion El; subst l. destruct sel; [|discriminate].
      inversion H. reflexivity.
    + congruence.
  - intros t. unfold selecao. rewrite Ht.
    rewrite (prog_bind_Ok _ _ _ [] {| arrays := arrays w; fita := t |});
      [reflexivity|].
    apply (choice_ok (arrays w) (length populacao) [] t);
      [simpl; lia | constructor | constructor].
Qed.

(** * Further properties of crossover *)

Lemma filho_lookup {A} ponto (p1 p2 : list A) i :
  (ponto <= length p1)%nat ->
  (take ponto p1 ++ drop ponto p2) !! i
  = if decide (i < ponto)%nat then p1 !! i else p2 !! i.
Proof.
  intros Hk. destruct (decide (i < ponto)%nat) as [Hi|Hi].
  - rewrite lookup_app_l by (rewrite length_take; lia).
    now apply lookup_take_lt.
  - rewrite lookup_app_r by (rewrite length_take; lia).
    rewrite length_take, lookup_drop. f_equal. lia.
Qed.

Lemma cruzar_de_volta {A} ponto (p1 p2 : list A) :
  (ponto <= length p1)%nat -> (ponto <= length p2)%nat ->
  take ponto (take ponto p1 ++ drop ponto p2)
  ++ drop ponto (take ponto p2 ++ drop ponto p1) = p1.
Proof.
  intros H1 H2.
  rewrite take_app_length' by (rewrite length_take; lia).
  rewrite drop_app_length' by (rewrite length_take; lia).
  apply take_drop.
Qed.

Lemma lookup_dois_novos {A} (a : list A) x y :
  (a ++ [x; y]) !! length a = Some x /\
  (a ++ [x; y]) !! S (length a) = Some y.
Proof.
  split.
  - now apply list_lookup_middle.
  - rewrite lookup_app_r by lia.
    replace (S (length a) - length a)%nat with 1%nat by lia. reflexivity.
Qed.

(** X7.  On two parents of one length L >= 3, every run of [cruzamento] ends
    normally with two chromosomes of length L.  At each index the two
    children hold the two genes that the parents hold at that index, in the
    same order or swapped; the first gene is never swapped.  The arrays that
    were in the store are kept as they are. *)
Theorem X7_cruzamento_conserva_os_genes (cfg : parametros) (pai1 pai2 : ref)
    (w : mundo) (p1 p2 : list R) (res : resultado (ref * ref)) (w' : mundo) :
  arrays w !! pai1 = Some p1 -> arrays w !! pai2 = Some p2 ->
  length p1 = length p2 -> (3 <= length p1)%nat ->
  cruzamento cfg pai1 pai2 w = Some (res, w') ->
  exists f1 f2 c1 c2,
    res = Ok (f1, f2) /\
    arrays w' !! f1 = Some c1 /\ arrays w' !! f2 = Some c2 /\
    length c1 = length p1 /\ length c2 = length p1 /\
    (forall i, (c1 !! i = p1 !! i /\ c2 !! i = p2 !! i) \/
               (c1 !! i = p2 !! i /\ c2 !! i = p1 !! i)) /\
    c1 !! 0%nat = p1 !! 0%nat /\ c2 !! 0%nat = p2 !! 0%nat /\
    (forall r0 c0, arrays w !! r0 = Some c0 -> arrays w' !! r0 = Some c0).
Proof.
  intros H1 H2 Hlen HL H.
  destruct (cruzamento_inv cfg pai1 pai2 w p1 p2 res w' H1 H2 H)
    as (u & _ & [(_ & _ & -> & Ha)|[(_ & k & Hk & _ & -> & Ha)|
                                    (_ & Hle & _)]]); [| |lia].
  - exists pai1, pai2, p1, p2. rewrite Ha.
    split; [reflexivity|]. split; [exact H1|]. split; [exact H2|].
    split; [reflexivity|]. split; [lia|].
    split; [intros i; now left|].
    split; [reflexivity|]. split; [reflexivity|]. now intros r0 c0 Hr.
  - exists (length (arrays w)), (S (length (arrays w))),
      (take k p1 ++ drop k p2), (take k p2 ++ drop k p1).
    rewrite Ha.
    destruct (lookup_dois_novos (arrays w) (take k p1 ++ drop k p2)
                (take k p2 ++ drop k p1)) as [L1 L2].
    split; [reflexivity|]. split; [exact L1|]. split; [exact L2|].
    split; [now apply filho_length|].
    split; [rewrite filho_length by lia; lia|].
    split; [|split; [|split]].
    + intros i. rewrite !filho_lookup by lia.
      destruct (decide (i < k)%nat); [now left | now right].
    + rewrite filho_lookup by lia.
      destruct (decide (0 < k)%nat); [reflexivity | lia].
    + rewrite filho_lookup by lia.
      destruct (decide (0 < k)%nat); [reflexivity | lia].
    + intros r0 c0 Hr. now apply lookup_app_l_Some.
Qed.

Lemma X7_witness :
  exists f1 f2 c1 c2,
    Ok (2%nat, 3%nat) = Ok (f1, f2) /\
    [replicate 18 0; replicate 18 1;
     replicate 16 0 ++ replicate 2 1; replicate 16 1 ++ replicate 2 0]
      !! f1 = Some c1 /\
    [replicate 18 0; replicate 18 1;
     replicate 16 0 ++ replicate 2 1; replicate 16 1 ++ replicate 2 0]
      !! f2 = Some c2 /\
    length c1 = length (replicate 18 0) /\
    length c2 = length (replicate 18 0) /\
    (forall i, (c1 !! i = replicate 18 0 !! i /\ c2 !! i = replicate 18 1 !! i) \/
               (c1 !! i = replicate 18 1 !! i /\ c2 !! i = replicate 18 0 !! i)) /\
    c1 !! 0%nat = replicate 18 0 !! 0%nat /\
    c2 !! 0%nat = replicate 18 1 !! 0%nat /\
    (forall r0 c0, [replicate 18 0; replicate 18 1] !! r0 = Some c0 ->
       [replicate 18 0; replicate 18 1;
        replicate 16 0 ++ replicate 2 1; replicate 16 1 ++ replicate 2 0]
         !! r0 = Some c0).
Proof.
  assert (Hrun :
    cruzamento parametros_fonte 0%nat 1%nat
      {| arrays := [replicate 18 0; replicate 18 1];
         fita := [SRand 0.5; SRandInt 16] |}
    = Some (Ok (2%nat, 3%nat),
            {| arrays := [replicate 18 0; replicate 18 1;
                          replicate 16 0 ++ replicate 2 1;
                          replicate 16 1 ++ replicate 2 0];
               fita := [] |})).
  { apply (cruzamento_com_corte parametros_fonte 0%nat 1%nat
             [replicate 18 0; replicate 18 1] (replicate 18 0)
             (replicate 18 1) 0.5 16 []);
      [unfold em_0_1; lra | simpl; lra | reflexivity | reflexivity
      | simpl; lia]. }
  exact (X7_cruzamento_conserva_os_genes parametros_fonte 0%nat 1%nat
           {| arrays := [replicate 18 0; replicate 18 1];
              fita := [SRand 0.5; SRandInt 16] |}
           (replicate 18 0) (replicate 18 1) _ _
           eq_refl eq_refl eq_refl ltac:(simpl; lia) Hrun).
Defined.

(** X8.  When the crossover is drawn on a first parent of fewer than 3
    genes, [cruzamento] raises ValueError: [np.random.randint(1, len - 1)]
    has no integer to draw. *)
Theorem X8_cruzamento_pais_curtos (cfg : parametros) (pai1 pai2 : ref)
    (a : list (list R)) (p1 p2 : list R) (u : R) (t : list sorteio) :
  a !! pai1 = Some p1 -> a !! pai2 = Some p2 ->
  (length p1 < 3)%nat ->
  em_0_1 u -> u < TAXA_CRUZAMENTO cfg ->
  cruzamento cfg pai1 pai2 {| arrays := a; fita := SRand u :: t |}
  = Some (Erro ValueError, {| arrays := a; fita := t |}).
Proof.
  intros H1 H2 Hl Hu Ht. unfold cruzamento.
  rewrite (prog_bind_Ok _ _ _ _ _ (rand_ok a u _ Hu)).
  rewrite Rlt_b_true by exact Ht.
  rewrite (prog_bind_Ok _ _ _ p1 {| arrays := a; fita := t |})
    by now apply ler_ok.
  rewrite (prog_bind_Ok _ _ _ p2 {| arrays := a; fita := t |})
    by now apply ler_ok.
  rewrite (prog_bind_Erro _ _ _ ValueError {| arrays := a; fita := t |});
    [reflexivity|].
  unfold randint.
  destruct (decide (1 < length p1 - 1)%nat); [lia | reflexivity].
Qed.

Lemma X8_witness :
  cruzamento parametros_fonte 0%nat 0%nat
    {| arrays := [[1; 2]]; fita := SRand 0.5 :: [] |}
  = Some (Erro ValueError, {| arrays := [[1; 2]]; fita := [] |}).
Proof.
  apply (X8_cruzamento_pais_curtos parametros_fonte 0%nat 0%nat [[1; 2]]
           [1; 2] [1; 2] 0.5 []);
    [reflexivity | reflexivity | simpl; lia | unfold em_0_1; lra | simpl; lra].
Defined.

(** X9.  Crossing two parents of one length at a point and then crossing the
    two children at the same point gives back the genes of the parents. *)
Theorem X9_cruzamento_ida_e_volta (cfg : parametros) (pai1 pai2 : ref)
    (a : list (list R)) (p1 p2 : list R) (u1 u2 : R) (ponto : nat)
    (t : list sorteio) :
  a !! pai1 = Some p1 -> a !! pai2 = Some p2 ->
  length p1 = length p2 ->
  (1 <= ponto < length p1 - 1)%nat ->
  em_0_1 u1 -> u1 < TAXA_CRUZAMENTO cfg ->
  em_0_1 u2 -> u2 < TAXA_CRUZAMENTO cfg ->
  exists f1 f2 w1 g1 g2 w2,
    cruzamento cfg pai1 pai2
      {| arrays := a;
         fita := SRand u1 :: SRandInt ponto
                 :: SRand u2 :: SRandInt ponto :: t |}
    = Some (Ok (f1, f2), w1) /\
    cruzamento cfg f1 f2 w1 = Some (Ok (g1, g2), w2) /\
    arrays w2 !! g1 = Some p1 /\ arrays w2 !! g2 = Some p2 /\
    fita w2 = t.
Proof.
  intros H1 H2 Hlen Hk Hu1 Ht1 Hu2 Ht2.
  set (c1 := take ponto p1 ++ drop ponto p2).
  set (c2 := take ponto p2 ++ drop ponto p1).
  destruct (lookup_dois_novos a c1 c2) as [L1 L2].
  assert (Hc1 : length c1 = length p1) by now apply filho_length.
  assert (Hc2 : length c2 = length p1)
    by (unfold c2; rewrite filho_length by lia; lia).
  destruct (lookup_dois_novos (a ++ [c1; c2])
              (take ponto c1 ++ drop ponto c2)
              (take ponto c2 ++ drop ponto c1)) as [M1 M2].
  eexists _, _, _, _, _, _. split; [|split; [|split; [|split]]].
  - apply (cruzamento_com_corte cfg pai1 pai2 a p1 p2 u1 ponto _
             Hu1 Ht1 H1 H2 Hk).
  - apply (cruzamento_com_corte cfg _ _ (a ++ [c1; c2]) c1 c2 u2 ponto t
             Hu2 Ht2 L1 L2). lia.
  - transitivity (Some (take ponto c1 ++ drop ponto c2)); [exact M1|].
    f_equal. unfold c1, c2. apply cruzar_de_volta; lia.
  - transitivity (Some (take ponto c2 ++ drop ponto c1)); [exact M2|].
    f_equal. unfold c1, c2. apply cruzar_de_volta; lia.
  - reflexivity.
Qed.

Lemma X9_witness :
  exists f1 f2 w1 g1 g2 w2,
    cruzamento parametros_fonte 0%nat 1%nat
      {| arrays := [c_fraco; c_forte];
         fita := SRand 0.5 :: SRandInt 7 :: SRand 0.25 :: SRandInt 7 :: [] |}
    = Some (Ok (f1, f2), w1) /\
    cruzamento parametros_fonte f1 f2 w1 = Some (Ok (g1, g2), w2) /\
    arrays w2 !! g1 = Some c_fraco /\ arrays w2 !! g2 = Some c_forte /\
    fita w2 = [].
Proof.
  apply (X9_cruzamento_ida_e_volta parametros_fonte 0%nat 1%nat
           [c_fraco; c_forte] c_fraco c_forte 0.5 0.25 7 []);
    try reflexivity; try (unfold em_0_1; lra); try (simpl; lra); simpl; lia.
Defined.

(** * Further properties of mutation *)

Lemma consumir_inv_geral taxa genes : forall i t genes' t',
  consumir_mutacao taxa i genes t = Some (genes', t') ->
  length genes' = length genes /\
  forall j x, genes !! j = Some x ->
    exists y, genes' !! j = Some y /\
              (y = x \/
               exists g, suporte_normal g /\
                         y = gene_mutado (i + j) x (0 + 0.2 * g)).
Proof.
  induction genes as [|x0 resto IH]; intros i t genes' t' H.
  - inversion H; subst. split; [reflexivity|]. intros j x Hj. discriminate.
  - simpl in H. destruct t as [|[u|k|g|l] t1]; try discriminate.
    destruct (Rle_b 0 u && Rlt_b u 1); [|discriminate].
    destruct (Rlt_b u taxa).
    + destruct t1 as [|[u'|k'|g|l'] t2]; try discriminate.
      destruct (Rle_b (Rabs g) LIMITE_GAUSS) eqn:Hsup; [|discriminate].
      apply suporte_normal_b in Hsup.
      destruct (consumir_mutacao taxa (S i) resto t2) as [[resto' t'']|] eqn:E;
        [|discriminate].
      inversion H; subst. apply IH in E as [Hlen Hg].
      split; [simpl; now rewrite Hlen|].
      intros [|j] x Hj; simpl in Hj.
      * inversion Hj; subst. eexists. split; [reflexivity|].
        right. exists g. split; [exact Hsup|]. now rewrite Nat.add_0_r.
      * destruct (Hg j x Hj) as (y & Hy & Hcase). exists y. split; [exact Hy|].
        replace (i + S j)%nat with (S i + j)%nat by lia. exact Hcase.
    + destruct (consumir_mutacao taxa (S i) resto t1) as [[resto' t'']|] eqn:E;
        [|discriminate].
      inversion H; subst. apply IH in E as [Hlen Hg].
      split; [simpl; now rewrite Hlen|].
      intros [|j] x Hj; simpl in Hj.
      * inversion Hj; subst. exists x. split; [reflexivity | now left].
      * destruct (Hg j x Hj) as (y & Hy & Hcase). exists y. split; [exact Hy|].
        replace (i + S j)%nat with (S i + j)%nat by lia. exact Hcase.
Qed.

Lemma raios_ok_mutados c c' :
  length c' = length c ->
  (forall j x, c !! j = Some x ->
     exists y, c' !! j = Some y /\
               (y = x \/
                exists g, suporte_normal g /\
                          y = gene_mutado j x (0 + 0.2 * g))) ->
  raios_ok c -> raios_ok c'.
Proof.
  intros Hlen Hg Hc i y Hi Hmod.
  assert (Hlt : (i < length c)%nat).
  { rewrite <- Hlen. eapply lookup_lt_Some; eauto. }
  destruct (lookup_lt_is_Some_2 c i Hlt) as [x Hx].
  destruct (Hg i x Hx) as (y' & Hy' & Hcase).
  assert (y' = y) by congruence. subst y'.
  destruct Hcase as [->|(g & _ & ->)].
  - now apply (Hc i x).
  - now apply gene_mutado_raio.
Qed.

Lemma mutacao_inv_geral cfg (r : ref) w c res w' :
  arrays w !! r = Some c ->
  mutacao cfg r w = Some (res, w') ->
  exists c',
    res = Ok r /\
    arrays w' = <[r := c']> (arrays w) /\
    length c' = length c /\
    (forall i x, c !! i = Some x ->
       exists y, c' !! i = Some y /\
                 (y = x \/
                  exists g, suporte_normal g /\
                            y = gene_mutado i x (0 + 0.2 * g))).
Proof.
  intros Hr H. destruct w as [a t]. simpl in Hr.
  rewrite (mutacao_eq cfg r a t c Hr) in H.
  destruct (consumir_mutacao _ 0 c t) as [[c' t']|] eqn:E; [|discriminate].
  apply consumir_inv_geral in E as [Hlen Hg].
  inversion H; subst. exists c'. simpl. repeat split; assumption.
Qed.

(** X10.  At any mutation rate, every run of [mutacao] ends normally and
    returns the reference it was given: the chromosome is changed in place,
    keeps its length, and each of its genes is either unchanged or the
    perturbed value, the gene plus the noise [0 + 0.2 * g] of a standard
    normal variate [g] (clamped to the minimum radius for a radius gene);
    radius genes that were at least the minimum stay so; no other array of
    the store is touched and the store keeps its size. *)
Theorem X10_mutacao_no_lugar (cfg : parametros) (r : ref) (w : mundo)
    (c : list R) (res : resultado ref) (w' : mundo) :
  arrays w !! r = Some c ->
  mutacao cfg r w = Some (res, w') ->
  exists c',
    res = Ok r /\
    arrays w' !! r = Some c' /\
    length c' = length c /\
    (forall i x, c !! i = Some x ->
       exists y, c' !! i = Some y /\
                 (y = x \/
                  exists g, suporte_normal g /\
                            y = gene_mutado i x (0 + 0.2 * g))) /\
    (raios_ok c -> raios_ok c') /\
    (forall r0, r0 <> r -> arrays w' !! r0 = arrays w !! r0) /\
    length (arrays w') = length (arrays w).
Proof.
  intros Hr H.
  destruct (mutacao_inv_geral cfg r w c res w' Hr H)
    as (c' & -> & Ha & Hlen & Hg).
  exists c'. rewrite Ha.
  split; [reflexivity|].
  split; [apply list_lookup_insert_eq; eapply lookup_lt_Some; eauto|].
  split; [exact Hlen|]. split; [exact Hg|].
  split; [now apply raios_ok_mutados|].
  split; [|apply length_insert].
  intros r0 Hne. now apply list_lookup_insert_ne.
Qed.

Lemma X10_witness :
  exists c',
    Ok 0%nat = Ok 0%nat /\
    <[0%nat := gene_mutado 0 0.5 (0 + 0.2 * 1.5) :: drop 1 c_inicial]>
      [c_inicial; c_forte] !! 0%nat = Some c' /\
    length c' = length c_inicial /\
    (forall i x, c_inicial !! i = Some x ->
       exists y, c' !! i = Some y /\
                 (y = x \/
                  exists g, suporte_normal g /\
                            y = gene_mutado i x (0 + 0.2 * g))) /\
    (raios_ok c_inicial -> raios_ok c') /\
    (forall r0, r0 <> 0%nat ->
       <[0%nat := gene_mutado 0 0.5 (0 + 0.2 * 1.5) :: drop 1 c_inicial]>
         [c_inicial; c_forte] !! r0
       = [c_inicial; c_forte] !! r0) /\
    length (<[0%nat := gene_mutado 0 0.5 (0 + 0.2 * 1.5) :: drop 1 c_inicial]>
              [c_inicial; c_forte])
    = length [c_inicial; c_forte].
Proof.
  refine (X10_mutacao_no_lugar parametros_fonte 0%nat
            {| arrays := [c_inicial; c_forte];
               fita := SRand 0 :: SNormal 1.5
                       :: map SRand (replicate 17 0.5) ++ [] |}
            c_inicial (Ok 0%nat)
            {| arrays := <[0%nat := gene_mutado 0 0.5 (0 + 0.2 * 1.5)
                                    :: drop 1 c_inicial]>
                           [c_inicial; c_forte];
               fita := [] |} eq_refl _).
  apply (mutacao_primeiro_gene parametros_fonte 0%nat [c_inicial; c_forte]
           0.5 (drop 1 c_inicial) 0 1.5 (replicate 17 0.5) []);
    [reflexivity | unfold em_0_1; lra | simpl; lra | exact suporte_normal_15
    | reflexivity|].
  apply moedas_sem_mutar. simpl. lra.
Defined.

(** One mutation moves a position or current gene by at most 0.2 * 12.01. *)
Lemma mutacao_deslocamento cfg (r : ref) w c res w' :
  arrays w !! r = Some c ->
  mutacao cfg r w = Some (res, w') ->
  exists c',
    arrays w' !! r = Some c' /\ length c' = length c /\
    forall i x, c !! i = Some x -> (i mod 3 <> 0)%nat ->
      exists y, c' !! i = Some y /\ Rabs (y - x) <= 0.2 * LIMITE_GAUSS.
Proof.
  intros Hr H.
  destruct (mutacao_inv_geral cfg r w c res w' Hr H)
    as (c' & _ & Ha & Hlen & Hg).
  exists c'. rewrite Ha.
  split; [apply list_lookup_insert_eq; eapply lookup_lt_Some; eauto|].
  split; [exact Hlen|]. intros i x Hi Hmod.
  destruct (Hg i x Hi) as (y & Hy & [->|(g & Hsup & ->)]);
    eexists; (split; [exact Hy|]).
  - rewrite Rminus_diag, Rabs_R0. unfold LIMITE_GAUSS. lra.
  - rewrite gene_mutado_outro by exact Hmod.
    replace (x + (0 + 0.2 * g) - x) with (0.2 * g) by lra.
    now apply ruido_limitado.
Qed.

(** X11.  Mutation repairs radii only, and its noise is bounded.  At any
    rate strictly between 0 and 1, for a chromosome of 18 genes and a
    standard normal variate [g] of the support with
    [corrente + 0.2 * g <= 0] for the current of the first coil, the run of
    [mutacao] that perturbs just that gene with [g] leaves the current at
    [corrente + 0.2 * g] (no repair), and the fitness of the mutated
    chromosome is the sentinel.  Conversely, in every run of [mutacao] each
    current of the result is at least the former current minus
    [0.2 * LIMITE_GAUSS], so a chromosome with valid radii whose currents all
    exceed that bound is still structurally valid after the mutation. *)
Theorem X11_mutacao_pode_invalidar (cfg : parametros) (r : ref)
    (a : list (list R)) (c : list R) :
  a !! r = Some c ->
  length c = (3 * NUM_BOBINAS)%nat ->
  (forall g t,
     0 < TAXA_MUTACAO cfg < 1 ->
     suporte_normal g -> corrente_de c 0 + 0.2 * g <= 0 ->
     exists c',
       mutacao cfg r
         {| arrays := a;
            fita := ([SRand (TAXA_MUTACAO cfg); SRand (TAXA_MUTACAO cfg);
                      SRand 0; SNormal g]
                     ++ map SRand (replicate 15 (TAXA_MUTACAO cfg))) ++ t |}
       = Some (Ok r, {| arrays := <[r := c']> a; fita := t |}) /\
       corrente_de c' 0 = corrente_de c 0 + 0.2 * g /\
       calcular_aptidao c' = Ok (-1e9)) /\
  (forall t res w',
     mutacao cfg r {| arrays := a; fita := t |} = Some (res, w') ->
     exists c',
       arrays w' !! r = Some c' /\
       (forall k, (k < NUM_BOBINAS)%nat ->
          corrente_de c k - 0.2 * LIMITE_GAUSS <= corrente_de c' k) /\
       (raios_ok c ->
        (forall k, (k < NUM_BOBINAS)%nat ->
           0.2 * LIMITE_GAUSS < corrente_de c k) ->
        estruturalmente_valido c')).
Proof.
  intros Hr Hl. split.
  - intros g t [Ht0 Ht1] Hsup Hg.
    destruct c as [|x0 [|x1 [|x2 resto]]]; try discriminate.
    set (taxa := TAXA_MUTACAO cfg) in *.
    unfold corrente_de in Hg. simpl in Hg.
    exists (x0 :: x1 :: gene_mutado 2 x2 (0 + 0.2 * g) :: resto).
    assert (Eg : gene_mutado 2 x2 (0 + 0.2 * g) = x2 + 0.2 * g).
    { rewrite gene_mutado_outro by (simpl; lia). lra. }
    split; [|split].
    + rewrite (mutacao_eq cfg r a _ _ Hr). fold taxa.
      rewrite <- app_assoc. cbn [app consumir_mutacao].
      rewrite (proj2 (suporte_rand taxa)) by (unfold em_0_1; lra).
      rewrite (Rlt_b_false taxa taxa) by lra.
      rewrite (proj2 (suporte_rand 0)) by (unfold em_0_1; lra).
      rewrite (Rlt_b_true 0 taxa) by exact Ht0.
      rewrite (proj2 (suporte_normal_b g) Hsup).
      rewrite consumir_sem_mutar; [reflexivity | |].
      * rewrite length_replicate. simpl in Hl. lia.
      * apply Forall_replicate. unfold em_0_1. lra.
    + unfold corrente_de. simpl. exact Eg.
    + apply calcular_aptidao_invalido with 0%nat.
      * simpl. simpl in Hl. exact Hl.
      * unfold NUM_BOBINAS. lia.
      * right. unfold corrente_de. simpl. rewrite Eg. exact Hg.
  - intros t res w' H.
    destruct (mutacao_deslocamento cfg r {| arrays := a; fita := t |} c res w'
                Hr H) as (c' & Hc' & Hlen & Hd).
    destruct (mutacao_inv_geral cfg r {| arrays := a; fita := t |} c res w'
                Hr H) as (c'' & _ & Ha & _ & Hg).
    assert (Ec : c'' = c').
    { rewrite Ha in Hc'. simpl in Hc'.
      rewrite list_lookup_insert_eq in Hc' by (eapply lookup_lt_Some; eauto).
      congruence. }
    subst c''.
    assert (Hcor : forall k, (k < NUM_BOBINAS)%nat ->
              corrente_de c k - 0.2 * LIMITE_GAUSS <= corrente_de c' k).
    { intros k Hk. unfold corrente_de.
      assert (Hlt : (3 * k + 2 < length c)%nat)
        by (rewrite Hl; unfold NUM_BOBINAS in *; lia).
      destruct (lookup_lt_is_Some_2 c _ Hlt) as [x Hx].
      destruct (Hd _ x Hx) as (y & Hy & Hxy).
      { rewrite Nat.add_comm, Nat.mul_comm, Nat.Div0.mod_add. simpl. lia. }
      rewrite (nth_lookup_Some _ _ _ _ Hx), (nth_lookup_Some _ _ _ _ Hy).
      unfold Rabs in Hxy. destruct (Rcase_abs (y - x)); lra. }
    exists c'. split; [exact Hc'|]. split; [exact Hcor|].
    intros Hraios Hgrande. split; [congruence|].
    intros k Hk. split.
    + unfold raio_de.
      assert (Hlt : (3 * k < length c')%nat)
        by (rewrite Hlen, Hl; unfold NUM_BOBINAS in *; lia).
      destruct (lookup_lt_is_Some_2 c' _ Hlt) as [x Hx].
      rewrite (nth_lookup_Some _ _ _ _ Hx).
      apply (raios_ok_mutados c c' Hlen Hg Hraios (3 * k)%nat x Hx).
      rewrite Nat.mul_comm. apply Nat.Div0.mod_mul.
    + specialize (Hcor k Hk). specialize (Hgrande k Hk). lra.
Qed.

Lemma X11_witness :
  exists c',
    mutacao parametros_fonte 0%nat
            {| arrays := [c_fraco];
               fita := ([SRand (TAXA_MUTACAO parametros_fonte);
                         SRand (TAXA_MUTACAO parametros_fonte);
                         SRand 0; SNormal (-5)]
                        ++ map SRand (replicate 15
                                        (TAXA_MUTACAO parametros_fonte)))
                       ++ [] |}
    = Some (Ok 0%nat, {| arrays := <[0%nat := c']> [c_fraco]; fita := [] |}) /\
    corrente_de c' 0 = corrente_de c_fraco 0 + 0.2 * -5 /\
    calcular_aptidao c' = Ok (-1e9).
Proof.
  apply (proj1 (X11_mutacao_pode_invalidar parametros_fonte 0%nat [c_fraco]
                  c_fraco eq_refl eq_refl) (-5) []).
  - simpl. lra.
  - unfold suporte_normal, LIMITE_GAUSS. rewrite Rabs_left by lra. lra.
  - unfold corrente_de, c_fraco. simpl. lra.
Defined.

(** * Invariants of the generations *)

(** ** Rules for [sempre] *)

Lemma sempre_ret {A} (a : A) w (Q : A -> mundo -> Prop) :
  Q a w -> sempre (mret a) w Q.
Proof. intros HQ r w' H. inversion H; subst. now exists a. Qed.

Lemma sempre_bind {A B} (m : prog A) (f : A -> prog B) w
    (Q1 : A -> mundo -> Prop) (Q2 : B -> mundo -> Prop) :
  sempre m w Q1 ->
  (forall a w1, Q1 a w1 -> sempre (f a) w1 Q2) ->
  sempre (m ≫= f) w Q2.
Proof.
  intros Hm Hf r w' H.
  apply prog_bind_inv in H as [(a & w1 & H1 & H2)|(e & H1 & _)].
  - destruct (Hm _ _ H1) as (a' & Ea & HQ). inversion Ea; subst a'.
    exact (Hf a w1 HQ r w' H2).
  - destruct (Hm _ _ H1) as (a' & Ea & _). discriminate.
Qed.

Lemma sempre_conseq {A} (m : prog A) w (Q1 Q2 : A -> mundo -> Prop) :
  sempre m w Q1 -> (forall a w', Q1 a w' -> Q2 a w') -> sempre m w Q2.
Proof.
  intros Hm Himp r w' H. destruct (Hm _ _ H) as (a & -> & HQ).
  exists a. split; [reflexivity | now apply Himp].
Qed.

(** ** The store invariant *)

Lemma arrays_ok_lookup a (r : ref) :
  arrays_ok a -> (r < length a)%nat ->
  exists c, a !! r = Some c /\ cromossomo_ok c.
Proof.
  intros Hok Hr. destruct (lookup_lt_is_Some_2 a r Hr) as [c Hc].
  exists c. split; [exact Hc|]. exact (Forall_lookup_1 _ _ _ _ Hok Hc).
Qed.

Lemma refs_ok_mono a a' populacao :
  refs_ok a populacao -> (length a <= length a')%nat -> refs_ok a' populacao.
Proof.
  intros H Hle. eapply Forall_impl; [exact H|]. intros r Hr. simpl in Hr. lia.
Qed.

Lemma refs_ok_em a populacao :
  arrays_ok a -> refs_ok a populacao -> Forall (cromossomo_em a) populacao.
Proof.
  intros Hok Hrefs. eapply Forall_impl; [exact Hrefs|]. intros r Hr.
  destruct (arrays_ok_lookup a r Hok Hr) as (c & Hc & Hl & _).
  now exists c.
Qed.

Lemma c_inicial_ok : cromossomo_ok c_inicial.
Proof.
  split; [reflexivity|]. intros i x Hi Hmod. unfold c_inicial in Hi.
  do 18 (destruct i as [|i];
         [first [ discriminate Hmod
                | inversion Hi; subst; unfold RAIO_MINIMO; lra ]|]).
  discriminate.
Qed.

Lemma raios_ok_de_limites c :
  length c = (3 * NUM_BOBINAS)%nat -> nos_limites_iniciais c -> raios_ok c.
Proof.
  intros Hl Hlim i x Hi Hmod.
  assert (Hlt : (i < 3 * NUM_BOBINAS)%nat).
  { rewrite <- Hl. eapply lookup_lt_Some; eauto. }
  assert (Ei : i = (3 * (i / 3))%nat).
  { pose proof (Nat.div_mod_eq i 3). lia. }
  destruct (Hlim (i / 3)%nat) as ([Hr _] & _).
  { unfold NUM_BOBINAS in *. lia. }
  unfold raio_de in Hr. rewrite <- Ei in Hr.
  now rewrite (nth_lookup_Some _ _ _ _ Hi) in Hr.
Qed.

Lemma raio_de_ok c k :
  cromossomo_ok c -> (k < NUM_BOBINAS)%nat -> RAIO_MINIMO <= raio_de c k.
Proof.
  intros [Hl Hr] Hk. unfold raio_de.
  assert (Hlt : (3 * k < length c)%nat) by (rewrite Hl; lia).
  destruct (lookup_lt_is_Some_2 c (3 * k) Hlt) as [x Hx].
  rewrite (nth_lookup_Some _ _ _ _ Hx). apply (Hr (3 * k)%nat x Hx).
  rewrite Nat.mul_comm. apply Nat.Div0.mod_mul.
Qed.

(** ** The operators keep the invariant *)

Lemma selecao_sempre cfg populacao aptidoes w :
  (1 <= TAMANHO_TORNEIO cfg <= length populacao)%nat ->
  length aptidoes = length populacao ->
  sempre (selecao cfg populacao aptidoes) w
         (fun r w' => arrays w' = arrays w /\ r ∈ populacao).
Proof.
  intros Ht Hlen res w' H.
  destruct (selecao_inv cfg populacao aptidoes w res w' Ht Hlen H)
    as (sel & antes & m & depois & r & -> & _ & Ha & _ & _ & _ & Hm & _).
  exists r. split; [reflexivity|]. split; [exact Ha|].
  eapply list_elem_of_lookup_2; eauto.
Qed.

Lemma filho_ok ponto c1 c2 :
  cromossomo_ok c1 -> cromossomo_ok c2 ->
  cromossomo_ok (take ponto c1 ++ drop ponto c2).
Proof.
  intros [Hl1 Hr1] [Hl2 Hr2]. split.
  - rewrite length_app, length_take, length_drop. lia.
  - intros i x Hi Hmod. apply lookup_app_Some in Hi as [Hi|[Hge Hi]].
    + apply lookup_take_Some in Hi as [Hi _]. now apply (Hr1 i x).
    + rewrite lookup_drop in Hi. rewrite length_take in Hi, Hge.
      destruct (decide (ponto <= length c1)%nat) as [Hle|Hgt].
      * replace (ponto + (i - ponto `min` length c1))%nat with i in Hi by lia.
        now apply (Hr2 i x).
      * apply lookup_lt_Some in Hi. lia.
Qed.

Lemma cruzamento_sempre cfg (pai1 pai2 : ref) w :
  arrays_ok (arrays w) ->
  (pai1 < length (arrays w))%nat -> (pai2 < length (arrays w))%nat ->
  sempre (cruzamento cfg pai1 pai2) w
         (fun f w' =>
            arrays_ok (arrays w') /\
            (length (arrays w) <= length (arrays w'))%nat /\
            (fst f < length (arrays w'))%nat /\
            (snd f < length (arrays w'))%nat).
Proof.
  intros Hok H1 H2 res w' H.
  destruct (arrays_ok_lookup _ _ Hok H1) as (p1 & Hp1 & Hc1).
  destruct (arrays_ok_lookup _ _ Hok H2) as (p2 & Hp2 & Hc2).
  destruct (cruzamento_inv cfg pai1 pai2 w p1 p2 res w' Hp1 Hp2 H)
    as (u & _ & [(_ & _ & -> & Ha)|[(_ & k & Hk & _ & -> & Ha)|
                                    (_ & Hle & _)]]).
  - exists (pai1, pai2). rewrite Ha. now repeat split.
  - eexists. split; [reflexivity|]. rewrite Ha. simpl fst. simpl snd.
    rewrite length_app. simpl length. repeat split; try lia.
    apply Forall_app. split; [exact Hok|].
    constructor; [now apply filho_ok|].
    constructor; [now apply filho_ok | constructor].
  - destruct Hc1 as [Hl _]. rewrite Hl in Hle. unfold NUM_BOBINAS in Hle.
    simpl in Hle. lia.
Qed.

Lemma mutacao_sempre cfg (r : ref) w :
  arrays_ok (arrays w) -> (r < length (arrays w))%nat ->
  sempre (mutacao cfg r) w
         (fun r' w' =>
            r' = r /\ arrays_ok (arrays w') /\
            length (arrays w') = length (arrays w)).
Proof.
  intros Hok Hr res w' H.
  destruct (arrays_ok_lookup _ _ Hok Hr) as (c & Hc & Hl & Hraios).
  destruct (mutacao_inv_geral cfg r w c res w' Hc H)
    as (c' & -> & Ha & Hlen & Hg).
  exists r. split; [reflexivity|]. split; [reflexivity|]. rewrite Ha. split.
  - apply Forall_insert; [exact Hok|]. split; [congruence|].
    now apply (raios_ok_mutados c c').
  - apply length_insert.
Qed.

Lemma reproduzir_par_sempre cfg populacao aptidoes nova w :
  arrays_ok (arrays w) -> refs_ok (arrays w) populacao ->
  refs_ok (arrays w) nova ->
  (1 <= TAMANHO_TORNEIO cfg <= length populacao)%nat ->
  length aptidoes = length populacao ->
  sempre (reproduzir_par cfg populacao aptidoes nova) w
         (fun nova' w' =>
            arrays_ok (arrays w') /\
            (length (arrays w) <= length (arrays w'))%nat /\
            refs_ok (arrays w') nova' /\
            length nova' = (length nova + 2)%nat).
Proof.
  intros Hok Hpop Hnova Ht Hlen. unfold reproduzir_par.
  eapply sempre_bind; [now apply selecao_sempre|].
  intros pai1 w1 [Ha1 Hin1].
  eapply sempre_bind; [now apply selecao_sempre|].
  intros pai2 w2 [Ha2 Hin2].
  assert (Ea : arrays w2 = arrays w) by congruence.
  unfold refs_ok in Hpop. rewrite Forall_forall in Hpop.
  eapply sempre_bind.
  { apply cruzamento_sempre; rewrite Ea; [exact Hok | | ]; now apply Hpop. }
  intros [f1 f2] w3 (Hok3 & Hle3 & Hf1 & Hf2). simpl in Hf1, Hf2.
  eapply sempre_bind; [now apply mutacao_sempre|].
  intros m1 w4 (-> & Hok4 & Hlen4).
  eapply sempre_bind.
  { apply mutacao_sempre; [exact Hok4 | rewrite Hlen4; exact Hf2]. }
  intros m2 w5 (-> & Hok5 & Hlen5).
  apply sempre_ret. rewrite Ea in Hle3.
  split; [exact Hok5|]. split; [lia|]. split.
  - apply Forall_app. split.
    + apply (refs_ok_mono (arrays w)); [exact Hnova | lia].
    + repeat constructor; simpl; lia.
  - rewrite !length_app. simpl. lia.
Qed.

Lemma laco_reproduzir_sempre cfg n populacao aptidoes : forall nova w,
  arrays_ok (arrays w) -> refs_ok (arrays w) populacao ->
  refs_ok (arrays w) nova ->
  (1 <= TAMANHO_TORNEIO cfg <= length populacao)%nat ->
  length aptidoes = length populacao ->
  sempre (laco_reproduzir cfg n populacao aptidoes nova) w
         (fun nova' w' =>
            arrays_ok (arrays w') /\
            (length (arrays w) <= length (arrays w'))%nat /\
            refs_ok (arrays w') nova' /\
            length nova' = (length nova + 2 * n)%nat).
Proof.
  induction n as [|n IH]; intros nova w Hok Hpop Hnova Ht Hlen.
  - apply sempre_ret. repeat split; (assumption || lia).
  - cbn [laco_reproduzir].
    eapply sempre_bind; [now apply reproduzir_par_sempre|].
    intros nova1 w1 (Hok1 & Hle1 & Hnova1 & Hl1).
    eapply sempre_conseq.
    + apply IH; try assumption.
      apply (refs_ok_mono (arrays w)); assumption.
    + intros nova' w' (Hok' & Hle' & Hnova' & Hl').
      repeat split; (assumption || lia).
Qed.

Lemma py_max_ok l : l <> [] -> exists m, py_max l = Ok m.
Proof.
  intros Hne.
  destruct (py_max_key_primeiro (@Ok R) id l Hne) as (m & _ & _ & E & _).
  - apply Forall_forall. now intros.
  - now exists m.
Qed.

Lemma avaliar_sempre populacao w :
  arrays_ok (arrays w) -> refs_ok (arrays w) populacao ->
  sempre (avaliar populacao) w
         (fun aptidoes w' => w' = w /\ length aptidoes = length populacao).
Proof.
  intros Hok Hrefs res w' H. destruct w as [a t]. simpl in *.
  rewrite avaliar_ok in H by now apply refs_ok_em.
  inversion H; subst. eexists. split; [reflexivity|].
  split; [reflexivity | apply length_map].
Qed.

Lemma passo_geracao_sempre cfg geracao populacao w :
  arrays_ok (arrays w) -> refs_ok (arrays w) populacao ->
  (1 <= TAMANHO_TORNEIO cfg <= length populacao)%nat ->
  sempre (passo_geracao cfg geracao populacao) w
         (fun populacao' w' =>
            arrays_ok (arrays w') /\
            (length (arrays w) <= length (arrays w'))%nat /\
            refs_ok (arrays w') populacao' /\
            length populacao' = (2 * (TAMANHO_POPULACAO cfg / 2))%nat).
Proof.
  intros Hok Hrefs Ht. unfold passo_geracao.
  eapply sempre_bind; [now apply avaliar_sempre|].
  intros aptidoes w1 [-> Hlen].
  eapply sempre_bind.
  { apply laco_reproduzir_sempre; try assumption. constructor. }
  intros nova w2 (Hok2 & Hle2 & Hnova & Hl2).
  eapply sempre_bind with (Q1 := fun _ w3 => w3 = w2).
  - destruct (decide ((geracao + 1) mod 25 = 0)%nat); [|now apply sempre_ret].
    destruct (py_max_ok aptidoes) as [m Hm].
    { intros ->. simpl in Hlen. lia. }
    intros r w3 H. unfold puro in H. rewrite prog_bind_eq, Hm in H.
    inversion H; subst. now exists tt.
  - intros _ w3 ->. apply sempre_ret. repeat split; assumption.
Qed.

Lemma laco_geracoes_sempre cfg geracoes : forall populacao w,
  arrays_ok (arrays w) -> refs_ok (arrays w) populacao ->
  (1 <= TAMANHO_TORNEIO cfg <= length populacao)%nat ->
  (TAMANHO_TORNEIO cfg <= 2 * (TAMANHO_POPULACAO cfg / 2))%nat ->
  sempre (laco_geracoes cfg geracoes populacao) w
         (fun populacao' w' =>
            arrays_ok (arrays w') /\ refs_ok (arrays w') populacao' /\
            length populacao'
            = match geracoes with
              | [] => length populacao
              | _ :: _ => (2 * (TAMANHO_POPULACAO cfg / 2))%nat
              end).
Proof.
  induction geracoes as [|g resto IH]; intros pop w Hok Hrefs Ht Hp.
  - apply sempre_ret. now repeat split.
  - cbn [laco_geracoes].
    eapply sempre_bind; [now apply passo_geracao_sempre|].
    intros nova w1 (Hok1 & _ & Hrefs1 & Hl1).
    eapply sempre_conseq.
    + apply IH; try assumption. lia.
    + intros pop' w' (Hok' & Hrefs' & Hl').
      repeat split; try assumption.
      destruct resto; [congruence | exact Hl'].
Qed.

Lemma inicializar_sempre cfg w :
  arrays_ok (arrays w) ->
  sempre (inicializar_populacao cfg) w
         (fun populacao w' =>
            arrays_ok (arrays w') /\ refs_ok (arrays w') populacao /\
            length populacao = TAMANHO_POPULACAO cfg).
Proof.
  intros Hok res w' H. unfold inicializar_populacao in H.
  apply laco_inicializar_inv_forte in H as (cs & -> & Ha & Hl & Hcs).
  eexists. split; [reflexivity|]. rewrite Ha. split; [|split].
  - apply Forall_app. split; [exact Hok|].
    eapply Forall_impl; [exact Hcs|]. intros c [Hlen Hlim].
    split; [exact Hlen | now apply raios_ok_de_limites].
  - apply Forall_forall. intros r Hr. simpl in Hr.
    apply elem_of_seq in Hr. rewrite length_app. lia.
  - simpl. apply length_seq.
Qed.

Lemma escolher_melhor_sempre populacao aptidoes a :
  arrays_ok a -> refs_ok a populacao ->
  (1 <= length populacao)%nat -> length aptidoes = length populacao ->
  exists melhor c,
    escolher_melhor populacao aptidoes = Ok melhor /\
    a !! melhor = Some c /\ cromossomo_ok c.
Proof.
  intros Hok Hrefs Hne Hlen.
  destruct (escolher_melhor_primeiro populacao aptidoes)
    as (antes & x & depois & r & E & Hr & _).
  { intros ->. simpl in Hlen. lia. }
  { exact Hlen. }
  assert (Hlt : (r < length a)%nat).
  { unfold refs_ok in Hrefs. rewrite Forall_forall in Hrefs. apply Hrefs.
    eapply list_elem_of_lookup_2; eauto. }
  destruct (arrays_ok_lookup a r Hok Hlt) as (c & Hc & Hcok).
  now exists r, c.
Qed.

Lemma principal_sempre cfg w :
  arrays_ok (arrays w) ->
  (1 <= TAMANHO_TORNEIO cfg <= 2 * (TAMANHO_POPULACAO cfg / 2))%nat ->
  sempre (principal cfg) w
         (fun melhor w' =>
            exists c, arrays w' !! melhor = Some c /\ cromossomo_ok c).
Proof.
  intros Hok Ht. unfold principal.
  assert (Hdiv : (2 * (TAMANHO_POPULACAO cfg / 2) <= TAMANHO_POPULACAO cfg)%nat)
    by (apply Nat.Div0.mul_div_le).
  eapply sempre_bind; [now apply inicializar_sempre|].
  intros pop0 w0 (Hok0 & Hrefs0 & Hl0).
  eapply sempre_bind.
  { apply laco_geracoes_sempre; try assumption; lia. }
  intros pop1 w1 (Hok1 & Hrefs1 & Hl1).
  assert (Hne : (1 <= length pop1)%nat).
  { destruct (seq 0 (NUM_GERACOES cfg)); lia. }
  eapply sempre_bind; [now apply avaliar_sempre|].
  intros aptidoes w2 [-> Hlen].
  destruct (escolher_melhor_sempre pop1 aptidoes (arrays w1) Hok1 Hrefs1 Hne Hlen)
    as (melhor & c & E & Hc & Hcok).
  intros r w' H. unfold puro in H. rewrite E in H. inversion H; subst.
  exists melhor. split; [reflexivity|]. now exists c.
Qed.

(** * Further properties of the main loop *)

(** X12.  From a store whose arrays are chromosomes of 18 genes with valid
    radii, and a population of references into it at least as large as the
    tournament (itself at least 1), every run of one generation ends
    normally: no exception is raised.  The new population has twice the
    integer half of [TAMANHO_POPULACAO] members (that many exactly when the
    size is even), all references into the store, and every array of the
    store, old or new, is still a chromosome of 18 genes with valid radii. *)
Theorem X12_geracao_conserva_invariante (cfg : parametros) (geracao : nat)
    (populacao : list ref) (w : mundo) (res : resultado (list ref))
    (w' : mundo) :
  arrays_ok (arrays w) -> refs_ok (arrays w) populacao ->
  (1 <= TAMANHO_TORNEIO cfg <= length populacao)%nat ->
  passo_geracao cfg geracao populacao w = Some (res, w') ->
  exists populacao',
    res = Ok populacao' /\
    length populacao' = (2 * (TAMANHO_POPULACAO cfg / 2))%nat /\
    (Nat.even (TAMANHO_POPULACAO cfg) = true ->
     length populacao' = TAMANHO_POPULACAO cfg) /\
    arrays_ok (arrays w') /\ refs_ok (arrays w') populacao' /\
    (length (arrays w) <= length (arrays w'))%nat.
Proof.
  intros Hok Hrefs Ht H.
  destruct (passo_geracao_sempre cfg geracao populacao w Hok Hrefs Ht _ _ H)
    as (pop' & -> & Hok' & Hle & Hrefs' & Hl).
  exists pop'. repeat split; try assumption.
  intros Hev. rewrite Hl. apply Nat.even_spec in Hev as [k Hk].
  rewrite Hk, (Nat.mul_comm 2 k), Nat.div_mul by lia. lia.
Qed.

(** ** A whole run in which nothing changes *)

Lemma argmax_desde_iguais v n : forall i melhor,
  np.argmax_desde (replicate n v) i melhor v = melhor.
Proof.
  induction n as [|n IH]; intros i melhor; [reflexivity|].
  simpl. rewrite Rlt_b_false by lra. apply IH.
Qed.

Lemma escolher_melhor_iguais populacao v (r : ref) :
  populacao !! 0%nat = Some r ->
  escolher_melhor populacao (replicate (length populacao) v) = Ok r.
Proof.
  intros Hr. destruct populacao as [|r0 pop]; [discriminate|].
  cbn [length replicate]. unfold escolher_melhor, np.argmax.
  rewrite argmax_desde_iguais, bind_Ok. unfold indexar. now rewrite Hr.
Qed.

Lemma relatorio_ok aptidoes m w :
  py_max aptidoes = Ok m ->
  (puro (py_max aptidoes) ≫= fun _ => mret tt) w = Some (Ok tt, w).
Proof. intros H. rewrite prog_bind_eq. unfold puro. now rewrite H. Qed.

Lemma parada_replicate n :
  (4 <= n)%nat -> parada n (replicate (2 * (n / 2)) 0%nat).
Proof.
  intros Hn.
  assert (Hd : (2 <= n / 2)%nat) by (apply Nat.div_le_lower_bound; lia).
  split; [|split].
  - apply Forall_replicate. lia.
  - rewrite length_replicate. lia.
  - apply lookup_replicate_2. lia.
Qed.

Section Parada.

Variable cfg : parametros.
Hypothesis Htorneio : TAMANHO_TORNEIO cfg = 3%nat.
Hypothesis Hcruz : TAXA_CRUZAMENTO cfg <= 0.9.
Hypothesis Hmut : TAXA_MUTACAO cfg <= 0.5.

Lemma laco_reproduzir_parado n populacao v a c : forall nova t,
  (3 <= length populacao)%nat -> populacao !! 0%nat = Some 0%nat ->
  a !! 0%nat = Some c -> length c = 18%nat ->
  laco_reproduzir cfg n populacao (replicate (length populacao) v) nova
    {| arrays := a; fita := fita_geracao_parada n ++ t |}
  = Some (Ok (nova ++ replicate (2 * n) 0%nat),
          {| arrays := a; fita := t |}).
Proof using Htorneio Hcruz Hmut.
  induction n as [|n IH]; intros nova t Hlen Hp Ha Hc.
  - simpl. now rewrite app_nil_r.
  - cbn [laco_reproduzir]. unfold fita_geracao_parada.
    cbn [replicate concat]. rewrite <- app_assoc.
    fold (fita_geracao_parada n).
    rewrite (prog_bind_Ok _ _ _ (nova ++ [0%nat] ++ [0%nat])
               {| arrays := a; fita := fita_geracao_parada n ++ t |}).
    + rewrite IH by assumption. rewrite <- app_assoc.
      replace (2 * S n)%nat with (S (S (2 * n))) by lia. reflexivity.
    + apply (reproduzir_par_sem_mudanca cfg populacao v 0%nat [1; 2]%nat
               0%nat [1; 2]%nat 0%nat 0%nat a c c nova);
        try assumption; try (now rewrite Htorneio);
        try apply NoDup_012; repeat constructor; simpl; lia.
Qed.

Lemma passo_geracao_parado geracao populacao t :
  parada (TAMANHO_POPULACAO cfg) populacao ->
  passo_geracao cfg geracao populacao
    {| arrays := replicate (TAMANHO_POPULACAO cfg) c_inicial;
       fita := fita_geracao_parada (TAMANHO_POPULACAO cfg / 2) ++ t |}
  = Some (Ok (replicate (2 * (TAMANHO_POPULACAO cfg / 2)) 0%nat),
          {| arrays := replicate (TAMANHO_POPULACAO cfg) c_inicial;
             fita := t |}).
Proof using Htorneio Hcruz Hmut.
  intros (Hall & Hlen & Hp). unfold passo_geracao.
  rewrite (prog_bind_Ok _ _ _ _ _
             (avaliar_populacao_inicial _ populacao _ Hall)).
  assert (H0 : (0 < TAMANHO_POPULACAO cfg)%nat).
  { rewrite Forall_forall in Hall.
    assert (Hin : 0%nat ∈ populacao)
      by (eapply list_elem_of_lookup_2; eauto).
    specialize (Hall _ Hin). simpl in Hall. lia. }
  rewrite (prog_bind_Ok _ _ _ _ _
             (laco_reproduzir_parado _ populacao _ _ c_inicial [] t Hlen Hp
                (lookup_replicate_2 _ _ _ H0) eq_refl)).
  destruct (py_max_ok (replicate (length populacao) (aptidao_valor c_inicial)))
    as [m Hm].
  { destruct populacao; [simpl in Hlen; lia | discriminate]. }
  rewrite (prog_bind_Ok _ _ _ tt
             {| arrays := replicate (TAMANHO_POPULACAO cfg) c_inicial;
                fita := t |}); [reflexivity|].
  destruct (decide ((geracao + 1) mod 25 = 0)%nat); [|reflexivity].
  now apply relatorio_ok with m.
Qed.

Lemma laco_geracoes_parado geracoes : forall populacao t,
  (4 <= TAMANHO_POPULACAO cfg)%nat ->
  parada (TAMANHO_POPULACAO cfg) populacao ->
  exists populacao',
    laco_geracoes cfg geracoes populacao
      {| arrays := replicate (TAMANHO_POPULACAO cfg) c_inicial;
         fita := concat (replicate (length geracoes)
                           (fita_geracao_parada (TAMANHO_POPULACAO cfg / 2)))
                 ++ t |}
    = Some (Ok populacao',
            {| arrays := replicate (TAMANHO_POPULACAO cfg) c_inicial;
               fita := t |}) /\
    parada (TAMANHO_POPULACAO cfg) populacao'.
Proof using Htorneio Hcruz Hmut.
  induction geracoes as [|g resto IH]; intros pop t Hn Hpar.
  - exists pop. split; [reflexivity | exact Hpar].
  - cbn [laco_geracoes length replicate concat]. rewrite <- app_assoc.
    destruct (IH (replicate (2 * (TAMANHO_POPULACAO cfg / 2)) 0%nat) t Hn
                (parada_replicate _ Hn)) as (pop' & E & Hpar').
    exists pop'. split; [|exact Hpar'].
    now rewrite (prog_bind_Ok _ _ _ _ _ (passo_geracao_parado g pop _ Hpar)).
Qed.

Lemma principal_parado t :
  (4 <= TAMANHO_POPULACAO cfg)%nat ->
  principal cfg {| arrays := []; fita := fita_execucao_parada cfg ++ t |}
  = Some (Ok 0%nat,
          {| arrays := replicate (TAMANHO_POPULACAO cfg) c_inicial;
             fita := t |}).
Proof using Htorneio Hcruz Hmut.
  intros Hn. unfold principal, fita_execucao_parada.
  rewrite <- app_assoc.
  rewrite (prog_bind_Ok _ _ _ _ _ (inicializar_populacao_nulo cfg _)).
  assert (Hpar : parada (TAMANHO_POPULACAO cfg)
                        (seq 0 (TAMANHO_POPULACAO cfg))).
  { split; [|split].
    - apply Forall_forall. intros r Hr. apply elem_of_seq in Hr. lia.
    - rewrite length_seq. lia.
    - apply lookup_seq_lt. lia. }
  destruct (laco_geracoes_parado (seq 0 (NUM_GERACOES cfg)) _ t Hn Hpar)
    as (pop' & E & (Hall & Hlen & Hp)).
  rewrite length_seq in E.
  rewrite (prog_bind_Ok _ _ _ _ _ E).
  rewrite (prog_bind_Ok _ _ _ _ _
             (avaliar_populacao_inicial _ pop' t Hall)).
  unfold puro. now rewrite (escolher_melhor_iguais pop' _ 0%nat Hp).
Qed.

End Parada.

Lemma sentinela_so_por_corrente c :
  cromossomo_ok c ->
  (exists v, calcular_aptidao c = Ok v) /\
  (calcular_aptidao c = Ok (-1e9) <->
   exists k, (k < NUM_BOBINAS)%nat /\ corrente_de c k <= 0).
Proof.
  intros Hc. pose proof Hc as [Hl _].
  split; [now apply calcular_aptidao_total|]. split.
  - intros E. destruct (valido_ou_invalido c Hl) as [Hv|(k & Hk & [Hr|Hi])].
    + rewrite calcular_aptidao_valido in E by exact Hv. inversion E as [Ev].
      pose proof (aptidao_de_lower (media (perfil_campo c))
                    (desvio (perfil_campo c)) (pares_violando (posicoes_de c))
                    (desvio_nonneg _) (pares_violando_le _)).
      lra.
    + pose proof (raio_de_ok c k Hc Hk). lra.
    + now exists k.
  - intros (k & Hk & Hi). apply calcular_aptidao_invalido with k; auto.
Qed.

(** X13.  From a store of valid chromosomes (the empty store of a fresh
    script in particular), with a tournament size of at least 1 and at most
    twice the integer half of the population size, every run of the whole
    script ends normally: no generation raises.  The best individual it
    reports is an array of the store with 18 genes whose radii are all at
    least the minimum; its fitness is defined, and is the sentinel exactly
    when one of its currents is not positive. *)
Theorem X13_execucao_sem_excecao (cfg : parametros) (w : mundo)
    (res : resultado ref) (w' : mundo) :
  arrays_ok (arrays w) ->
  (1 <= TAMANHO_TORNEIO cfg <= 2 * (TAMANHO_POPULACAO cfg / 2))%nat ->
  principal cfg w = Some (res, w') ->
  exists melhor c,
    res = Ok melhor /\
    arrays w' !! melhor = Some c /\
    length c = (3 * NUM_BOBINAS)%nat /\
    (forall k, (k < NUM_BOBINAS)%nat -> RAIO_MINIMO <= raio_de c k) /\
    (exists v, calcular_aptidao c = Ok v) /\
    (calcular_aptidao c = Ok (-1e9) <->
     exists k, (k < NUM_BOBINAS)%nat /\ corrente_de c k <= 0).
Proof.
  intros Hok Ht H.
  destruct (principal_sempre cfg w Hok Ht _ _ H) as (melhor & -> & c & Hc & Hcok).
  exists melhor, c. split; [reflexivity|]. split; [exact Hc|].
  split; [apply Hcok|]. split; [intros k Hk; now apply raio_de_ok|].
  now apply sentinela_so_por_corrente.
Qed.

(** The witness is a run with the parameters of the source: population 100,
    250 generations, tournament 3. *)
Lemma X13_witness :
  exists melhor c,
    Ok 0%nat = Ok melhor /\
    replicate 100 c_inicial !! melhor = Some c /\
    length c = (3 * NUM_BOBINAS)%nat /\
    (forall k, (k < NUM_BOBINAS)%nat -> RAIO_MINIMO <= raio_de c k) /\
    (exists v, calcular_aptidao c = Ok v) /\
    (calcular_aptidao c = Ok (-1e9) <->
     exists k, (k < NUM_BOBINAS)%nat /\ corrente_de c k <= 0).
Proof.
  refine (X13_execucao_sem_excecao parametros_fonte
            {| arrays := [];
               fita := fita_execucao_parada parametros_fonte ++ [] |}
            (Ok 0%nat)
            {| arrays := replicate 100 c_inicial; fita := [] |} _ _ _).
  - constructor.
  - simpl. lia.
  - apply (principal_parado parametros_fonte eq_refl);
      [simpl; lra | simpl; lra | simpl; lia].
Defined.

Lemma X12_witness :
  exists populacao',
    Ok (replicate (2 * (100 / 2)) 0%nat) = Ok populacao' /\
    length populacao' = (2 * (100 / 2))%nat /\
    (Nat.even 100 = true -> length populacao' = 100%nat) /\
    arrays_ok (replicate 100 c_inicial) /\
    refs_ok (replicate 100 c_inicial) populacao' /\
    (length (replicate 100 c_inicial) <= length (replicate 100 c_inicial))%nat.
Proof.
  assert (Hpar : parada 100 (seq 0 100)).
  { split; [|split]; [|simpl; lia | reflexivity].
    apply Forall_forall. intros r Hr. apply elem_of_seq in Hr. lia. }
  refine (X12_geracao_conserva_invariante parametros_fonte 0 (seq 0 100)
            {| arrays := replicate 100 c_inicial;
               fita := fita_geracao_parada (100 / 2) ++ [] |}
            _ _ _ _ _
            (passo_geracao_parado parametros_fonte eq_refl
               ltac:(simpl; lra) ltac:(simpl; lra) 0 (seq 0 100) [] Hpar)).
  - apply Forall_replicate. exact c_inicial_ok.
  - apply Forall_forall. intros r Hr. apply elem_of_seq in Hr.
    cbn [arrays]. rewrite length_replicate. lia.
  - simpl. lia.
Defined.

(** * The drift of the genes over a run

    Each call of [mutacao] moves a gene by at most [DESVIO_MAXIMO], and
    crossover only recombines genes of one index, so after [k] calls every
    gene of the store is within [k] times that bound of the range in which
    it was sampled. *)

Lemma DESVIO_MAXIMO_pos : 0 < DESVIO_MAXIMO.
Proof. unfold DESVIO_MAXIMO, LIMITE_GAUSS. lra. Qed.

Lemma gene_dentro_mono k k' i x :
  (k <= k')%nat -> gene_dentro k i x -> gene_dentro k' i x.
Proof.
  intros Hk. apply le_INR in Hk. pose proof DESVIO_MAXIMO_pos as HD.
  assert (DESVIO_MAXIMO * INR k <= DESVIO_MAXIMO * INR k')
    by (apply Rmult_le_compat_l; lra).
  unfold gene_dentro.
  destruct (decide (i mod 3 = 0)%nat); [lra|].
  destruct (decide (i mod 3 = 1)%nat); lra.
Qed.

Lemma cromossomo_dentro_mono k k' c :
  (k <= k')%nat -> cromossomo_dentro k c -> cromossomo_dentro k' c.
Proof.
  intros Hk [Hl Hg]. split; [exact Hl|].
  intros i x Hi. apply (gene_dentro_mono k k'); [exact Hk | now apply Hg].
Qed.

Lemma arrays_dentro_mono k k' a :
  (k <= k')%nat -> arrays_dentro k a -> arrays_dentro k' a.
Proof.
  intros Hk H. eapply Forall_impl; [exact H|].
  intros c. now apply cromossomo_dentro_mono.
Qed.

Lemma cromossomo_dentro_ok k c : cromossomo_dentro k c -> cromossomo_ok c.
Proof.
  intros [Hl Hg]. split; [exact Hl|]. intros i x Hi Hmod.
  specialize (Hg i x Hi). unfold gene_dentro in Hg.
  destruct (decide (i mod 3 = 0)%nat); [lra | contradiction].
Qed.

Lemma arrays_dentro_ok k a : arrays_dentro k a -> arrays_ok a.
Proof.
  intros H. eapply Forall_impl; [exact H|]. intros c. apply cromossomo_dentro_ok.
Qed.

Lemma gene_mutado_dentro k i x g :
  gene_dentro k i x -> suporte_normal g ->
  gene_dentro (S k) i (gene_mutado i x (0 + 0.2 * g)).
Proof.
  intros Hx Hg. apply ruido_limitado in Hg. fold DESVIO_MAXIMO in Hg.
  assert (Hn : - DESVIO_MAXIMO <= 0 + 0.2 * g <= DESVIO_MAXIMO).
  { unfold Rabs in Hg. destruct (Rcase_abs (0.2 * g)); lra. }
  unfold gene_dentro in *. rewrite S_INR.
  destruct (decide (i mod 3 = 0)%nat) as [Hi|Hi].
  - destruct (gene_mutado_raio i x (0 + 0.2 * g) Hi) as [E Hmin].
    split; [exact Hmin|]. rewrite E. unfold RAIO_MINIMO in *.
    apply Rmax_lub; lra.
  - rewrite gene_mutado_outro by exact Hi.
    destruct (decide (i mod 3 = 1)%nat); lra.
Qed.

Lemma inicial_dentro c :
  length c = (3 * NUM_BOBINAS)%nat -> nos_limites_iniciais c ->
  cromossomo_dentro 0 c.
Proof.
  intros Hl Hlim. split; [exact Hl|]. intros i x Hi.
  assert (Hlt : (i < 3 * NUM_BOBINAS)%nat).
  { rewrite <- Hl. eapply lookup_lt_Some; eauto. }
  pose proof (Nat.div_mod_eq i 3) as Ei.
  pose proof (Nat.mod_upper_bound i 3 ltac:(lia)) as Hm.
  destruct (Hlim (i / 3)%nat) as (Hr & Hp & Hc).
  { unfold NUM_BOBINAS in *. lia. }
  unfold raio_de, posicao_de, corrente_de in Hr, Hp, Hc.
  unfold gene_dentro. rewrite Rmult_0_r.
  destruct (decide (i mod 3 = 0)%nat) as [H0|H0];
    [|destruct (decide (i mod 3 = 1)%nat) as [H1|H1]].
  - replace (3 * (i / 3))%nat with i in Hr by lia.
    rewrite (nth_lookup_Some _ _ _ _ Hi) in Hr. lra.
  - replace (3 * (i / 3) + 1)%nat with i in Hp by lia.
    rewrite (nth_lookup_Some _ _ _ _ Hi) in Hp. lra.
  - replace (3 * (i / 3) + 2)%nat with i in Hc by lia.
    rewrite (nth_lookup_Some _ _ _ _ Hi) in Hc. lra.
Qed.

Lemma filho_dentro k ponto c1 c2 :
  cromossomo_dentro k c1 -> cromossomo_dentro k c2 ->
  cromossomo_dentro k (take ponto c1 ++ drop ponto c2).
Proof.
  intros [Hl1 Hg1] [Hl2 Hg2]. split.
  - rewrite length_app, length_take, length_drop. lia.
  - intros i x Hi. apply lookup_app_Some in Hi as [Hi|[Hge Hi]].
    + apply lookup_take_Some in Hi as [Hi _]. now apply Hg1.
    + rewrite lookup_drop in Hi. rewrite length_take in Hi, Hge.
      destruct (decide (ponto <= length c1)%nat) as [Hle|Hgt].
      * replace (ponto + (i - ponto `min` length c1))%nat with i in Hi by lia.
        now apply Hg2.
      * apply lookup_lt_Some in Hi. lia.
Qed.

Lemma arrays_dentro_lookup k a (r : ref) :
  arrays_dentro k a -> (r < length a)%nat ->
  exists c, a !! r = Some c /\ cromossomo_dentro k c.
Proof.
  intros Hok Hr. destruct (lookup_lt_is_Some_2 a r Hr) as [c Hc].
  exists c. split; [exact Hc|]. exact (Forall_lookup_1 _ _ _ _ Hok Hc).
Qed.

Lemma mutacao_dentro cfg (r : ref) w k :
  arrays_dentro k (arrays w) -> (r < length (arrays w))%nat ->
  sempre (mutacao cfg r) w
         (fun r' w' =>
            r' = r /\ arrays_dentro (S k) (arrays w') /\
            length (arrays w') = length (arrays w)).
Proof.
  intros Hok Hr res w' H.
  destruct (arrays_dentro_lookup _ _ _ Hok Hr) as (c & Hc & Hl & Hgenes).
  destruct (mutacao_inv_geral cfg r w c res w' Hc H)
    as (c' & -> & Ha & Hlen & Hg).
  exists r. split; [reflexivity|]. split; [reflexivity|]. rewrite Ha. split.
  - apply Forall_insert.
    + apply (arrays_dentro_mono k); [lia | exact Hok].
    + split; [congruence|]. intros i y Hi.
      assert (Hlt : (i < length c)%nat).
      { rewrite <- Hlen. eapply lookup_lt_Some; eauto. }
      destruct (lookup_lt_is_Some_2 c i Hlt) as [x Hx].
      destruct (Hg i x Hx) as (y' & Hy' & Hcase).
      assert (y' = y) by congruence. subst y'.
      destruct Hcase as [->|(g & Hsup & ->)].
      * apply (gene_dentro_mono k); [lia | now apply Hgenes].
      * apply gene_mutado_dentro; [now apply Hgenes | exact Hsup].
  - apply length_insert.
Qed.

Lemma cruzamento_dentro cfg (pai1 pai2 : ref) w k :
  arrays_dentro k (arrays w) ->
  (pai1 < length (arrays w))%nat -> (pai2 < length (arrays w))%nat ->
  sempre (cruzamento cfg pai1 pai2) w
         (fun f w' =>
            arrays_dentro k (arrays w') /\
            (length (arrays w) <= length (arrays w'))%nat /\
            (fst f < length (arrays w'))%nat /\
            (snd f < length (arrays w'))%nat).
Proof.
  intros Hok H1 H2 res w' H.
  destruct (arrays_dentro_lookup _ _ _ Hok H1) as (p1 & Hp1 & Hc1).
  destruct (arrays_dentro_lookup _ _ _ Hok H2) as (p2 & Hp2 & Hc2).
  destruct (cruzamento_inv cfg pai1 pai2 w p1 p2 res w' Hp1 Hp2 H)
    as (u & _ & [(_ & _ & -> & Ha)|[(_ & p & Hp & _ & -> & Ha)|
                                    (_ & Hle & _)]]).
  - exists (pai1, pai2). rewrite Ha. now repeat split.
  - eexists. split; [reflexivity|]. rewrite Ha. simpl fst. simpl snd.
    rewrite length_app. simpl length. repeat split; try lia.
    apply Forall_app. split; [exact Hok|].
    constructor; [now apply filho_dentro|].
    constructor; [now apply filho_dentro | constructor].
  - destruct Hc1 as [Hl _]. rewrite Hl in Hle. unfold NUM_BOBINAS in Hle.
    simpl in Hle. lia.
Qed.

Lemma reproduzir_par_dentro cfg populacao aptidoes nova w k :
  arrays_dentro k (arrays w) -> refs_ok (arrays w) populacao ->
  refs_ok (arrays w) nova ->
  (1 <= TAMANHO_TORNEIO cfg <= length populacao)%nat ->
  length aptidoes = length populacao ->
  sempre (reproduzir_par cfg populacao aptidoes nova) w
         (fun nova' w' =>
            arrays_dentro (k + 2) (arrays w') /\
            (length (arrays w) <= length (arrays w'))%nat /\
            refs_ok (arrays w') nova' /\
            length nova' = (length nova + 2)%nat).
Proof.
  intros Hok Hpop Hnova Ht Hlen. unfold reproduzir_par.
  eapply sempre_bind; [now apply selecao_sempre|].
  intros pai1 w1 [Ha1 Hin1].
  eapply sempre_bind; [now apply selecao_sempre|].
  intros pai2 w2 [Ha2 Hin2].
  assert (Ea : arrays w2 = arrays w) by congruence.
  unfold refs_ok in Hpop. rewrite Forall_forall in Hpop.
  eapply sempre_bind.
  { apply (cruzamento_dentro cfg pai1 pai2 w2 k); rewrite Ea;
      [exact Hok | | ]; now apply Hpop. }
  intros [f1 f2] w3 (Hok3 & Hle3 & Hf1 & Hf2). simpl in Hf1, Hf2.
  eapply sempre_bind; [now apply (mutacao_dentro cfg f1 w3 k)|].
  intros m1 w4 (-> & Hok4 & Hlen4).
  eapply sempre_bind.
  { apply (mutacao_dentro cfg f2 w4 (S k));
      [exact Hok4 | rewrite Hlen4; exact Hf2]. }
  intros m2 w5 (-> & Hok5 & Hlen5).
  apply sempre_ret. rewrite Ea in Hle3.
  split; [now replace (k + 2)%nat with (S (S k)) by lia|].
  split; [lia|]. split.
  - apply Forall_app. split.
    + apply (refs_ok_mono (arrays w)); [exact Hnova | lia].
    + repeat constructor; simpl; lia.
  - rewrite !length_app. simpl. lia.
Qed.

Lemma laco_reproduzir_dentro cfg n populacao aptidoes : forall nova w k,
  arrays_dentro k (arrays w) -> refs_ok (arrays w) populacao ->
  refs_ok (arrays w) nova ->
  (1 <= TAMANHO_TORNEIO cfg <= length populacao)%nat ->
  length aptidoes = length populacao ->
  sempre (laco_reproduzir cfg n populacao aptidoes nova) w
         (fun nova' w' =>
            arrays_dentro (k + 2 * n) (arrays w') /\
            (length (arrays w) <= length (arrays w'))%nat /\
            refs_ok (arrays w') nova' /\
            length nova' = (length nova + 2 * n)%nat).
Proof.
  induction n as [|n IH]; intros nova w k Hok Hpop Hnova Ht Hlen.
  - apply sempre_ret. rewrite Nat.add_0_r. repeat split; (assumption || lia).
  - cbn [laco_reproduzir].
    eapply sempre_bind; [now apply (reproduzir_par_dentro _ _ _ _ _ k)|].
    intros nova1 w1 (Hok1 & Hle1 & Hnova1 & Hl1).
    eapply sempre_conseq.
    + apply (IH nova1 w1 (k + 2)%nat); try assumption.
      apply (refs_ok_mono (arrays w)); assumption.
    + intros nova' w' (Hok' & Hle' & Hnova' & Hl').
      split; [now replace (k + 2 * S n)%nat with (k + 2 + 2 * n)%nat by lia|].
      repeat split; (assumption || lia).
Qed.

Lemma passo_geracao_dentro cfg geracao populacao w k :
  arrays_dentro k (arrays w) -> refs_ok (arrays w) populacao ->
  (1 <= TAMANHO_TORNEIO cfg <= length populacao)%nat ->
  sempre (passo_geracao cfg geracao populacao) w
         (fun populacao' w' =>
            arrays_dentro (k + 2 * (TAMANHO_POPULACAO cfg / 2)) (arrays w') /\
            refs_ok (arrays w') populacao' /\
            length populacao' = (2 * (TAMANHO_POPULACAO cfg / 2))%nat).
Proof.
  intros Hok Hrefs Ht. unfold passo_geracao.
  eapply sempre_bind.
  { apply avaliar_sempre; [now apply (arrays_dentro_ok k) | exact Hrefs]. }
  intros aptidoes w1 [-> Hlen].
  eapply sempre_bind.
  { apply (laco_reproduzir_dentro cfg _ populacao aptidoes [] w k);
      try assumption. constructor. }
  intros nova w2 (Hok2 & Hle2 & Hnova & Hl2).
  eapply sempre_bind with (Q1 := fun _ w3 => w3 = w2).
  - destruct (decide ((geracao + 1) mod 25 = 0)%nat); [|now apply sempre_ret].
    destruct (py_max_ok aptidoes) as [m Hm].
    { intros ->. simpl in Hlen. lia. }
    intros r w3 H. unfold puro in H. rewrite prog_bind_eq, Hm in H.
    inversion H; subst. now exists tt.
  - intros _ w3 ->. apply sempre_ret. repeat split; assumption.
Qed.

Lemma laco_geracoes_dentro cfg geracoes : forall populacao w k,
  arrays_dentro k (arrays w) -> refs_ok (arrays w) populacao ->
  (1 <= TAMANHO_TORNEIO cfg <= length populacao)%nat ->
  (TAMANHO_TORNEIO cfg <= 2 * (TAMANHO_POPULACAO cfg / 2))%nat ->
  sempre (laco_geracoes cfg geracoes populacao) w
         (fun populacao' w' =>
            arrays_dentro
              (k + length geracoes * (2 * (TAMANHO_POPULACAO cfg / 2)))
              (arrays w') /\
            refs_ok (arrays w') populacao' /\
            (1 <= length populacao')%nat).
Proof.
  induction geracoes as [|g resto IH]; intros pop w k Hok Hrefs Ht Hp.
  - apply sempre_ret. simpl. rewrite Nat.add_0_r.
    split; [exact Hok|]. split; [exact Hrefs | lia].
  - cbn [laco_geracoes].
    eapply sempre_bind; [now apply (passo_geracao_dentro _ _ _ _ k)|].
    intros nova w1 (Hok1 & Hrefs1 & Hl1).
    eapply sempre_conseq.
    + apply (IH nova w1 (k + 2 * (TAMANHO_POPULACAO cfg / 2))%nat);
        try assumption. lia.
    + intros pop' w' (Hok' & Hrefs' & Hl').
      split; [|split; assumption].
      replace (k + length (g :: resto) * (2 * (TAMANHO_POPULACAO cfg / 2)))%nat
        with (k + 2 * (TAMANHO_POPULACAO cfg / 2)
              + length resto * (2 * (TAMANHO_POPULACAO cfg / 2)))%nat
        by (simpl; lia).
      exact Hok'.
Qed.

Lemma inicializar_dentro cfg w :
  arrays w = [] ->
  sempre (inicializar_populacao cfg) w
         (fun populacao w' =>
            arrays_dentro 0 (arrays w') /\ refs_ok (arrays w') populacao /\
            length populacao = TAMANHO_POPULACAO cfg).
Proof.
  intros Hvazio res w' H. unfold inicializar_populacao in H.
  apply laco_inicializar_inv_forte in H as (cs & -> & Ha & Hl & Hcs).
  eexists. split; [reflexivity|]. rewrite Ha, Hvazio. split; [|split].
  - simpl. eapply Forall_impl; [exact Hcs|]. intros c [Hlen Hlim].
    now apply inicial_dentro.
  - apply Forall_forall. intros r Hr. simpl in Hr.
    apply elem_of_seq in Hr. simpl. lia.
  - simpl. apply length_seq.
Qed.

(** Within a drift of less than 1e6 every current is positive: the
    chromosome is structurally valid, and its genes are far inside the
    domain of the exact-arithmetic reading. *)
Lemma dentro_valido k c :
  DESVIO_MAXIMO * INR k < 1e6 -> cromossomo_dentro k c ->
  estruturalmente_valido c /\ genes_limitados c /\
  forall j, (j < NUM_BOBINAS)%nat ->
    1e6 - DESVIO_MAXIMO * INR k <= corrente_de c j.
Proof.
  intros Hk [Hl Hg].
  assert (Hf : 0 <= DESVIO_MAXIMO * INR k).
  { apply Rmult_le_pos; [left; apply DESVIO_MAXIMO_pos | apply pos_INR]. }
  assert (Hgene : forall i, (i < 3 * NUM_BOBINAS)%nat ->
            exists x, c !! i = Some x /\ nth i c 0 = x /\ gene_dentro k i x).
  { intros i Hi. rewrite <- Hl in Hi.
    destruct (lookup_lt_is_Some_2 c i Hi) as [x Hx].
    exists x. split; [exact Hx|]. split; [now apply nth_lookup_Some|].
    now apply Hg. }
  assert (Hcor : forall j, (j < NUM_BOBINAS)%nat ->
            1e6 - DESVIO_MAXIMO * INR k <= corrente_de c j).
  { intros j Hj. unfold corrente_de.
    destruct (Hgene (3 * j + 2)%nat) as (x & _ & -> & Hx);
      [unfold NUM_BOBINAS in *; lia|].
    unfold gene_dentro in Hx.
    replace ((3 * j + 2) mod 3)%nat with 2%nat in Hx
      by (rewrite Nat.add_comm, Nat.mul_comm, Nat.Div0.mod_add; reflexivity).
    simpl in Hx. lra. }
  split; [|split; [|exact Hcor]].
  - split; [exact Hl|]. intros j Hj. split.
    + unfold raio_de.
      destruct (Hgene (3 * j)%nat) as (x & _ & -> & Hx);
        [unfold NUM_BOBINAS in *; lia|].
      unfold gene_dentro in Hx.
      replace ((3 * j) mod 3)%nat with 0%nat in Hx
        by (rewrite Nat.mul_comm, Nat.Div0.mod_mul; reflexivity).
      simpl in Hx. lra.
    + specialize (Hcor j Hj). lra.
  - apply Forall_forall. intros x Hx.
    apply list_elem_of_lookup_1 in Hx as [i Hi].
    specialize (Hg i x Hi). unfold gene_dentro, RAIO_MINIMO in Hg.
    unfold LIMITE_GENES. apply Rabs_le.
    destruct (decide (i mod 3 = 0)%nat); [lra|].
    destruct (decide (i mod 3 = 1)%nat); lra.
Qed.

(** X17.  In a run of the whole script from an empty store, with a
    tournament size of at least 1 and at most twice the integer half of the
    population size, the noise of the mutations cannot bring a current down
    to zero as long as the number of generations times the number of
    children of a generation, times [DESVIO_MAXIMO], is below 1e6, the least
    current sampled (250 * 100 * 2.402 = 60050 for the source's parameters).
    Then the run ends normally, and every array of the final store, that is
    every chromosome created during the run, is structurally valid with
    genes at most 1e100 in magnitude and currents within that drift of 1e6;
    its fitness lies between -75000 and 1e105 and is never the sentinel. *)
Theorem X17_execucao_sem_sentinela (cfg : parametros) (w : mundo)
    (res : resultado ref) (w' : mundo) :
  arrays w = [] ->
  (1 <= TAMANHO_TORNEIO cfg <= 2 * (TAMANHO_POPULACAO cfg / 2))%nat ->
  DESVIO_MAXIMO
  * INR (NUM_GERACOES cfg * (2 * (TAMANHO_POPULACAO cfg / 2))) < 1e6 ->
  principal cfg w = Some (res, w') ->
  exists melhor,
    res = Ok melhor /\
    (melhor < length (arrays w'))%nat /\
    Forall (fun c =>
              estruturalmente_valido c /\ genes_limitados c /\
              (forall j, (j < NUM_BOBINAS)%nat ->
                 1e6 - DESVIO_MAXIMO
                       * INR (NUM_GERACOES cfg
                              * (2 * (TAMANHO_POPULACAO cfg / 2)))
                 <= corrente_de c j) /\
              exists v, calcular_aptidao c = Ok v /\ -75000 < v < 1e105)
           (arrays w').
Proof.
  intros Hvazio Ht Hdrift H.
  assert (Hdiv : (2 * (TAMANHO_POPULACAO cfg / 2) <= TAMANHO_POPULACAO cfg)%nat)
    by (apply Nat.Div0.mul_div_le).
  assert (Hrun : sempre (principal cfg) w
            (fun melhor w1 =>
               (melhor < length (arrays w1))%nat /\
               arrays_dentro (NUM_GERACOES cfg
                              * (2 * (TAMANHO_POPULACAO cfg / 2)))
                             (arrays w1))).
  { unfold principal.
    eapply sempre_bind; [now apply inicializar_dentro|].
    intros pop0 w0 (Hok0 & Hrefs0 & Hl0).
    eapply sempre_bind.
    { apply (laco_geracoes_dentro cfg _ pop0 w0 0); try assumption; lia. }
    intros pop1 w1 (Hok1 & Hrefs1 & Hne).
    rewrite length_seq in Hok1. simpl in Hok1.
    eapply sempre_bind.
    { apply avaliar_sempre; [now apply arrays_dentro_ok in Hok1 | exact Hrefs1]. }
    intros aptidoes w2 [-> Hlen].
    destruct (escolher_melhor_primeiro pop1 aptidoes)
      as (antes & x & depois & r & E & Hr & _).
    { intros ->. simpl in Hlen. lia. }
    { exact Hlen. }
    intros r0 w2 H2. unfold puro in H2. rewrite E in H2.
    inversion H2; subst. exists r. split; [reflexivity|].
    split; [|exact Hok1].
    unfold refs_ok in Hrefs1. rewrite Forall_forall in Hrefs1.
    apply Hrefs1. eapply list_elem_of_lookup_2; eauto. }
  destruct (Hrun _ _ H) as (melhor & -> & Hm & Hok).
  exists melhor. split; [reflexivity|]. split; [exact Hm|].
  eapply Forall_impl; [exact Hok|]. intros c Hc.
  destruct (dentro_valido _ c Hdrift Hc) as (Hv & Hg & Hcor).
  split; [exact Hv|]. split; [exact Hg|]. split; [exact Hcor|].
  destruct (aptidao_valido_bounds c Hv Hg) as (v & E & Hb1 & Hb2).
  exists v. split; [exact E | lra].
Qed.

(** The witness is a run with the parameters of the source. *)
Lemma X17_witness :
  exists melhor,
    Ok 0%nat = Ok melhor /\
    (melhor < length (replicate 100 c_inicial))%nat /\
    Forall (fun c =>
              estruturalmente_valido c /\ genes_limitados c /\
              (forall j, (j < NUM_BOBINAS)%nat ->
                 1e6 - DESVIO_MAXIMO
                       * INR (NUM_GERACOES parametros_fonte
                              * (2 * (TAMANHO_POPULACAO parametros_fonte / 2)))
                 <= corrente_de c j) /\
              exists v, calcular_aptidao c = Ok v /\ -75000 < v < 1e105)
           (replicate 100 c_inicial).
Proof.
  refine (X17_execucao_sem_sentinela parametros_fonte
            {| arrays := [];
               fita := fita_execucao_parada parametros_fonte ++ [] |}
            (Ok 0%nat)
            {| arrays := replicate 100 c_inicial; fita := [] |} eq_refl _ _ _).
  - simpl. lia.
  - replace (INR (NUM_GERACOES parametros_fonte
                  * (2 * (TAMANHO_POPULACAO parametros_fonte / 2))))
      with 25000 by (rewrite INR_IZR_INZ; reflexivity).
    unfold DESVIO_MAXIMO, LIMITE_GAUSS. lra.
  - apply (principal_parado parametros_fonte eq_refl);
      [simpl; lra | simpl; lra | simpl; lia].
Defined.

(** * A population that dies out *)

(** X16.  With a population size below 2 the inner loop of a generation
    never runs: whatever the current population, the generation draws
    nothing and leaves an empty population, without any error, except that
    on an already empty population the generations that print the progress
    line (every 25th) raise ValueError, [max] being applied to an empty
    list of fitness values. *)
Theorem X16_populacao_extinta (cfg : parametros) (geracao : nat)
    (populacao : list ref) (w : mundo) :
  (TAMANHO_POPULACAO cfg < 2)%nat ->
  Forall (cromossomo_em (arrays w)) populacao ->
  passo_geracao cfg geracao populacao w
  = Some (if bool_decide ((geracao + 1) mod 25 = 0)%nat
             && bool_decide (populacao = [])
          then Erro ValueError else Ok [], w).
Proof.
  intros Hp Hpop. destruct w as [a t]. unfold passo_geracao.
  rewrite (prog_bind_Ok _ _ _ _ _ (avaliar_ok populacao a t Hpop)).
  replace (TAMANHO_POPULACAO cfg / 2)%nat with 0%nat
    by (symmetry; apply Nat.div_small; lia).
  cbn [laco_reproduzir].
  rewrite (prog_bind_Ok _ _ _ [] {| arrays := a; fita := t |}) by reflexivity.
  destruct (decide ((geracao + 1) mod 25 = 0)%nat) as [Hg|Hg].
  - rewrite (bool_decide_eq_true_2 _ Hg). simpl andb.
    destruct populacao as [|r pop].
    + rewrite bool_decide_eq_true_2 by reflexivity. reflexivity.
    + rewrite bool_decide_eq_false_2 by discriminate.
      destruct (py_max_ok (map (fun r0 => aptidao_valor (nth r0 a []))
                               (r :: pop))) as [m Hm]; [discriminate|].
      rewrite (prog_bind_Ok _ _ _ tt {| arrays := a; fita := t |});
        [reflexivity|].
      now apply relatorio_ok with m.
  - rewrite (bool_decide_eq_false_2 _ Hg). reflexivity.
Qed.

Lemma X16_witness :
  passo_geracao (com_populacao 1 1) 24 []
                {| arrays := [c_inicial]; fita := [] |}
  = Some (Erro ValueError, {| arrays := [c_inicial]; fita := [] |}) /\
  passo_geracao (com_populacao 1 1) 0 [0%nat]
                {| arrays := [c_inicial]; fita := [] |}
  = Some (Ok [], {| arrays := [c_inicial]; fita := [] |}).
Proof.
  split.
  - apply (X16_populacao_extinta (com_populacao 1 1) 24 []
             {| arrays := [c_inicial]; fita := [] |});
      [simpl; lia | constructor].
  - apply (X16_populacao_extinta (com_populacao 1 1) 0 [0%nat]
             {| arrays := [c_inicial]; fita := [] |}); [simpl; lia|].
    repeat constructor. exists c_inicial. now split.
Defined.
